(** * Skill Atlas: the guide generation pipeline

    A shallow embedding of the pipeline of the repository
    ([lib/guide-builder.ts], [lib/source-discovery.ts], [lib/tinyfish.ts],
    the streaming endpoint [app/api/generate-guide/route.ts] and the page
    that reads its stream, [app/page.tsx]) and the properties its
    specification states about it.

    Conventions of the embedding.
    - A JavaScript string is a [string]: a sequence of code units below
      256.  White space is what [trim] and [\s] take for it among them:
      tab, line feed, vertical tab, form feed, carriage return, space
      and the no-break space (160).  Case mapping acts on the ASCII
      letters and on the letters of Latin-1 (192 to 222 and 224 to 254,
      without the two signs 215 and 247).
    - A JavaScript value that comes out of [JSON.parse] is a [JsValue];
      numbers are integers ([Z]).
    - Built-ins whose result the program only passes on ([JSON.parse],
      [Date], [URL], [encodeURIComponent], the search provider, the agent's
      HTTP responses) are variables of the sections that use them.
    - A function that can throw returns a [Completion]. *)

From stdpp Require Import base list strings gmap pretty.
From Stdlib Require Import ZArith Lia Ascii String.

Local Open Scope string_scope.
Local Open Scope list_scope.

Set Warnings "-register-all,-clear-no-such-hyp".

(** ** JavaScript string primitives *)

Module JsString.

Definition LF : string := String (ascii_of_nat 10) EmptyString.
Definition DQUOTE : string := String (ascii_of_nat 34) EmptyString.

(** [\s] of a regular expression and the characters [trim] removes. *)
Definition isWhiteSpace (c : ascii) : bool :=
  let n := nat_of_ascii c in
  ((9 <=? n)%nat && (n <=? 13)%nat) || (n =? 32)%nat || (n =? 160)%nat.

Definition isEmpty (s : string) : bool :=
  match s with
  | EmptyString => true
  | String _ _ => false
  end.

Fixpoint trimStart (s : string) : string :=
  match s with
  | EmptyString => EmptyString
  | String c rest => if isWhiteSpace c then trimStart rest else s
  end.

Fixpoint trimEnd (s : string) : string :=
  match s with
  | EmptyString => EmptyString
  | String c rest =>
      let rest' := trimEnd rest in
      if isWhiteSpace c && isEmpty rest' then EmptyString else String c rest'
  end.

(** [s.trim()] *)
Definition trim (s : string) : string := trimEnd (trimStart s).

Fixpoint take (n : nat) (s : string) : string :=
  match n, s with
  | S k, String c rest => String c (take k rest)
  | _, _ => EmptyString
  end.

Fixpoint drop (n : nat) (s : string) : string :=
  match n, s with
  | S k, String _ rest => drop k rest
  | _, _ => s
  end.

(** [s.slice(n)], [s.slice(0, n)], [s.slice(0, -n)] and [s.slice(-n)]
    for a literal [n >= 0]. *)
Definition sliceFrom (n : nat) (s : string) : string := drop n s.
Definition sliceTo (n : nat) (s : string) : string := take n s.
Definition sliceDropLast (n : nat) (s : string) : string :=
  take (String.length s - n) s.
Definition sliceLast (n : nat) (s : string) : string :=
  drop (String.length s - n) s.

(** [s.startsWith(p)], [s.endsWith(p)], [s.includes(p)] *)
Definition startsWith (s p : string) : bool := String.prefix p s.

Definition endsWith (s p : string) : bool :=
  (String.length p <=? String.length s)%nat
  && String.eqb (drop (String.length s - String.length p) s) p.

Fixpoint includes (s needle : string) : bool :=
  String.prefix needle s
  || match s with
     | EmptyString => false
     | String _ rest => includes rest needle
     end.

Fixpoint mapChars (f : ascii -> ascii) (s : string) : string :=
  match s with
  | EmptyString => EmptyString
  | String c rest => String (f c) (mapChars f rest)
  end.

Fixpoint filterChars (keep : ascii -> bool) (s : string) : string :=
  match s with
  | EmptyString => EmptyString
  | String c rest =>
      if keep c then String c (filterChars keep rest) else filterChars keep rest
  end.

Definition isUpper (c : ascii) : bool :=
  let n := nat_of_ascii c in (65 <=? n)%nat && (n <=? 90)%nat.
Definition isLower (c : ascii) : bool :=
  let n := nat_of_ascii c in (97 <=? n)%nat && (n <=? 122)%nat.
Definition isDigit (c : ascii) : bool :=
  let n := nat_of_ascii c in (48 <=? n)%nat && (n <=? 57)%nat.

(** The capital and the small letters of Latin-1 beyond ASCII. *)
Definition isUpperLatin1 (c : ascii) : bool :=
  let n := nat_of_ascii c in
  (192 <=? n)%nat && (n <=? 222)%nat && negb (n =? 215)%nat.
Definition isLowerLatin1 (c : ascii) : bool :=
  let n := nat_of_ascii c in
  (224 <=? n)%nat && (n <=? 254)%nat && negb (n =? 247)%nat.

(** The upper case of the code units 181, 223 and 255 is no code unit
    below 256 (a Greek letter, the two letters SS, a letter above 255);
    [upperChar] leaves them as they are.  The program compares
    upper-cased text with COMPLETE, COMPLETED, DONE, ERROR and FAILED
    only, which a text that holds one of them equals in neither
    reading. *)
Definition lowerChar (c : ascii) : ascii :=
  if isUpper c || isUpperLatin1 c then ascii_of_nat (nat_of_ascii c + 32) else c.
Definition upperChar (c : ascii) : ascii :=
  if isLower c || isLowerLatin1 c then ascii_of_nat (nat_of_ascii c - 32) else c.

Definition toLowerCase (s : string) : string := mapChars lowerChar s.
Definition toUpperCase (s : string) : string := mapChars upperChar s.

(** [s.replace(/C+/g, " ")] for a character class [C]: every maximal run
    of class characters becomes one space.  [inRun] says that the
    previous character was of the class. *)
Fixpoint collapseRuns (sep : ascii -> bool) (inRun : bool) (s : string) : string :=
  match s with
  | EmptyString => EmptyString
  | String c rest =>
      if sep c then
        if inRun then collapseRuns sep true rest
        else String " " (collapseRuns sep true rest)
      else String c (collapseRuns sep false rest)
  end.

(** [s.replace(/\s+/g, " ")] *)
Definition collapseWhiteSpace (s : string) : string :=
  collapseRuns isWhiteSpace false s.

(** [s.split(/C+/)]: the pieces between the maximal runs of class
    characters; a run at either end leaves an empty piece there, and the
    empty string splits into one empty piece. *)
Fixpoint splitRuns (sep : ascii -> bool) (inRun : bool) (s : string) : list string :=
  match s with
  | EmptyString => [EmptyString]
  | String c rest =>
      if sep c then
        if inRun then splitRuns sep true rest
        else EmptyString :: splitRuns sep true rest
      else
        match splitRuns sep false rest with
        | piece :: pieces => String c piece :: pieces
        | [] => [String c EmptyString]
        end
  end.

(** [s.split(/\s+/)] *)
Definition splitWhiteSpace (s : string) : list string :=
  splitRuns isWhiteSpace false s.

(** [s.split("\n")] and the like: split at every occurrence of one
    character. *)
Fixpoint splitChar (sep : ascii) (s : string) : list string :=
  match s with
  | EmptyString => [EmptyString]
  | String c rest =>
      if Ascii.eqb c sep then EmptyString :: splitChar sep rest
      else
        match splitChar sep rest with
        | piece :: pieces => String c piece :: pieces
        | [] => [String c EmptyString]
        end
  end.

(** [parts.join(sep)] *)
Fixpoint join (sep : string) (parts : list string) : string :=
  match parts with
  | [] => EmptyString
  | [p] => p
  | p :: rest => p +:+ sep +:+ join sep rest
  end.

(** [parts.filter(Boolean)] on strings: the non-empty ones. *)
Definition filterBoolean (parts : list string) : list string :=
  filter (fun p => isEmpty p = false) parts.

(** The replacement patterns a string replacement expands: [$$], [$&],
    [$`] and [$'] (a string pattern has no capture groups). *)
Fixpoint expandReplacement (rep matched before after : string) : string :=
  match rep with
  | EmptyString => EmptyString
  | String c rest =>
      if Ascii.eqb c "$" then
        match rest with
        | String d rest' =>
            if Ascii.eqb d "$" then
              String "$" (expandReplacement rest' matched before after)
            else if Ascii.eqb d "&" then
              matched +:+ expandReplacement rest' matched before after
            else if Ascii.eqb d "`" then
              before +:+ expandReplacement rest' matched before after
            else if Ascii.eqb d "'" then
              after +:+ expandReplacement rest' matched before after
            else String c (expandReplacement rest matched before after)
        | EmptyString => String c EmptyString
        end
      else String c (expandReplacement rest matched before after)
  end.

(** [whole.replaceAll(pat, rep)] for a non-empty string pattern, scanning
    the suffix [s] of [whole] that starts at [pos]; [skip] characters of
    a match just replaced are still to be passed over. *)
Fixpoint replaceAllFrom (whole pat rep : string) (pos skip : nat) (s : string) : string :=
  match s with
  | EmptyString => EmptyString
  | String c rest =>
      match skip with
      | S k => replaceAllFrom whole pat rep (S pos) k rest
      | O =>
          if String.prefix pat s then
            expandReplacement rep pat (take pos whole)
              (drop (pos + String.length pat) whole)
            +:+ replaceAllFrom whole pat rep (S pos) (String.length pat - 1) rest
          else String c (replaceAllFrom whole pat rep (S pos) 0 rest)
      end
  end.

Definition replaceAll (s pat rep : string) : string :=
  replaceAllFrom s pat rep 0 0 s.

End JsString.

Import JsString.

(** ** JavaScript values and completions *)

(** What [JSON.parse] produces, and [undefined]. *)
Inductive JsValue : Type :=
| JUndefined
| JNull
| JBool (b : bool)
| JNum (n : Z)
| JStr (s : string)
| JArr (items : list JsValue)
| JObj (fields : list (string * JsValue)).

(** A thrown value: an [Error] object with its message, or anything else
    with the text [String(error)] gives for it. *)
Inductive Thrown : Type :=
| ErrorObject (message : string)
| ThrownValue (text : string).

Inductive Completion (A : Type) : Type :=
| Returns (a : A)
| Throws (e : Thrown).

Arguments Returns {A} a.
Arguments Throws {A} e.

Definition isString (v : JsValue) : bool :=
  match v with JStr _ => true | _ => false end.

(** [typeof v === "object" && v !== null] *)
Definition isObject (v : JsValue) : bool :=
  match v with JArr _ | JObj _ => true | _ => false end.

Definition isUndefined (v : JsValue) : bool :=
  match v with JUndefined => true | _ => false end.

Definition isNullish (v : JsValue) : bool :=
  match v with JUndefined | JNull => true | _ => false end.

Definition truthy (v : JsValue) : bool :=
  match v with
  | JUndefined | JNull => false
  | JBool b => b
  | JNum n => negb (n =? 0)%Z
  | JStr s => negb (isEmpty s)
  | JArr _ | JObj _ => true
  end.

(** [a || b] and [a ?? b] *)
Definition orElse (a b : JsValue) : JsValue := if truthy a then a else b.
Definition coalesce (a b : JsValue) : JsValue := if isNullish a then b else a.

(** An object's own property; the first binding of a key is the
    property, and a key that is not bound reads [undefined]. *)
Fixpoint lookupField (fields : list (string * JsValue)) (key : string) : JsValue :=
  match fields with
  | [] => JUndefined
  | (k, v) :: rest => if String.eqb k key then v else lookupField rest key
  end.

(** [v.key] for a value that is neither [null] nor [undefined] and a key
    that is no built-in property: only objects have it. *)
Definition getProp (v : JsValue) (key : string) : JsValue :=
  match v with
  | JObj fields => lookupField fields key
  | _ => JUndefined
  end.

(** [JSON.stringify(v, null, 2)] of a value that is no string, array or
    object: [undefined] for [undefined] ([None] here). *)
Definition stringifyPrimitive (v : JsValue) : option string :=
  match v with
  | JUndefined => None
  | JNull => Some "null"
  | JBool true => Some "true"
  | JBool false => Some "false"
  | JNum n => Some (pretty n)
  | JStr _ | JArr _ | JObj _ => None
  end.

(** ** Shared types ([lib/types.ts]) *)

Inductive SourceType : Type := docs | github | stackoverflow | blog.

Definition SourceType_name (t : SourceType) : string :=
  match t with
  | docs => "docs"
  | github => "github"
  | stackoverflow => "stackoverflow"
  | blog => "blog"
  end.

Inductive PipelinePhase : Type :=
| PhaseIdle | PhaseDiscovering | PhaseScraping | PhaseSynthesizing
| PhaseComplete | PhaseError.

Record DiscoveredSource : Type := {
  src_id : string;
  src_type : SourceType;
  src_title : string;
  src_url : string;
  src_reason : string;
  src_query : string
}.

Record TinyFishRunResult : Type := {
  success : bool;
  result : JsValue;            (* [undefined] when the field is absent *)
  error : JsValue;             (* [undefined] when the field is absent *)
  streamingUrl : option string
}.

Record ApiReference : Type := {
  api_name : string;
  api_description : string;
  api_signature : option string
}.

Record PracticalExample : Type := {
  ex_title : string;
  ex_code : string;
  ex_explanation : option string;
  ex_language : option string
}.

Record CommonIssue : Type := { issue : string; issue_fix : string }.

Record ResourceLink : Type := {
  label : string;
  url : string;
  note : option string
}.

Record StructuredExtraction : Type := {
  overview : string;
  coreConcepts : list string;
  apis : list ApiReference;
  examples : list PracticalExample;
  commonIssues : list CommonIssue;
  bestPractices : list string;
  resources : list ResourceLink;
  rawText : string
}.

Record ScrapeSuccess : Type := {
  ok_source : DiscoveredSource;
  extracted : StructuredExtraction;
  wordCount : nat
}.

Record ScrapeFailure : Type := {
  err_source : DiscoveredSource;
  err_error : JsValue
}.

(** The [status] tag is the constructor. *)
Inductive ScrapeResult : Type :=
| StatusComplete (s : ScrapeSuccess)
| StatusError (f : ScrapeFailure).

Definition result_source (r : ScrapeResult) : DiscoveredSource :=
  match r with
  | StatusComplete s => ok_source s
  | StatusError f => err_source f
  end.

Record GuideBuildResult : Type := {
  markdown : string;
  sections : list string
}.

Record GenerationStats : Type := {
  sourceCount : nat;
  successCount : nat;
  generatedWords : nat
}.

Inductive SourceStatus : Type :=
| StatusPending | StatusScraping | StatusDone | StatusFailed.

Inductive StreamEvent : Type :=
| EvPhase (phase : PipelinePhase) (message : string)
| EvDiscoveryComplete (sources : list DiscoveredSource)
| EvSourceUpdate (sourceId : string) (status : SourceStatus) (step : JsValue)
    (streaming : option string)
| EvSourceComplete (sourceId : string) (words : nat)
| EvSourceError (sourceId : string) (err : JsValue)
| EvGuideChunk (chunk : string)
| EvComplete (guide : string) (sources : list DiscoveredSource) (stats : GenerationStats)
| EvError (message : string).

(** ** Extraction normalization and guide synthesis ([lib/guide-builder.ts]) *)

(** [s || fallback] on strings. *)
Definition orDefault (s fallback : string) : string :=
  if isEmpty s then fallback else s.

(** The truth value of an optional string field. *)
Definition present (field : option string) : bool :=
  match field with
  | Some s => negb (isEmpty s)
  | None => false
  end.

Definition stripCodeFence (input : string) : string :=
  let text := trim input in
  let text :=
    if startsWith text "```json" then sliceFrom 7 text
    else if startsWith text "```" then sliceFrom 3 text
    else text in
  let text := if endsWith text "```" then sliceDropLast 3 text else text in
  trim text.

Fixpoint firstString (values : list JsValue) : string :=
  match values with
  | [] => EmptyString
  | JStr value :: rest =>
      if (0 <? String.length (trim value))%nat then trim value
      else firstString rest
  | _ :: rest => firstString rest
  end.

(** The loop shared by [uniqueByLowerCase] and [uniqueResources]: [seen]
    is the [Set] of keys, [out] the array built so far; the loop stops as
    soon as [out] has [max] entries. *)
Fixpoint uniqueLoop {A : Type} (key : A -> string) (max : nat)
    (values : list A) (seen : gset string) (out : list A) : list A :=
  match values with
  | [] => out
  | value :: rest =>
      let fresh := negb (bool_decide (key value ∈ seen)) in
      let seen' := if fresh then {[ key value ]} ∪ seen else seen in
      let out' := if fresh then out ++ [value] else out in
      if (max <=? List.length out')%nat then out'
      else uniqueLoop key max rest seen' out'
  end.

Definition uniqueByLowerCase (values : list string) (max : nat) : list string :=
  uniqueLoop toLowerCase max values ∅ [].

Definition uniqueResources (values : list ResourceLink) (max : nat) : list ResourceLink :=
  uniqueLoop (fun value => toLowerCase (url value)) max values ∅ [].

Definition arrayEntries (input : JsValue) : list JsValue :=
  match input with
  | JArr entries => entries
  | _ => []
  end.

Definition toStringList (input : JsValue) : list string :=
  omap (fun entry =>
    match entry with
    | JStr s => if isEmpty (trim s) then None else Some (trim s)
    | _ =>
        if isObject entry then
          let candidate :=
            firstString [getProp entry "title"; getProp entry "name";
                         getProp entry "value"; getProp entry "text";
                         getProp entry "description"] in
          if isEmpty candidate then None else Some candidate
        else None
    end) (arrayEntries input).

Definition toApiList (input : JsValue) : list ApiReference :=
  omap (fun entry =>
    match entry with
    | JStr s =>
        if isEmpty (trim s) then None
        else Some {| api_name := trim s;
                     api_description := "Referenced API from source content.";
                     api_signature := None |}
    | _ =>
        if isObject entry then
          let name :=
            firstString [getProp entry "name"; getProp entry "method";
                         getProp entry "api"; getProp entry "function"] in
          let description :=
            firstString [getProp entry "description"; getProp entry "explanation";
                         getProp entry "purpose"; getProp entry "detail"] in
          if isEmpty name then None
          else Some {| api_name := name;
                       api_description :=
                         orDefault description "No description provided in source.";
                       api_signature :=
                         Some (firstString [getProp entry "signature";
                                            getProp entry "syntax";
                                            getProp entry "example"]) |}
        else None
    end) (arrayEntries input).

Definition toExampleList (input : JsValue) : list PracticalExample :=
  omap (fun entry =>
    match entry with
    | JStr s =>
        if isEmpty (trim s) then None
        else Some {| ex_title := "Example"; ex_code := trim s;
                     ex_explanation := None; ex_language := None |}
    | _ =>
        if isObject entry then
          let code :=
            firstString [getProp entry "code"; getProp entry "snippet";
                         getProp entry "example"; getProp entry "content"] in
          if isEmpty code then None
          else Some {| ex_title :=
                         orDefault (firstString [getProp entry "title";
                                                 getProp entry "name"]) "Example";
                       ex_code := code;
                       ex_explanation :=
                         Some (firstString [getProp entry "explanation";
                                            getProp entry "why";
                                            getProp entry "context";
                                            getProp entry "description"]);
                       ex_language :=
                         Some (firstString [getProp entry "language";
                                            getProp entry "lang"]) |}
        else None
    end) (arrayEntries input).

Definition toIssueList (input : JsValue) : list CommonIssue :=
  omap (fun entry =>
    match entry with
    | JStr s =>
        if isEmpty (trim s) then None
        else Some {| issue := trim s;
                     issue_fix := "Validate context and use the accepted solution from source discussions." |}
    | _ =>
        if isObject entry then
          let found :=
            firstString [getProp entry "issue"; getProp entry "problem";
                         getProp entry "title"; getProp entry "error";
                         getProp entry "mistake"] in
          if isEmpty found then None
          else Some {| issue := found;
                       issue_fix :=
                         orDefault
                           (firstString [getProp entry "fix"; getProp entry "solution";
                                         getProp entry "resolution";
                                         getProp entry "answer"])
                           "Review the thread for the accepted fix and adjust implementation details." |}
        else None
    end) (arrayEntries input).

Definition toResourceList (input : JsValue) : list ResourceLink :=
  omap (fun entry =>
    match entry with
    | JStr s =>
        if startsWith s "http" then Some {| label := s; url := s; note := None |}
        else None
    | _ =>
        if isObject entry then
          let link :=
            firstString [getProp entry "url"; getProp entry "link";
                         getProp entry "href"] in
          if startsWith link "http" then
            Some {| label :=
                      orDefault (firstString [getProp entry "label";
                                              getProp entry "title";
                                              getProp entry "name"]) link;
                    url := link;
                    note :=
                      Some (firstString [getProp entry "note"; getProp entry "reason";
                                         getProp entry "description"]) |}
          else None
        else None
    end) (arrayEntries input).

Definition deriveOverview (rawText : string) : string :=
  let text := trim (collapseWhiteSpace rawText) in
  if isEmpty text then
    "No high-level overview could be extracted from this source."
  else sliceTo 360 text.

Definition extractRawText (obj fallback : JsValue) : string :=
  firstString [getProp obj "rawText"; getProp obj "content"; getProp obj "body";
               getProp obj "markdown"; getProp obj "notes";
               match fallback with JStr s => JStr s | _ => JStr EmptyString end].

(** The link to the source the normalizer appends to the resources. *)
Definition sourceLink (source : DiscoveredSource) : ResourceLink :=
  {| label := src_title source; url := src_url source;
     note := Some (src_reason source) |}.

(** [text.trim().split(/\s+/).filter(Boolean).length] *)
Definition countWords (text : string) : nat :=
  List.length (filterBoolean (splitWhiteSpace (trim text))).

Section GuideBuilder.

(** [JSON.parse]: [None] when it throws a [SyntaxError]. *)
Variable JSON_parse : string -> option JsValue.

(** [new Date(iso).toLocaleString()], which depends on the host's locale
    and time zone. *)
Variable Date_toLocaleString : string -> string.

Definition parseMaybeObject (input : JsValue) : option JsValue :=
  if isObject input then Some input
  else
    match input with
    | JStr s =>
        match JSON_parse (stripCodeFence s) with
        | Some parsed => if isObject parsed then Some parsed else None
        | None => None
        end
    | _ => None
    end.

(** [deriveOverview(text)] reads [text.replace]: when [JSON.stringify]
    gave [undefined] that is a [TypeError]. *)
Definition normalizeExtraction (raw : JsValue) (source : DiscoveredSource)
    : Completion StructuredExtraction :=
  match parseMaybeObject raw with
  | None =>
      let text :=
        match raw with
        | JStr s => Some s
        | _ => stringifyPrimitive raw
        end in
      match text with
      | None =>
          Throws (ErrorObject
            "Cannot read properties of undefined (reading 'replace')")
      | Some text =>
          Returns
            {| overview := deriveOverview text;
               coreConcepts := [];
               apis := [];
               examples := [];
               commonIssues := [];
               bestPractices := [];
               resources := [sourceLink source];
               rawText := text |}
      end
  | Some parsed =>
      let rawText := extractRawText parsed raw in
      let overview :=
        firstString [getProp parsed "overview"; getProp parsed "summary";
                     getProp parsed "intro"] in
      Returns
        {| overview := orDefault overview (deriveOverview rawText);
           coreConcepts :=
             uniqueByLowerCase
               (toStringList (getProp parsed "coreConcepts")
                ++ toStringList (getProp parsed "keyPoints")) 20;
           apis :=
             toApiList (orElse (getProp parsed "apis")
                          (orElse (getProp parsed "apiMethods")
                             (getProp parsed "methods")));
           examples :=
             toExampleList (orElse (getProp parsed "examples")
                              (getProp parsed "codeExamples"));
           commonIssues :=
             toIssueList (orElse (getProp parsed "commonIssues")
                            (orElse (getProp parsed "issues")
                               (orElse (getProp parsed "gotchas")
                                  (getProp parsed "commonMistakes"))));
           bestPractices :=
             uniqueByLowerCase
               (toStringList (getProp parsed "bestPractices")
                ++ toStringList (getProp parsed "tips")) 20;
           resources :=
             uniqueResources
               (toResourceList (orElse (getProp parsed "resources")
                                  (getProp parsed "links"))
                ++ [sourceLink source]) 20;
           rawText := rawText |}
  end.

Definition formatDate (isoDate : string) : string := Date_toLocaleString isoDate.

Definition renderOverview (results : list ScrapeSuccess) : string :=
  let overviewLines :=
    uniqueByLowerCase
      (filterBoolean (map (fun item => overview (extracted item)) results)) 4 in
  if (List.length overviewLines =? 0)%nat then
    "No reliable overview was extracted from the selected sources."
  else join LF (map (fun line => "- " +:+ line) overviewLines).

Definition renderApiRow (row : ApiReference * string) : string :=
  let '(api, source) := row in
  "| " +:+ api_name api +:+ " | " +:+ api_description api
  +:+ " _(from " +:+ source +:+ ")_ | "
  +:+ (if present (api_signature api)
       then "`" +:+ default EmptyString (api_signature api) +:+ "`"
       else "n/a")
  +:+ " |" +:+ LF.

Definition renderCoreConcepts (results : list ScrapeSuccess) : string :=
  let concepts :=
    uniqueByLowerCase
      (flat_map (fun item => coreConcepts (extracted item)) results) 14 in
  let practices :=
    uniqueByLowerCase
      (flat_map (fun item => bestPractices (extracted item)) results) 10 in
  let apiRows :=
    flat_map (fun item =>
      map (fun api => (api, src_title (ok_source item))) (apis (extracted item)))
      results in
  let section :=
    if (0 <? List.length concepts)%nat then
      join LF (map (fun concept => "- " +:+ concept) concepts)
    else
      "- No explicit concept list found; review examples and resources for details." in
  let section :=
    if (0 <? List.length apiRows)%nat then
      section +:+ LF +:+ LF +:+ "### API Surface" +:+ LF +:+ LF
      +:+ "| API | Description | Signature |" +:+ LF
      +:+ "| --- | --- | --- |" +:+ LF
      +:+ String.concat EmptyString (map renderApiRow (List.firstn 14 apiRows))
    else section in
  if (0 <? List.length practices)%nat then
    section +:+ LF +:+ LF +:+ "### Best Practices" +:+ LF +:+ LF
    +:+ join LF (map (fun tip => "- " +:+ tip) practices)
  else section.

Definition renderExample (index : nat) (row : PracticalExample * string) : string :=
  let '(example, sourceTitle) := row in
  let language := orDefault (default EmptyString (ex_language example)) "text" in
  let explanation :=
    if present (ex_explanation example)
    then LF +:+ default EmptyString (ex_explanation example)
    else LF +:+ "Source included code without additional explanation." in
  "### Example " +:+ pretty (index + 1)%nat +:+ ": " +:+ ex_title example
  +:+ LF +:+ LF +:+ "```" +:+ language +:+ LF +:+ ex_code example +:+ LF
  +:+ "```" +:+ LF +:+ explanation +:+ LF +:+ LF
  +:+ "_Source: " +:+ sourceTitle +:+ "_".

Definition renderExamples (results : list ScrapeSuccess) : string :=
  let rows :=
    flat_map (fun item =>
      map (fun example => (example, src_title (ok_source item)))
        (examples (extracted item))) results in
  if (List.length rows =? 0)%nat then
    "No standalone code examples were extracted. Use the resources section to inspect original examples."
  else join (LF +:+ LF) (imap renderExample (List.firstn 8 rows)).

Definition renderGotchas (results : list ScrapeSuccess) : string :=
  let issues := flat_map (fun item => commonIssues (extracted item)) results in
  if (List.length issues =? 0)%nat then
    "- No explicit gotchas were extracted; check linked GitHub and Stack Overflow sources for troubleshooting context."
  else
    join LF
      (map (fun item =>
              "- **" +:+ issue item +:+ "**" +:+ LF +:+ "  - Fix: " +:+ issue_fix item)
         (List.firstn 12 issues)).

Definition renderResources (results : list ScrapeSuccess) : string :=
  let links :=
    uniqueResources (flat_map (fun item => resources (extracted item)) results) 40 in
  join LF
    (map (fun resource =>
            let trailing :=
              if present (note resource)
              then " - " +:+ default EmptyString (note resource)
              else EmptyString in
            "- [" +:+ label resource +:+ "](" +:+ url resource +:+ ")" +:+ trailing)
       links).

(** The header without its timestamp: what stands before and after the
    text [formatDate] gives. *)
Definition headerBeforeDate (topic : string) : string :=
  "# " +:+ topic +:+ " Skill Guide" +:+ LF +:+ LF +:+ "Generated: ".

Definition headerAfterDate (results : list ScrapeSuccess) : string :=
  LF +:+ "Sources scraped successfully: " +:+ pretty (List.length results) +:+ LF.

(** [generatedAt] is [new Date().toISOString()], the clock's reading when
    the guide is built. *)
Definition buildGuideMarkdown (generatedAt : string) (topic : string)
    (results : list ScrapeSuccess) : GuideBuildResult :=
  let header :=
    headerBeforeDate topic +:+ formatDate generatedAt +:+ headerAfterDate results in
  let sections :=
    [ header +:+ LF;
      "## Overview" +:+ LF +:+ LF +:+ renderOverview results +:+ LF;
      "## Core Concepts" +:+ LF +:+ LF +:+ renderCoreConcepts results +:+ LF;
      "## Practical Examples" +:+ LF +:+ LF +:+ renderExamples results +:+ LF;
      "## Common Gotchas" +:+ LF +:+ LF +:+ renderGotchas results +:+ LF;
      "## Resources" +:+ LF +:+ LF +:+ renderResources results +:+ LF ] in
  {| markdown := join LF sections; sections := sections |}.

End GuideBuilder.

(** ** Source discovery ([lib/source-discovery.ts]) *)

(** A result of the search provider. *)
Record SearchResult : Type := {
  sr_title : string;
  sr_url : string;
  sr_hostname : string;
  sr_description : string;
  sr_rawDescription : string
}.

Definition SOURCE_TYPES : list SourceType := [docs; github; stackoverflow; blog].

Definition SOURCE_QUERIES (type : SourceType) : list string :=
  match type with
  | docs =>
      [ "{topic} official documentation";
        "{topic} api reference docs";
        "{topic} developer guide documentation";
        "{topic} getting started guide" ]
  | github =>
      [ "{topic} site:github.com";
        "{topic} github issues";
        "{topic} github discussions";
        "{topic} github repository" ]
  | stackoverflow =>
      [ "{topic} site:stackoverflow.com";
        "{topic} stackoverflow how to";
        "{topic} stackoverflow error";
        "{topic} stackoverflow best practice" ]
  | blog =>
      [ "{topic} tutorial blog";
        "{topic} best practices guide";
        "{topic} tutorial dev.to OR medium.com OR hashnode";
        "{topic} deep dive explained" ]
  end.

Definition KNOWN_BLOG_DOMAINS : list string :=
  [ "dev.to"; "medium.com"; "hashnode.com"; "freecodecamp.org";
    "digitalocean.com"; "smashingmagazine.com"; "css-tricks.com";
    "martinfowler.com"; "substack.com" ].

(** The length of the match of [[^>]+>] at the start of [s], counted
    from 1 for a [>] that stands first (which is no match). *)
Fixpoint tagBody (s : string) : option nat :=
  match s with
  | EmptyString => None
  | String c rest =>
      if Ascii.eqb c ">" then Some 1%nat
      else option_map S (tagBody rest)
  end.

(** [s.replace(/<[^>]+>/g, "")]; [skip] characters of a tag are still to
    be dropped. *)
Fixpoint stripTags (skip : nat) (s : string) : string :=
  match s with
  | EmptyString => EmptyString
  | String c rest =>
      match skip with
      | S k => stripTags k rest
      | O =>
          if Ascii.eqb c "<" then
            match tagBody rest with
            | Some n =>
                if (2 <=? n)%nat then stripTags n rest
                else String c (stripTags 0 rest)
            | None => String c (stripTags 0 rest)
            end
          else String c (stripTags 0 rest)
      end
  end.

Definition cleanSnippet (value : string) : string :=
  trim (collapseWhiteSpace (stripTags 0 value)).

Definition tokenizeTopic (topic : string) : list string :=
  filter (fun token => (2 < String.length token)%nat)
    (map trim
       (splitRuns
          (fun c => isWhiteSpace c || Ascii.eqb c "/" || Ascii.eqb c "-")
          false (toLowerCase topic))).

Definition hasAny (value : string) (needles : list string) : bool :=
  existsb (fun needle => includes value needle) needles.

Definition isDocsResult (r : SearchResult) : bool :=
  let hostname := toLowerCase (sr_hostname r) in
  let url := toLowerCase (sr_url r) in
  let docsHints :=
    [ "docs."; "developer."; "readthedocs"; "/docs"; "/api"; "/reference";
      "/manual"; "/guide"; "/learn"; "/getting-started"; "wiki" ] in
  if includes hostname "github.com" || includes hostname "stackoverflow.com"
  then false
  else if hasAny hostname KNOWN_BLOG_DOMAINS || includes hostname "blog."
  then false
  else hasAny hostname docsHints || hasAny url docsHints.

Definition isGithubResult (r : SearchResult) : bool :=
  includes (toLowerCase (sr_hostname r)) "github.com".

Definition isStackOverflowResult (r : SearchResult) : bool :=
  let hostname := toLowerCase (sr_hostname r) in
  includes hostname "stackoverflow.com" || includes hostname "stackexchange.com".

Definition isBlogResult (r : SearchResult) : bool :=
  let hostname := toLowerCase (sr_hostname r) in
  let url := toLowerCase (sr_url r) in
  if includes hostname "github.com" || includes hostname "stackoverflow.com"
  then false
  else
    hasAny hostname KNOWN_BLOG_DOMAINS
    || includes hostname "blog."
    || includes url "/blog/"
    || includes url "/tutorial"
    || includes url "/guide"
    || includes url "/post/"
    || includes url "/article".

Definition matchesType (r : SearchResult) (type : SourceType) : bool :=
  match type with
  | docs => isDocsResult r
  | github => isGithubResult r
  | stackoverflow => isStackOverflowResult r
  | blog => isBlogResult r
  end.

Definition bonus (condition : bool) (points : nat) : nat :=
  if condition then points else 0%nat.

Definition scoreResult (r : SearchResult) (type : SourceType)
    (topicTokens : list string) : nat :=
  let title := toLowerCase (sr_title r) in
  let description := toLowerCase (sr_rawDescription r) in
  let url := toLowerCase (sr_url r) in
  let score :=
    fold_left (fun score token =>
      score + bonus (includes title token) 2
      + bonus (includes description token) 1
      + bonus (includes url token) 1)%nat topicTokens 0%nat in
  (score +
   match type with
   | docs => bonus (includes url "/docs") 2 + bonus (includes url "/reference") 2
   | github =>
       bonus (includes url "/discussions") 2 + bonus (includes url "/issues") 2
       + bonus (includes url "/wiki") 1
   | stackoverflow => bonus (includes url "/questions/") 3
   | blog => bonus (includes url "/tutorial") 2 + bonus (includes url "/guide") 1
   end)%nat.

(** [entries.sort((left, right) => right.score - left.score)]: a stable
    sort by descending score. *)
Fixpoint insertByScore {A : Type} (entry : A * nat) (sorted : list (A * nat))
    : list (A * nat) :=
  match sorted with
  | [] => [entry]
  | other :: rest =>
      if (snd entry <? snd other)%nat then other :: insertByScore entry rest
      else entry :: sorted
  end.

Definition sortByScore {A : Type} (entries : list (A * nat)) : list (A * nat) :=
  foldr insertByScore [] entries.

Section SourceDiscovery.

(** The search provider: the results for a query, [None] when the call
    throws. *)
Variable search : string -> option (list SearchResult).

(** [new URL(url)] with its fragment cleared, serialized; [None] when the
    text is no URL and the constructor throws. *)
Variable URL_withoutHash : string -> option string.

(** [encodeURIComponent(text)]: the encoded text, or what the call
    throws (a [URIError], for a text that holds a lone surrogate). *)
Variable encodeURIComponent : string -> Completion string.

Definition normalizeUrl (url : string) : string :=
  match URL_withoutHash url with
  | Some normalized =>
      if endsWith normalized "/" then sliceDropLast 1 normalized else normalized
  | None => url
  end.

Definition createSourceId (type : SourceType) (url : string) (index : nat) : string :=
  let compact :=
    sliceLast 14
      (filterChars (fun c => isLower c || isUpper c || isDigit c) (normalizeUrl url)) in
  SourceType_name type +:+ "-" +:+ pretty index +:+ "-" +:+ compact.

(** The sources [defaultFallbacks] lists once [encoded] is there. *)
Definition fallbackSources (encoded topic : string) (type : SourceType)
    : list DiscoveredSource :=
  let make (url title : string) (i : nat) : DiscoveredSource :=
    {| src_id := createSourceId type url i;
       src_type := type;
       src_title := title;
       src_url := url;
       src_reason :=
         "Fallback " +:+ SourceType_name type +:+ " source for " +:+ topic +:+ ".";
       src_query := topic +:+ " " +:+ SourceType_name type |} in
  match type with
  | docs =>
      [ make ("https://www.google.com/search?q=" +:+ encoded +:+ "+official+documentation")
          (topic +:+ " documentation search") 0%nat;
        make ("https://www.google.com/search?q=" +:+ encoded +:+ "+api+reference+docs")
          (topic +:+ " API reference") 1%nat;
        make ("https://www.google.com/search?q=" +:+ encoded +:+ "+getting+started+guide")
          (topic +:+ " getting started") 2%nat ]
  | github =>
      [ make ("https://github.com/search?q=" +:+ encoded +:+ "&type=repositories")
          (topic +:+ " GitHub repos") 0%nat;
        make ("https://github.com/search?q=" +:+ encoded +:+ "&type=discussions")
          (topic +:+ " GitHub discussions") 1%nat;
        make ("https://github.com/search?q=" +:+ encoded +:+ "&type=issues")
          (topic +:+ " GitHub issues") 2%nat ]
  | stackoverflow =>
      [ make ("https://stackoverflow.com/search?q=" +:+ encoded)
          (topic +:+ " Stack Overflow search") 0%nat;
        make ("https://stackoverflow.com/search?q=" +:+ encoded +:+ "+error")
          (topic +:+ " SO common errors") 1%nat;
        make ("https://stackoverflow.com/search?q=" +:+ encoded +:+ "+best+practice")
          (topic +:+ " SO best practices") 2%nat ]
  | blog =>
      [ make ("https://dev.to/search?q=" +:+ encoded)
          (topic +:+ " dev.to articles") 0%nat;
        make ("https://medium.com/search?q=" +:+ encoded)
          (topic +:+ " Medium articles") 1%nat;
        make ("https://www.google.com/search?q=" +:+ encoded +:+ "+tutorial+blog")
          (topic +:+ " tutorial search") 2%nat ]
  end.

(** [const encoded = encodeURIComponent(topic)] stands outside every
    [try]: what the call throws, [defaultFallbacks] throws. *)
Definition defaultFallbacks (topic : string) (type : SourceType)
    : Completion (list DiscoveredSource) :=
  match encodeURIComponent topic with
  | Throws e => Throws e
  | Returns encoded => Returns (fallbackSources encoded topic type)
  end.

(** The state of [discoverByType]'s loops: the [selected] array, the
    [seen] set, and whether the function has returned from inside the
    loop. *)
Record Selection : Type := {
  sel_returned : bool;
  sel_selected : list DiscoveredSource;
  sel_seen : gset string
}.

(** [for (const entry of ranked) { ... }] *)
Fixpoint selectRanked (type : SourceType) (maxPerType : nat) (query : string)
    (ranked : list (SearchResult * nat))
    (selected : list DiscoveredSource) (seen : gset string) : Selection :=
  match ranked with
  | [] => {| sel_returned := false; sel_selected := selected; sel_seen := seen |}
  | entry :: rest =>
      let normalizedUrl := normalizeUrl (sr_url (fst entry)) in
      if bool_decide (normalizedUrl ∈ seen) then
        selectRanked type maxPerType query rest selected seen
      else
        let seen' := {[ normalizedUrl ]} ∪ seen in
        let selected' :=
          selected ++
          [ {| src_id := createSourceId type normalizedUrl (List.length selected);
               src_type := type;
               src_title := trim (sr_title (fst entry));
               src_url := normalizedUrl;
               src_reason :=
                 cleanSnippet (orDefault (sr_description (fst entry))
                                 (sr_rawDescription (fst entry)));
               src_query := query |} ] in
        if (maxPerType <=? List.length selected')%nat then
          {| sel_returned := true; sel_selected := selected'; sel_seen := seen' |}
        else selectRanked type maxPerType query rest selected' seen'
  end.

(** [for (const query of queries) { try { ... } catch { continue; } }];
    [rank] turns a response's results into the ranked entries. *)
Fixpoint selectFromQueries (rank : list SearchResult -> list (SearchResult * nat))
    (type : SourceType) (maxPerType : nat) (queries : list string)
    (selected : list DiscoveredSource) (seen : gset string) : Selection :=
  match queries with
  | [] => {| sel_returned := false; sel_selected := selected; sel_seen := seen |}
  | query :: rest =>
      match search query with
      | None => selectFromQueries rank type maxPerType rest selected seen
      | Some results =>
          let after := selectRanked type maxPerType query (rank results) selected seen in
          if sel_returned after then after
          else selectFromQueries rank type maxPerType rest
                 (sel_selected after) (sel_seen after)
      end
  end.

(** [for (const fallback of fallbacks) { ... }] *)
Fixpoint addFallbacks (maxPerType : nat) (fallbacks : list DiscoveredSource)
    (seen : gset string) (selected : list DiscoveredSource) : list DiscoveredSource :=
  match fallbacks with
  | [] => selected
  | fallback :: rest =>
      let selected' :=
        if bool_decide (src_url fallback ∈ seen) then selected
        else selected ++ [fallback] in
      if (maxPerType <=? List.length selected')%nat then selected'
      else addFallbacks maxPerType rest seen selected'
  end.

(** What follows the query loop.  [fallbacks] is what the call of the
    fallback generator comes to; the call is made only when fewer than
    [maxPerType] sources are selected, and what it throws is thrown on. *)
Definition finishSelection (maxPerType : nat)
    (fallbacks : Completion (list DiscoveredSource)) (after : Selection)
    : Completion (list DiscoveredSource) :=
  if sel_returned after then Returns (sel_selected after)
  else if (List.length (sel_selected after) <? maxPerType)%nat then
    match fallbacks with
    | Throws e => Throws e
    | Returns fallbacks =>
        Returns
          (List.firstn maxPerType
             (addFallbacks maxPerType fallbacks (sel_seen after) (sel_selected after)))
    end
  else Returns (List.firstn maxPerType (sel_selected after)).

Definition rankResults (type : SourceType) (topicTokens : list string)
    (results : list SearchResult) : list (SearchResult * nat) :=
  sortByScore
    (map (fun r => (r, (scoreResult r type topicTokens + 1)%nat))
       (filter (fun r => matchesType r type = true) results)).

Definition discoverByType (topic : string) (type : SourceType) (maxPerType : nat)
    : Completion (list DiscoveredSource) :=
  let topicTokens := tokenizeTopic topic in
  let queries :=
    map (fun template => replaceAll template "{topic}" topic) (SOURCE_QUERIES type) in
  finishSelection maxPerType (defaultFallbacks topic type)
    (selectFromQueries (rankResults type topicTokens) type maxPerType queries [] ∅).

(** The [Map] from URL to source: its entries in insertion order. *)
Fixpoint dedupeByUrl (flattened : list DiscoveredSource)
    (deduped : list (string * DiscoveredSource)) : list (string * DiscoveredSource) :=
  match flattened with
  | [] => deduped
  | source :: rest =>
      if existsb (fun entry => String.eqb (fst entry) (src_url source)) deduped
      then dedupeByUrl rest deduped
      else dedupeByUrl rest (deduped ++ [(src_url source, source)])
  end.

(** [await Promise.all(promises)] for calls that send no event: the
    values in the order of the calls when every call returns, and the
    rejection of a call that throws.  (In [discoverSources] every call
    that throws throws what [encodeURIComponent(topic)] does, so which
    of them rejects first makes no difference.) *)
Fixpoint allFulfilled {A : Type} (outcomes : list (Completion A))
    : Completion (list A) :=
  match outcomes with
  | [] => Returns []
  | Throws e :: _ => Throws e
  | Returns a :: rest =>
      match allFulfilled rest with
      | Throws e => Throws e
      | Returns values => Returns (a :: values)
      end
  end.

Definition discoverSources (topic : string) (maxPerType : nat)
    : Completion (list DiscoveredSource) :=
  let limit := Nat.max 1 (Nat.min maxPerType 3) in
  match allFulfilled (map (fun type => discoverByType topic type limit) SOURCE_TYPES) with
  | Throws e => Throws e
  | Returns results =>
      let flattened := List.concat results in
      Returns (map snd (dedupeByUrl flattened []))
  end.

(** *** The earlier revision of the module ([src/unnamed/part_000])

    Its loops are the ones above; the query templates, the
    classification of results, the ranking (results that score zero are
    dropped) and the fallbacks (one per type) differ. *)

Definition SOURCE_QUERIES_part0 (type : SourceType) : list string :=
  match type with
  | docs => [ "{topic} official documentation"; "{topic} api reference" ]
  | github => [ "{topic} github discussions"; "{topic} github issues" ]
  | stackoverflow =>
      [ "{topic} stack overflow"; "{topic} stackoverflow common error" ]
  | blog => [ "{topic} tutorial blog"; "{topic} best practices guide" ]
  end.

Definition isDocsResult_part0 (r : SearchResult) : bool :=
  let hostname := toLowerCase (sr_hostname r) in
  let url := toLowerCase (sr_url r) in
  let docsHints :=
    [ "docs."; "developer."; "readthedocs"; "/docs"; "/api"; "/reference" ] in
  if includes hostname "github.com" || includes hostname "stackoverflow.com"
  then false
  else hasAny hostname docsHints || hasAny url docsHints.

Definition isStackOverflowResult_part0 (r : SearchResult) : bool :=
  let hostname := toLowerCase (sr_hostname r) in
  let url := toLowerCase (sr_url r) in
  includes hostname "stackoverflow.com" && includes url "/questions/".

Definition isBlogResult_part0 (r : SearchResult) : bool :=
  let hostname := toLowerCase (sr_hostname r) in
  let url := toLowerCase (sr_url r) in
  if includes hostname "github.com" || includes hostname "stackoverflow.com"
  then false
  else if isDocsResult_part0 r then false
  else
    hasAny hostname KNOWN_BLOG_DOMAINS
    || includes hostname "blog."
    || includes url "/blog/"
    || includes url "/tutorial".

Definition matchesType_part0 (r : SearchResult) (type : SourceType) : bool :=
  match type with
  | docs => isDocsResult_part0 r
  | github => isGithubResult r
  | stackoverflow => isStackOverflowResult_part0 r
  | blog => isBlogResult_part0 r
  end.

Definition fallbackSources_part0 (encoded topic : string) (type : SourceType)
    : list DiscoveredSource :=
  match type with
  | docs =>
      [ {| src_id :=
             createSourceId type
               ("https://duckduckgo.com/?q=" +:+ encoded +:+ "+official+docs") 0;
           src_type := type;
           src_title := topic +:+ " documentation search";
           src_url := "https://duckduckgo.com/?q=" +:+ encoded +:+ "+official+docs";
           src_reason := "Fallback search page for official documentation.";
           src_query := topic +:+ " official docs" |} ]
  | github =>
      [ {| src_id :=
             createSourceId type
               ("https://github.com/search?q=" +:+ encoded +:+ "&type=discussions") 0;
           src_type := type;
           src_title := topic +:+ " GitHub discussions";
           src_url := "https://github.com/search?q=" +:+ encoded +:+ "&type=discussions";
           src_reason := "Fallback GitHub discovery page.";
           src_query := topic +:+ " github discussions" |} ]
  | stackoverflow =>
      [ {| src_id :=
             createSourceId type ("https://stackoverflow.com/search?q=" +:+ encoded) 0;
           src_type := type;
           src_title := topic +:+ " Stack Overflow search";
           src_url := "https://stackoverflow.com/search?q=" +:+ encoded;
           src_reason := "Fallback Stack Overflow discovery page.";
           src_query := topic +:+ " stack overflow" |} ]
  | blog =>
      [ {| src_id :=
             createSourceId type
               ("https://duckduckgo.com/?q=" +:+ encoded +:+ "+blog+tutorial") 0;
           src_type := type;
           src_title := topic +:+ " technical blog search";
           src_url := "https://duckduckgo.com/?q=" +:+ encoded +:+ "+blog+tutorial";
           src_reason := "Fallback search page for blog tutorials.";
           src_query := topic +:+ " tutorial blog" |} ]
  end.

Definition defaultFallbacks_part0 (topic : string) (type : SourceType)
    : Completion (list DiscoveredSource) :=
  match encodeURIComponent topic with
  | Throws e => Throws e
  | Returns encoded => Returns (fallbackSources_part0 encoded topic type)
  end.

Definition rankResults_part0 (type : SourceType) (topicTokens : list string)
    (results : list SearchResult) : list (SearchResult * nat) :=
  sortByScore
    (filter (fun entry => (0 < snd entry)%nat)
       (map (fun r => (r, scoreResult r type topicTokens))
          (filter (fun r => matchesType_part0 r type = true) results))).

Definition discoverByType_part0 (topic : string) (type : SourceType)
    (maxPerType : nat) : Completion (list DiscoveredSource) :=
  let topicTokens := tokenizeTopic topic in
  let queries :=
    map (fun template => replaceAll template "{topic}" topic)
      (SOURCE_QUERIES_part0 type) in
  finishSelection maxPerType (defaultFallbacks_part0 topic type)
    (selectFromQueries (rankResults_part0 type topicTokens) type maxPerType
       queries [] ∅).


End SourceDiscovery.

(** ** The agent client ([lib/tinyfish.ts]) *)

Record TinyFishTaskRequest : Type := {
  req_url : string;
  req_goal : string;
  req_browser_profile : option string
}.

(** What [fetch] and the reads of the response body come to: the call
    rejects; a status that is not ok, with what [response.text()] comes
    to; a response without a body; or a body whose decoded chunks arrive
    in order until the stream is done or a read rejects. *)
Inductive FetchOutcome : Type :=
| FetchRejects (e : Thrown)
| FetchNotOk (status : nat) (text : Completion string)
| FetchNoBody
| FetchBody (chunks : list string) (readFailure : option Thrown).

(** A call of one of the callbacks [runTinyFishTask] is given. *)
Inductive CallbackCall : Type :=
| OnStep (message : JsValue)
| OnStreamingUrl (url : string).

(** [error instanceof Error ? error.message : String(error)] *)
Definition errorText (e : Thrown) : string :=
  match e with
  | ErrorObject message => message
  | ThrownValue text => text
  end.

Definition readStepMessage (event : JsValue) : JsValue :=
  orElse (getProp event "purpose")
    (orElse (getProp event "action")
       (orElse (getProp event "message")
          (orElse (getProp event "step")
             (orElse (getProp event "description")
                (orElse (getProp event "text")
                   (orElse (getProp event "content")
                      (JStr "Processing source..."))))))).

Definition readStreamingUrl (event : JsValue) : option string :=
  match getProp event "streamingUrl" with
  | JStr s =>
      if (0 <? String.length s)%nat then Some s
      else
        match getProp event "url" with
        | JStr maybeUrl => if startsWith maybeUrl "http" then Some maybeUrl else None
        | _ => None
        end
  | _ =>
      match getProp event "url" with
      | JStr maybeUrl => if startsWith maybeUrl "http" then Some maybeUrl else None
      | _ => None
      end
  end.

(** [event.field?.toUpperCase()]: [undefined] ([None]) for a field that
    is [null] or [undefined], a [TypeError] for one that is no string. *)
Definition upperField (event : JsValue) (field : string) : Completion (option string) :=
  match getProp event field with
  | JUndefined | JNull => Returns None
  | JStr s => Returns (Some (toUpperCase s))
  | _ =>
      Throws (ErrorObject ("event." +:+ field +:+ "?.toUpperCase is not a function"))
  end.

Definition isText (value : option string) (text : string) : bool :=
  match value with
  | Some s => String.eqb s text
  | None => false
  end.

Definition isComplete (event : JsValue) : Completion bool :=
  match upperField event "type" with
  | Throws e => Throws e
  | Returns type =>
      match upperField event "status" with
      | Throws e => Throws e
      | Returns status =>
          Returns
            (isText type "COMPLETE"
             && (negb (present status) || isText status "COMPLETED"
                 || isText status "DONE"))
      end
  end.

Definition isFailure (event : JsValue) : Completion bool :=
  match upperField event "type" with
  | Throws e => Throws e
  | Returns type =>
      match upperField event "status" with
      | Throws e => Throws e
      | Returns status =>
          Returns
            (isText type "ERROR" || isText status "FAILED" || isText status "ERROR")
      end
  end.

(** The result of the [catch] clause of [runTinyFishTask]. *)
Definition caught (e : Thrown) (streamingUrl : option string) : TinyFishRunResult :=
  {| success := false; result := JUndefined; error := JStr (errorText e);
     streamingUrl := streamingUrl |}.

Definition sourceInstructions (sourceType : SourceType) : string :=
  match sourceType with
  | docs =>
      "Focus on APIs, method signatures, key architecture details, and official recommendations."
  | github =>
      "Focus on real developer pain points, issue resolution patterns, and practical workaround snippets."
  | stackoverflow =>
      "Focus on question/answer patterns, accepted fixes, and recurring debugging techniques."
  | blog =>
      "Focus on practical implementation examples, lessons learned, and actionable best practices."
  end.

Definition buildExtractionGoal (topic : string) (sourceType : SourceType) : string :=
  "You are extracting technical learning material for the topic " +:+ DQUOTE +:+ topic +:+ DQUOTE +:+ "." +:+ LF
  +:+ LF
  +:+ "SOURCE TYPE: " +:+ SourceType_name sourceType +:+ LF
  +:+ sourceInstructions sourceType +:+ LF
  +:+ LF
  +:+ "TASK:" +:+ LF
  +:+ "Read this page and extract structured JSON covering core ideas and practical usage." +:+ LF
  +:+ LF
  +:+ "Return ONLY valid JSON with this schema:" +:+ LF
  +:+ "{" +:+ LF
  +:+ "  " +:+ DQUOTE +:+ "overview" +:+ DQUOTE +:+ ": " +:+ DQUOTE +:+ "2-4 sentence summary of what this page teaches about " +:+ topic +:+ DQUOTE +:+ "," +:+ LF
  +:+ "  " +:+ DQUOTE +:+ "coreConcepts" +:+ DQUOTE +:+ ": [" +:+ DQUOTE +:+ "concept 1" +:+ DQUOTE +:+ ", " +:+ DQUOTE +:+ "concept 2" +:+ DQUOTE +:+ "]," +:+ LF
  +:+ "  " +:+ DQUOTE +:+ "apis" +:+ DQUOTE +:+ ": [" +:+ LF
  +:+ "    {" +:+ LF
  +:+ "      " +:+ DQUOTE +:+ "name" +:+ DQUOTE +:+ ": " +:+ DQUOTE +:+ "API or method name" +:+ DQUOTE +:+ "," +:+ LF
  +:+ "      " +:+ DQUOTE +:+ "description" +:+ DQUOTE +:+ ": " +:+ DQUOTE +:+ "What it does" +:+ DQUOTE +:+ "," +:+ LF
  +:+ "      " +:+ DQUOTE +:+ "signature" +:+ DQUOTE +:+ ": " +:+ DQUOTE +:+ "function signature or call shape if available" +:+ DQUOTE +:+ LF
  +:+ "    }" +:+ LF
  +:+ "  ]," +:+ LF
  +:+ "  " +:+ DQUOTE +:+ "examples" +:+ DQUOTE +:+ ": [" +:+ LF
  +:+ "    {" +:+ LF
  +:+ "      " +:+ DQUOTE +:+ "title" +:+ DQUOTE +:+ ": " +:+ DQUOTE +:+ "Example title" +:+ DQUOTE +:+ "," +:+ LF
  +:+ "      " +:+ DQUOTE +:+ "code" +:+ DQUOTE +:+ ": " +:+ DQUOTE +:+ "copyable code example" +:+ DQUOTE +:+ "," +:+ LF
  +:+ "      " +:+ DQUOTE +:+ "explanation" +:+ DQUOTE +:+ ": " +:+ DQUOTE +:+ "why it matters" +:+ DQUOTE +:+ "," +:+ LF
  +:+ "      " +:+ DQUOTE +:+ "language" +:+ DQUOTE +:+ ": " +:+ DQUOTE +:+ "js/ts/python/etc if known" +:+ DQUOTE +:+ LF
  +:+ "    }" +:+ LF
  +:+ "  ]," +:+ LF
  +:+ "  " +:+ DQUOTE +:+ "commonIssues" +:+ DQUOTE +:+ ": [" +:+ LF
  +:+ "    {" +:+ LF
  +:+ "      " +:+ DQUOTE +:+ "issue" +:+ DQUOTE +:+ ": " +:+ DQUOTE +:+ "Common error or gotcha" +:+ DQUOTE +:+ "," +:+ LF
  +:+ "      " +:+ DQUOTE +:+ "fix" +:+ DQUOTE +:+ ": " +:+ DQUOTE +:+ "How to solve or avoid it" +:+ DQUOTE +:+ LF
  +:+ "    }" +:+ LF
  +:+ "  ]," +:+ LF
  +:+ "  " +:+ DQUOTE +:+ "bestPractices" +:+ DQUOTE +:+ ": [" +:+ DQUOTE +:+ "best practice 1" +:+ DQUOTE +:+ ", " +:+ DQUOTE +:+ "best practice 2" +:+ DQUOTE +:+ "]," +:+ LF
  +:+ "  " +:+ DQUOTE +:+ "resources" +:+ DQUOTE +:+ ": [" +:+ LF
  +:+ "    {" +:+ LF
  +:+ "      " +:+ DQUOTE +:+ "label" +:+ DQUOTE +:+ ": " +:+ DQUOTE +:+ "resource name" +:+ DQUOTE +:+ "," +:+ LF
  +:+ "      " +:+ DQUOTE +:+ "url" +:+ DQUOTE +:+ ": " +:+ DQUOTE +:+ "absolute URL" +:+ DQUOTE +:+ "," +:+ LF
  +:+ "      " +:+ DQUOTE +:+ "note" +:+ DQUOTE +:+ ": " +:+ DQUOTE +:+ "why this is useful" +:+ DQUOTE +:+ LF
  +:+ "    }" +:+ LF
  +:+ "  ]," +:+ LF
  +:+ "  " +:+ DQUOTE +:+ "rawText" +:+ DQUOTE +:+ ": " +:+ DQUOTE +:+ "Optional concise markdown notes from the page" +:+ DQUOTE +:+ LF
  +:+ "}" +:+ LF
  +:+ LF
  +:+ "Rules:" +:+ LF
  +:+ "- If a field is unavailable, return an empty array or empty string." +:+ LF
  +:+ "- Do not include markdown code fences." +:+ LF
  +:+ "- Keep entries concise but specific." +:+ LF
  +:+ "- Ensure returned JSON is parseable.".

Section TinyFish.

Variable JSON_parse : string -> option JsValue.

(** The HTTP exchange with the agent for a request and an API key. *)
Variable fetch : TinyFishTaskRequest -> string -> FetchOutcome.

Definition parseSseLine (line : string) : option JsValue :=
  if negb (startsWith line "data:") then None
  else
    let payload := trim (sliceFrom 5 line) in
    if isEmpty payload || String.eqb payload "[DONE]" then None
    else JSON_parse payload.

(** The state of the read loop: the last streaming URL seen and the
    callback calls made so far. *)
Record TaskState : Type := {
  ts_streamingUrl : option string;
  ts_calls : list CallbackCall
}.

(** The body of [for (const line of lines)] for one line: [None] to go
    on with the next line, or the value the function returns (the
    [catch] clause's for a [TypeError]). *)
Definition processLine (line : string) (st : TaskState)
    : TaskState * option TinyFishRunResult :=
  match parseSseLine line with
  | None => (st, None)
  | Some event =>
      if negb (truthy event) then (st, None)
      else
        let st :=
          match readStreamingUrl event with
          | Some maybeStreamingUrl =>
              if isEmpty maybeStreamingUrl then st
              else {| ts_streamingUrl := Some maybeStreamingUrl;
                      ts_calls := ts_calls st ++ [OnStreamingUrl maybeStreamingUrl] |}
          | None => st
          end in
        match upperField event "type" with
        | Throws e => (st, Some (caught e (ts_streamingUrl st)))
        | Returns type =>
            let st :=
              if isText type "STEP" then
                {| ts_streamingUrl := ts_streamingUrl st;
                   ts_calls := ts_calls st ++ [OnStep (readStepMessage event)] |}
              else st in
            match isComplete event with
            | Throws e => (st, Some (caught e (ts_streamingUrl st)))
            | Returns true =>
                (st,
                 Some {| success := true;
                         result :=
                           coalesce (getProp event "resultJson")
                             (coalesce (getProp event "result")
                                (coalesce (getProp event "output")
                                   (coalesce (getProp event "data") JNull)));
                         error := JUndefined;
                         streamingUrl := ts_streamingUrl st |})
            | Returns false =>
                match isFailure event with
                | Throws e => (st, Some (caught e (ts_streamingUrl st)))
                | Returns true =>
                    (st,
                     Some {| success := false;
                             result := JUndefined;
                             error :=
                               orElse (getProp event "message")
                                 (JStr "TinyFish reported a failure event.");
                             streamingUrl := ts_streamingUrl st |})
                | Returns false => (st, None)
                end
            end
        end
  end.

Fixpoint processLines (lines : list string) (st : TaskState)
    : TaskState * option TinyFishRunResult :=
  match lines with
  | [] => (st, None)
  | line :: rest =>
      match processLine line st with
      | (st', Some r) => (st', Some r)
      | (st', None) => processLines rest st'
      end
  end.

(** [while (true) { read; decode; split; ... }]: [buffer] holds the
    unfinished last line. *)
Fixpoint readLoop (chunks : list string) (readFailure : option Thrown)
    (buffer : string) (st : TaskState) : TaskState * TinyFishRunResult :=
  match chunks with
  | [] =>
      match readFailure with
      | Some e => (st, caught e (ts_streamingUrl st))
      | None =>
          (st,
           {| success := false; result := JUndefined;
              error := JStr "TinyFish stream ended before a completion event.";
              streamingUrl := ts_streamingUrl st |})
      end
  | value :: rest =>
      let lines := splitChar (ascii_of_nat 10) (buffer +:+ value) in
      let buffer' := List.last lines EmptyString in
      match processLines (List.removelast lines) st with
      | (st', Some r) => (st', r)
      | (st', None) => readLoop rest readFailure buffer' st'
      end
  end.

(** The callback calls made, in order, and the value returned. *)
Definition runTinyFishTask (request : TinyFishTaskRequest) (apiKey : string)
    : list CallbackCall * TinyFishRunResult :=
  match fetch request apiKey with
  | FetchRejects e => ([], caught e None)
  | FetchNotOk status (Throws e) => ([], caught e None)
  | FetchNotOk status (Returns text) =>
      ([],
       {| success := false; result := JUndefined;
          error :=
            JStr ("TinyFish request failed (" +:+ pretty status +:+ "): " +:+ text);
          streamingUrl := None |})
  | FetchNoBody =>
      ([],
       {| success := false; result := JUndefined;
          error := JStr "TinyFish response body was empty.";
          streamingUrl := None |})
  | FetchBody chunks readFailure =>
      let '(st, r) :=
        readLoop chunks readFailure EmptyString
          {| ts_streamingUrl := None; ts_calls := [] |} in
      (ts_calls st, r)
  end.

End TinyFish.

(** ** The streaming endpoint ([app/api/generate-guide/route.ts])

    The run is a computation over the sequence of events handed to
    [sendEvent], and it may throw. *)

Definition Run (A : Type) : Type :=
  list StreamEvent -> list StreamEvent * Completion A.

Definition ret {A : Type} (a : A) : Run A := fun log => (log, Returns a).

Definition bind {A B : Type} (m : Run A) (k : A -> Run B) : Run B :=
  fun log =>
    match m log with
    | (log', Returns a) => k a log'
    | (log', Throws e) => (log', Throws e)
    end.

Definition throw {A : Type} (e : Thrown) : Run A := fun log => (log, Throws e).

(** [await call] for a call that sends no event. *)
Definition await {A : Type} (outcome : Completion A) : Run A :=
  fun log => (log, outcome).

Definition tryCatch {A : Type} (body : Run A) (handler : Thrown -> Run A) : Run A :=
  fun log =>
    match body log with
    | (log', Throws e) => handler e log'
    | (log', Returns a) => (log', Returns a)
    end.

(** [await sendEvent(event)]: the event is queued for the writer behind
    the events sent before it. *)
Definition sendEvent (event : StreamEvent) : Run unit :=
  fun log => (log ++ [event], Returns tt).

Declare Scope run_scope.
Delimit Scope run_scope with run.
Notation "x <- m ;; k" := (bind m (fun x => k))
  (at level 100, m at next level, right associativity) : run_scope.
Notation "m ;; k" := (bind m (fun _ => k))
  (at level 100, right associativity) : run_scope.

Local Open Scope run_scope.

Fixpoint sendAll (events : list StreamEvent) : Run unit :=
  match events with
  | [] => ret tt
  | event :: rest => sendEvent event ;; sendAll rest
  end.

(** The writer: once a write fails, [closed] is set and every later
    event is dropped.  [writeFailure] is the position of the first write
    that fails, if one does. *)
Definition delivered (writeFailure : option nat) (sent : list StreamEvent)
    : list StreamEvent :=
  match writeFailure with
  | None => sent
  | Some k => List.firstn k sent
  end.

(** *** [Promise.all] over the per-source tasks

    A task is what one call of the mapped function does on its own: the
    events it sends, in order, and how its promise settles.  The tasks
    share no state, so an execution of the join is an interleaving of
    their events.  A [schedule] names, step after step, the task that
    moves; a task that has sent all its events settles on its next move,
    and a fulfilled task's value is stored at the task's own index. *)

Record Task : Type := {
  task_events : list StreamEvent;
  task_outcome : Completion ScrapeResult
}.

Record Pool : Type := {
  pool_tasks : list Task;
  pool_values : list (option ScrapeResult)
}.

(** One move of task [i]. *)
Definition moveTask (i : nat) (pool : Pool) : Run Pool :=
  match pool_tasks pool !! i, pool_values pool !! i with
  | Some task, Some None =>
      match task_events task with
      | event :: rest =>
          sendEvent event ;;
          ret {| pool_tasks :=
                   <[ i := {| task_events := rest;
                              task_outcome := task_outcome task |} ]>
                     (pool_tasks pool);
                 pool_values := pool_values pool |}
      | [] =>
          match task_outcome task with
          | Returns value =>
              ret {| pool_tasks := pool_tasks pool;
                     pool_values := <[ i := Some value ]> (pool_values pool) |}
          | Throws e => throw e
          end
      end
  | _, _ => ret pool
  end.

Fixpoint runSchedule (schedule : list nat) (pool : Pool) : Run Pool :=
  match schedule with
  | [] => ret pool
  | i :: rest => pool' <- moveTask i pool ;; runSchedule rest pool'
  end.

(** Task [i] runs to its end: it sends the events it has left and
    settles. *)
Definition finishTask (i : nat) (pool : Pool) : Run Pool :=
  match pool_tasks pool !! i, pool_values pool !! i with
  | Some task, Some None =>
      sendAll (task_events task) ;;
      match task_outcome task with
      | Returns value =>
          ret {| pool_tasks :=
                   <[ i := {| task_events := [];
                              task_outcome := task_outcome task |} ]>
                     (pool_tasks pool);
                 pool_values := <[ i := Some value ]> (pool_values pool) |}
      | Throws e => throw e
      end
  | _, _ => ret pool
  end.

Fixpoint finishTasks (indices : list nat) (pool : Pool) : Run Pool :=
  match indices with
  | [] => ret pool
  | i :: rest => pool' <- finishTask i pool ;; finishTasks rest pool'
  end.

(** [await Promise.all(tasks)].  The join resolves only when every task
    has settled: after the scheduled moves the tasks still running run
    to their end, one after the other (a schedule long enough leaves
    none).  When a task rejects the join rejects with its error; what the
    other tasks would still send is left out (the handler of the run
    closes the writer). *)
Definition promiseAll (schedule : list nat) (tasks : list Task)
    : Run (list ScrapeResult) :=
  pool <- runSchedule schedule
            {| pool_tasks := tasks;
               pool_values := replicate (List.length tasks) None |} ;;
  pool <- finishTasks (seq 0 (List.length tasks)) pool ;;
  ret (omap id (pool_values pool)).

Definition successOf (r : ScrapeResult) : option ScrapeSuccess :=
  match r with
  | StatusComplete s => Some s
  | StatusError _ => None
  end.

Definition callbackEvent (source : DiscoveredSource) (call : CallbackCall) : StreamEvent :=
  match call with
  | OnStep message => EvSourceUpdate (src_id source) StatusScraping message None
  | OnStreamingUrl streamingUrl =>
      EvSourceUpdate (src_id source) StatusScraping
        (JStr "Live browser preview available.") (Some streamingUrl)
  end.

(** [for (const section of guide.sections) { ... }] *)
Fixpoint streamSections (sections : list string) (streamedGuide : string) : Run string :=
  match sections with
  | [] => ret streamedGuide
  | section :: rest =>
      let chunk := section +:+ LF in
      sendEvent (EvGuideChunk chunk) ;;
      streamSections rest (streamedGuide +:+ chunk)
  end.

Section Route.

Variable JSON_parse : string -> option JsValue.
Variable Date_toLocaleString : string -> string.
Variable search : string -> option (list SearchResult).
Variable URL_withoutHash : string -> option string.
Variable encodeURIComponent : string -> Completion string.

(** The HTTP exchange of the task at an index of the source list. *)
Variable network : nat -> TinyFishTaskRequest -> string -> FetchOutcome.

(** The function mapped over the discovered sources. *)
Definition scrapeSource (topic apiKey : string) (index : nat)
    (source : DiscoveredSource) : Run ScrapeResult :=
  sendEvent (EvSourceUpdate (src_id source) StatusScraping
               (JStr "Launching TinyFish browser agent...") None) ;;
  let '(calls, runResult) :=
    runTinyFishTask JSON_parse (network index)
      {| req_url := src_url source;
         req_goal := buildExtractionGoal topic (src_type source);
         req_browser_profile := Some "lite" |}
      apiKey in
  sendAll (map (callbackEvent source) calls) ;;
  if negb (success runResult) || isUndefined (result runResult) then
    let message :=
      orElse (error runResult)
        (JStr "TinyFish did not return extracted content.") in
    sendEvent (EvSourceError (src_id source) message) ;;
    ret (StatusError {| err_source := source; err_error := message |})
  else
    match normalizeExtraction JSON_parse (result runResult) source with
    | Throws e => throw e
    | Returns extracted =>
        let wordCount := countWords (rawText extracted) in
        sendEvent (EvSourceComplete (src_id source) wordCount) ;;
        ret (StatusComplete
               {| ok_source := source; extracted := extracted;
                  wordCount := wordCount |})
    end.

Definition taskOf (topic apiKey : string) (index : nat) (source : DiscoveredSource) : Task :=
  let '(events, outcome) := scrapeSource topic apiKey index source [] in
  {| task_events := events; task_outcome := outcome |}.

(** The orchestration step:
    [await Promise.all(discoveredSources.map(async (source) => ...))]. *)
Definition scrapeAll (schedule : list nat) (topic apiKey : string)
    (discoveredSources : list DiscoveredSource) : Run (list ScrapeResult) :=
  promiseAll schedule (imap (taskOf topic apiKey) discoveredSources).

(** [body.topic?.trim() ?? ""] *)
Definition readTopic (body : JsValue) : Run string :=
  match body with
  | JNull =>
      throw (ErrorObject "Cannot read properties of null (reading 'topic')")
  | JUndefined =>
      throw (ErrorObject "Cannot read properties of undefined (reading 'topic')")
  | _ =>
    match getProp body "topic" with
    | JUndefined | JNull => ret EmptyString
    | JStr s => ret (trim s)
    | _ => throw (ErrorObject "body.topic?.trim is not a function")
    end
  end.

(** [Number.isFinite(body.maxPerType)
      ? Math.max(1, Math.min(Number(body.maxPerType), 3)) : 2] *)
Definition readMaxPerType (body : JsValue) : nat :=
  match getProp body "maxPerType" with
  | JNum n => Z.to_nat (Z.max 1 (Z.min n 3))
  | _ => 2%nat
  end.

(** The run from the discovered sources on. *)
Definition scrapeAndSynthesize (generatedAt : string) (schedule : list nat)
    (topic apiKey : string) (discoveredSources : list DiscoveredSource) : Run unit :=
  if (List.length discoveredSources =? 0)%nat then
    throw (ErrorObject "No sources were discovered for this topic.")
  else
    sendEvent (EvDiscoveryComplete discoveredSources) ;;
    sendEvent (EvPhase PhaseScraping
                 ("Scraping " +:+ pretty (List.length discoveredSources)
                  +:+ " sources in parallel with TinyFish...")) ;;
    scrapeResults <- scrapeAll schedule topic apiKey discoveredSources ;;
    let successfulScrapes := omap successOf scrapeResults in
    if (List.length successfulScrapes =? 0)%nat then
      throw (ErrorObject "Scraping finished, but no source returned usable content.")
    else
      sendEvent (EvPhase PhaseSynthesizing
                   "Synthesizing a single markdown skill guide...") ;;
      let guide :=
        buildGuideMarkdown Date_toLocaleString generatedAt topic successfulScrapes in
      streamedGuide <- streamSections (sections guide) EmptyString ;;
      let finalGuide := trim streamedGuide in
      sendEvent (EvPhase PhaseComplete "Guide generation complete.") ;;
      sendEvent (EvComplete finalGuide discoveredSources
                   {| sourceCount := List.length discoveredSources;
                      successCount := List.length successfulScrapes;
                      generatedWords := countWords finalGuide |}).

(** The [try] block.  [body] is the parsed request body, [env_apiKey]
    is [process.env.TINYFISH_API_KEY]. *)
Definition POST_try (body : JsValue) (env_apiKey : option string)
    (generatedAt : string) (schedule : list nat) : Run unit :=
  topic <- readTopic body ;;
  let maxPerType := readMaxPerType body in
  if isEmpty topic then sendEvent (EvError "Topic is required.")
  else if negb (present env_apiKey) then
    sendEvent (EvError "TINYFISH_API_KEY is not configured on the server.")
  else
    let apiKey := default EmptyString env_apiKey in
    sendEvent (EvPhase PhaseDiscovering
                 "Discovering relevant docs, GitHub, Stack Overflow, and blog sources...") ;;
    discoveredSources <-
      await (discoverSources search URL_withoutHash encodeURIComponent topic maxPerType) ;;
    scrapeAndSynthesize generatedAt schedule topic apiKey discoveredSources.

(** The [catch] clause. *)
Definition POST_catch (error : Thrown) : Run unit :=
  let message :=
    match error with
    | ErrorObject message => message
    | ThrownValue _ => "Unexpected server error."
    end in
  sendEvent (EvPhase PhaseError message) ;;
  sendEvent (EvError message).

(** The events the run sends, in order. *)
Definition POST (body : JsValue) (env_apiKey : option string)
    (generatedAt : string) (schedule : list nat) : list StreamEvent :=
  fst (tryCatch (POST_try body env_apiKey generatedAt schedule) POST_catch []).

End Route.

(** * The page that consumes the stream ([app/page.tsx]) *)

(** A discovered source with the progress the page shows for it; a
    field that is not set is [undefined] ([JUndefined], [None]). *)
Record SourceProgress : Type := {
  sp_source : DiscoveredSource;
  sp_status : SourceStatus;
  sp_step : JsValue;
  sp_streamingUrl : option string;
  sp_wordCount : option nat;
  sp_error : JsValue
}.

Record GuideHistoryItem : Type := {
  hist_id : string;
  hist_topic : string;
  hist_createdAt : string;
  hist_guide : string;
  hist_sources : list DiscoveredSource;
  hist_stats : GenerationStats
}.

Definition phaseLabel (phase : PipelinePhase) : string :=
  match phase with
  | PhaseDiscovering => "Discovering Sources"
  | PhaseScraping => "Scraping Sources"
  | PhaseSynthesizing => "Synthesizing Guide"
  | PhaseComplete => "Complete"
  | PhaseError => "Error"
  | PhaseIdle => "Ready"
  end.

(** [[entry, ...prev.filter((i) => i.id !== entry.id)].slice(0, 20)] *)
Definition appendHistory (entry : GuideHistoryItem) (prev : list GuideHistoryItem)
    : list GuideHistoryItem :=
  List.firstn 20 (entry :: filter (fun i => hist_id i <> hist_id entry) prev).

(** The patches [updateSource] is called with: the keys the object
    literal names, each with the value it gives (which may be
    [undefined]). *)
Inductive SourcePatch : Type :=
| PatchUpdate (status : SourceStatus) (step : JsValue) (streamingUrl : option string)
| PatchComplete (wordCount : nat)
| PatchError (error : JsValue).

(** [{ ...s, ...patch }] *)
Definition applyPatch (s : SourceProgress) (patch : SourcePatch) : SourceProgress :=
  match patch with
  | PatchUpdate status step streamingUrl =>
      {| sp_source := sp_source s; sp_status := status; sp_step := step;
         sp_streamingUrl := streamingUrl; sp_wordCount := sp_wordCount s;
         sp_error := sp_error s |}
  | PatchComplete wordCount =>
      {| sp_source := sp_source s; sp_status := StatusDone; sp_step := sp_step s;
         sp_streamingUrl := sp_streamingUrl s; sp_wordCount := Some wordCount;
         sp_error := sp_error s |}
  | PatchError error =>
      {| sp_source := sp_source s; sp_status := StatusFailed; sp_step := sp_step s;
         sp_streamingUrl := sp_streamingUrl s; sp_wordCount := sp_wordCount s;
         sp_error := error |}
  end.

(** [prev.map((s) => (s.id === sourceId ? { ...s, ...patch } : s))] *)
Definition updateSource (sourceId : string) (patch : SourcePatch)
    (prev : list SourceProgress) : list SourceProgress :=
  map (fun s =>
         if String.eqb (src_id (sp_source s)) sourceId then applyPatch s patch else s)
    prev.

(** The state of the page a run writes. *)
Record PageState : Type := {
  page_phase : PipelinePhase;
  page_statusMessage : string;
  page_sources : list SourceProgress;
  page_guideMarkdown : string;
  page_stats : option GenerationStats;
  page_error : option string;
  page_history : list GuideHistoryItem
}.

(** [resetForNewRun()] and the two calls that follow it. *)
Definition startRun (st : PageState) : PageState :=
  {| page_phase := PhaseDiscovering;
     page_statusMessage := "Starting generation...";
     page_sources := [];
     page_guideMarkdown := EmptyString;
     page_stats := None;
     page_error := None;
     page_history := page_history st |}.

Definition pendingSource (s : DiscoveredSource) : SourceProgress :=
  {| sp_source := s; sp_status := StatusPending; sp_step := JUndefined;
     sp_streamingUrl := None; sp_wordCount := None; sp_error := JUndefined |}.

(** The handling of one event of the stream.  [t] is the trimmed topic
    of the run; [fresh] is what [makeId()] and
    [new Date().toISOString()] give while the event is handled. *)
Definition handleEvent (t : string) (fresh : string * string) (st : PageState)
    (event : StreamEvent) : PageState :=
  match event with
  | EvPhase phase message =>
      {| page_phase := phase; page_statusMessage := message;
         page_sources := page_sources st;
         page_guideMarkdown := page_guideMarkdown st;
         page_stats := page_stats st; page_error := page_error st;
         page_history := page_history st |}
  | EvDiscoveryComplete sources =>
      {| page_phase := page_phase st; page_statusMessage := page_statusMessage st;
         page_sources := map pendingSource sources;
         page_guideMarkdown := page_guideMarkdown st;
         page_stats := page_stats st; page_error := page_error st;
         page_history := page_history st |}
  | EvSourceUpdate sourceId status step streamingUrl =>
      {| page_phase := page_phase st; page_statusMessage := page_statusMessage st;
         page_sources :=
           updateSource sourceId (PatchUpdate status step streamingUrl)
             (page_sources st);
         page_guideMarkdown := page_guideMarkdown st;
         page_stats := page_stats st; page_error := page_error st;
         page_history := page_history st |}
  | EvSourceComplete sourceId wordCount =>
      {| page_phase := page_phase st; page_statusMessage := page_statusMessage st;
         page_sources :=
           updateSource sourceId (PatchComplete wordCount) (page_sources st);
         page_guideMarkdown := page_guideMarkdown st;
         page_stats := page_stats st; page_error := page_error st;
         page_history := page_history st |}
  | EvSourceError sourceId error =>
      {| page_phase := page_phase st; page_statusMessage := page_statusMessage st;
         page_sources := updateSource sourceId (PatchError error) (page_sources st);
         page_guideMarkdown := page_guideMarkdown st;
         page_stats := page_stats st; page_error := page_error st;
         page_history := page_history st |}
  | EvGuideChunk chunk =>
      {| page_phase := page_phase st; page_statusMessage := page_statusMessage st;
         page_sources := page_sources st;
         page_guideMarkdown := page_guideMarkdown st +:+ chunk;
         page_stats := page_stats st; page_error := page_error st;
         page_history := page_history st |}
  | EvComplete guide sources stats =>
      {| page_phase := PhaseComplete; page_statusMessage := page_statusMessage st;
         page_sources := page_sources st;
         page_guideMarkdown := guide;
         page_stats := Some stats; page_error := page_error st;
         page_history :=
           appendHistory
             {| hist_id := fst fresh; hist_topic := t; hist_createdAt := snd fresh;
                hist_guide := guide; hist_sources := sources; hist_stats := stats |}
             (page_history st) |}
  | EvError message =>
      {| page_phase := PhaseError; page_statusMessage := page_statusMessage st;
         page_sources := page_sources st;
         page_guideMarkdown := page_guideMarkdown st;
         page_stats := page_stats st; page_error := Some message;
         page_history := page_history st |}
  end.

(** The events of the stream handled in order; [fresh index] is what the
    clock and the id generator give for the event at [index]. *)
Fixpoint handleEvents (t : string) (fresh : nat -> string * string) (index : nat)
    (events : list StreamEvent) (st : PageState) : PageState :=
  match events with
  | [] => st
  | event :: rest =>
      handleEvents t fresh (S index) rest (handleEvent t (fresh index) st event)
  end.

(** What [fetch] comes to for the page: the call is aborted, it
    rejects, the response is not ok or has no body, or the body's
    decoded chunks arrive in order until the stream is done.  (A read
    that rejects midway is not part of the model.) *)
Inductive PageFetch : Type :=
| PageFetchAborts
| PageFetchRejects (e : Thrown)
| PageFetchNotOk
| PageFetchBody (chunks : list string).

Section Page.

(** [JSON.parse(text) as StreamEvent]: [None] when it throws. *)
Variable JSON_parse_event : string -> option StreamEvent.

(** The body of [for (const line of lines)]; the state carries the
    number of events handled so far. *)
Definition handleLine (t : string) (fresh : nat -> string * string)
    (state : nat * PageState) (line : string) : nat * PageState :=
  if negb (startsWith line "data: ") then state
  else
    match JSON_parse_event (sliceFrom 6 line) with
    | None => state
    | Some event =>
        (S (fst state), handleEvent t (fresh (fst state)) (snd state) event)
    end.

(** [while (true) { read; decode; split; ... }]: [buffer] holds the
    unfinished last line. *)
Fixpoint readStream (t : string) (fresh : nat -> string * string)
    (chunks : list string) (buffer : string) (state : nat * PageState)
    : nat * PageState :=
  match chunks with
  | [] => state
  | value :: rest =>
      let lines := splitChar (ascii_of_nat 10) (buffer +:+ value) in
      readStream t fresh rest (List.last lines EmptyString)
        (fold_left (handleLine t fresh) (List.removelast lines) state)
  end.

Definition failRun (message : string) (st : PageState) : PageState :=
  {| page_phase := PhaseError; page_statusMessage := page_statusMessage st;
     page_sources := page_sources st;
     page_guideMarkdown := page_guideMarkdown st;
     page_stats := page_stats st; page_error := Some message;
     page_history := page_history st |}.

Definition runGeneration (topic : string) (fresh : nat -> string * string)
    (response : PageFetch) (st : PageState) : PageState :=
  let t := trim topic in
  if isEmpty t then
    {| page_phase := page_phase st; page_statusMessage := page_statusMessage st;
       page_sources := page_sources st;
       page_guideMarkdown := page_guideMarkdown st;
       page_stats := page_stats st; page_error := Some "Topic is required.";
       page_history := page_history st |}
  else
    match response with
    | PageFetchAborts => startRun st
    | PageFetchRejects (ErrorObject message) => failRun message (startRun st)
    | PageFetchRejects (ThrownValue _) =>
        failRun "Unexpected client error." (startRun st)
    | PageFetchNotOk => failRun "Failed to start generation stream." (startRun st)
    | PageFetchBody chunks =>
        snd (readStream t fresh chunks EmptyString (0%nat, startRun st))
    end.

End Page.

(** [`data: ${JSON.stringify(event)}\n\n`], the text [sendEvent] of the
    endpoint writes for an event. *)
Definition wireText (JSON_stringify_event : StreamEvent -> string)
    (event : StreamEvent) : string :=
  "data: " +:+ JSON_stringify_event event +:+ LF +:+ LF.

Definition isWorking (phase : PipelinePhase) : bool :=
  match phase with
  | PhaseDiscovering | PhaseScraping | PhaseSynthesizing => true
  | _ => false
  end.

#[global] Instance SourceStatus_eq_dec : EqDecision SourceStatus.
Proof. solve_decision. Defined.

(** The counts of [totals]. *)
Definition countStatus (status : SourceStatus) (sources : list SourceProgress) : nat :=
  List.length
    (filter (fun s => sp_status s = status) sources).

(** * Properties *)

(** ** Strings *)

Lemma trimStart_head s c rest :
  trimStart s = String c rest -> isWhiteSpace c = false.
Proof.
  induction s as [|d s IH]; simpl; [discriminate|].
  destruct (isWhiteSpace d) eqn:Hd; [exact IH|].
  intros [= <- _]. exact Hd.
Qed.

Lemma trimStart_fixed s :
  match s with String c _ => isWhiteSpace c = false | EmptyString => True end ->
  trimStart s = s.
Proof. destruct s as [|c s]; simpl; [done|]. by intros ->. Qed.

Lemma trimEnd_head s c rest :
  trimEnd s = String c rest -> exists rest', s = String c rest'.
Proof.
  destruct s as [|d s]; simpl; [discriminate|].
  destruct (isWhiteSpace d && isEmpty (trimEnd s)); [discriminate|].
  intros [= -> _]. by eexists.
Qed.

Lemma trimEnd_idempotent s : trimEnd (trimEnd s) = trimEnd s.
Proof.
  induction s as [|c s IH]; simpl; [done|].
  destruct (isWhiteSpace c && isEmpty (trimEnd s)) eqn:H; simpl; [done|].
  by rewrite IH, H.
Qed.

Lemma trim_idempotent s : trim (trim s) = trim s.
Proof.
  unfold trim.
  rewrite (trimStart_fixed (trimEnd (trimStart s))).
  - apply trimEnd_idempotent.
  - destruct (trimEnd (trimStart s)) as [|c r] eqn:E; [done|].
    destruct (trimEnd_head _ _ _ E) as [r' E'].
    by apply trimStart_head in E'.
Qed.

(** ** De-duplication with a cap *)

(** The entries of [values] whose key is neither in [seen] nor the key of
    an earlier entry: what the loop would collect without its cap. *)
Fixpoint firstOccurrences {A : Type} (key : A -> string) (seen : gset string)
    (values : list A) : list A :=
  match values with
  | [] => []
  | value :: rest =>
      if bool_decide (key value ∈ seen) then firstOccurrences key seen rest
      else value :: firstOccurrences key ({[ key value ]} ∪ seen) rest
  end.

Definition keysOf {A : Type} (key : A -> string) (values : list A) : gset string :=
  list_to_set (key <$> values).

Lemma uniqueLoop_firstOccurrences {A : Type} (key : A -> string) (max : nat)
    (values : list A) :
  forall seen out,
    (List.length out < max)%nat ->
    uniqueLoop key max values seen out
    = out ++ List.firstn (max - List.length out) (firstOccurrences key seen values).
Proof.
  induction values as [|value rest IH]; intros seen out Hlt; simpl.
  - by rewrite firstn_nil, app_nil_r.
  - destruct (bool_decide (key value ∈ seen)) eqn:Hseen; simpl.
    + destruct (max <=? List.length out)%nat eqn:Hmax.
      * apply Nat.leb_le in Hmax. lia.
      * by apply IH.
    + rewrite length_app. simpl.
      destruct (max <=? List.length out + 1)%nat eqn:Hmax.
      * apply Nat.leb_le in Hmax.
        replace (max - List.length out)%nat with 1%nat by lia.
        done.
      * apply Nat.leb_gt in Hmax.
        rewrite IH by (rewrite length_app; simpl; lia).
        rewrite length_app. simpl.
        replace (max - List.length out)%nat
          with (S (max - (List.length out + 1)))%nat by lia.
        simpl. by rewrite <- app_assoc.
Qed.

Lemma uniqueResources_firstOccurrences values max :
  (0 < max)%nat ->
  uniqueResources values max
  = List.firstn max (firstOccurrences (fun value => toLowerCase (url value)) ∅ values).
Proof.
  intros Hmax. unfold uniqueResources.
  rewrite uniqueLoop_firstOccurrences by (simpl; lia).
  simpl. by rewrite Nat.sub_0_r.
Qed.

Lemma firstOccurrences_app {A : Type} (key : A -> string) (l1 l2 : list A) :
  forall seen,
    firstOccurrences key seen (l1 ++ l2)
    = firstOccurrences key seen l1
      ++ firstOccurrences key (keysOf key l1 ∪ seen) l2.
Proof.
  induction l1 as [|value rest IH]; intros seen; simpl.
  - unfold keysOf. simpl. by rewrite (left_id_L ∅ (∪)).
  - destruct (bool_decide (key value ∈ seen)) eqn:Hseen.
    + rewrite IH. f_equal. f_equal.
      apply bool_decide_eq_true in Hseen. unfold keysOf. simpl. set_solver.
    + rewrite IH. simpl. f_equal. f_equal. f_equal.
      unfold keysOf. simpl. set_solver.
Qed.

Lemma firstOccurrences_keys {A : Type} (key : A -> string) (values : list A) :
  forall seen k,
    k ∈ keysOf key values -> k ∉ seen ->
    exists value, value ∈ firstOccurrences key seen values /\ key value = k.
Proof.
  induction values as [|value rest IH]; intros seen k Hin Hnot.
  - unfold keysOf in Hin. simpl in Hin. set_solver.
  - simpl. unfold keysOf in Hin. simpl in Hin.
    destruct (bool_decide (key value ∈ seen)) eqn:Hseen.
    + apply bool_decide_eq_true in Hseen.
      apply IH; [|done]. unfold keysOf. set_solver.
    + destruct (decide (key value = k)) as [Heq|Hne].
      * exists value. split; [left|done].
      * destruct (IH ({[ key value ]} ∪ seen) k) as (v & Hv & Hk).
        { unfold keysOf. set_solver. }
        { set_solver. }
        exists v. split; [by right|done].
Qed.

Lemma firstOccurrences_fresh {A : Type} (key : A -> string) (values : list A) :
  forall seen value,
    value ∈ firstOccurrences key seen values ->
    (key value ∉ seen) /\ value ∈ values.
Proof.
  induction values as [|v rest IH]; intros seen value Hin; simpl in Hin.
  - by apply elem_of_nil in Hin.
  - destruct (bool_decide (key v ∈ seen)) eqn:Hseen.
    + destruct (IH _ _ Hin). split; [done|by right].
    + apply bool_decide_eq_false in Hseen.
      apply elem_of_cons in Hin as [->|Hin]; [split; [done|left]|].
      destruct (IH _ _ Hin) as [Hk Hv]. split; [set_solver|by right].
Qed.

(** An entry the loop keeps is the first entry of the input with its
    key. *)
Lemma firstOccurrences_first {A : Type} (key : A -> string) (values : list A) :
  forall seen value,
    value ∈ firstOccurrences key seen values ->
    List.find (fun other => String.eqb (key other) (key value)) values = Some value.
Proof.
  induction values as [|v rest IH]; intros seen value Hin; simpl in Hin.
  - by apply elem_of_nil in Hin.
  - simpl. destruct (bool_decide (key v ∈ seen)) eqn:Hseen.
    + apply bool_decide_eq_true in Hseen.
      destruct (String.eqb (key v) (key value)) eqn:Heq.
      * apply String.eqb_eq in Heq.
        destruct (firstOccurrences_fresh _ _ _ _ Hin) as [Hk _]. congruence.
      * by apply (IH seen).
    + apply elem_of_cons in Hin as [->|Hin].
      * by rewrite String.eqb_refl.
      * destruct (String.eqb (key v) (key value)) eqn:Heq.
        -- apply String.eqb_eq in Heq.
           destruct (firstOccurrences_fresh _ _ _ _ Hin) as [Hk _]. set_solver.
        -- by apply (IH ({[ key v ]} ∪ seen)).
Qed.

Lemma elem_of_keysOf {A : Type} (key : A -> string) (values : list A) k :
  k ∈ keysOf key values <-> exists value, value ∈ values /\ key value = k.
Proof.
  unfold keysOf. rewrite elem_of_list_to_set, list_elem_of_fmap.
  split; intros (v & H1 & H2); exists v; by split.
Qed.

Definition urlKey (value : ResourceLink) : string := toLowerCase (url value).

(** What appending one more link to the list does to the result. *)
Lemma uniqueResources_append listed link max :
  (0 < max)%nat ->
  uniqueResources (listed ++ [link]) max
  = if bool_decide (urlKey link ∈ keysOf urlKey listed)
    then uniqueResources listed max
    else List.firstn max (firstOccurrences urlKey ∅ listed ++ [link]).
Proof.
  intros Hmax. rewrite !uniqueResources_firstOccurrences by done.
  fold urlKey. rewrite firstOccurrences_app. simpl.
  rewrite (right_id_L ∅ (∪)).
  destruct (bool_decide (urlKey link ∈ keysOf urlKey listed)).
  - by rewrite app_nil_r.
  - done.
Qed.

Lemma firstn_short {A : Type} (n : nat) (l : list A) :
  (List.length (List.firstn n l) < n)%nat -> List.firstn n l = l.
Proof.
  intros H. apply firstn_all2. rewrite length_firstn in H. lia.
Qed.

Lemma uniqueResources_length values max :
  (0 < max)%nat -> (List.length (uniqueResources values max) <= max)%nat.
Proof.
  intros Hmax. rewrite uniqueResources_firstOccurrences by done.
  rewrite length_firstn. lia.
Qed.

Lemma elem_of_firstn {A : Type} (n : nat) (l : list A) x :
  x ∈ List.firstn n l -> x ∈ l.
Proof.
  apply subseteq_take.
Qed.

(** Whether the result holds an entry with the appended link's key. *)
Lemma uniqueResources_append_has_key listed link max :
  (0 < max)%nat ->
  (exists r, r ∈ uniqueResources (listed ++ [link]) max /\ urlKey r = urlKey link)
  <-> (List.length (uniqueResources listed max) < max)%nat
      \/ exists r, r ∈ uniqueResources listed max /\ urlKey r = urlKey link.
Proof.
  intros Hmax. rewrite uniqueResources_append by done.
  destruct (bool_decide (urlKey link ∈ keysOf urlKey listed)) eqn:Hlisted.
  - apply bool_decide_eq_true in Hlisted. split; [by right|].
    intros [Hshort|Hhas]; [|done].
    rewrite uniqueResources_firstOccurrences in * by done.
    rewrite (firstn_short _ _ Hshort).
    apply firstOccurrences_keys; [done|set_solver].
  - apply bool_decide_eq_false in Hlisted.
    assert (Hnone : forall r, r ∈ firstOccurrences urlKey ∅ listed ->
                              urlKey r <> urlKey link).
    { intros r Hr Hk. apply firstOccurrences_fresh in Hr as [_ Hr].
      apply Hlisted, elem_of_keysOf. by exists r. }
    rewrite uniqueResources_firstOccurrences by done. fold urlKey.
    split.
    + intros (r & Hr & Hk). left.
      rewrite firstn_app in Hr. apply elem_of_app in Hr as [Hr|Hr].
      * apply elem_of_firstn in Hr. by destruct (Hnone r Hr).
      * rewrite length_firstn.
        destruct (max - List.length (firstOccurrences urlKey ∅ listed))%nat eqn:E;
          [by apply elem_of_nil in Hr|lia].
    + intros [Hshort|(r & Hr & Hk)].
      * exists link. split; [|done].
        rewrite length_firstn in Hshort.
        rewrite firstn_all2 by (rewrite length_app; simpl; lia).
        apply elem_of_app. right. left.
      * apply elem_of_firstn in Hr. by destruct (Hnone r Hr).
Qed.

(** ** The extraction normalizer *)

Section NormalizerFacts.

Variable JSON_parse : string -> option JsValue.

(** The resources the payload lists, as [normalizeExtraction] reads
    them: none on the text-only path. *)
Definition listedResources (raw : JsValue) : list ResourceLink :=
  match parseMaybeObject JSON_parse raw with
  | Some parsed =>
      toResourceList (orElse (getProp parsed "resources") (getProp parsed "links"))
  | None => []
  end.

(** The source's URL and a resource's are the same up to letter case. *)
Definition sameUrl (source : DiscoveredSource) (r : ResourceLink) : Prop :=
  toLowerCase (url r) = toLowerCase (src_url source).

Lemma normalizeExtraction_defined raw source :
  isUndefined raw = false ->
  exists extraction, normalizeExtraction JSON_parse raw source = Returns extraction.
Proof.
  intros Hdefined. unfold normalizeExtraction.
  destruct (parseMaybeObject JSON_parse raw) as [parsed|] eqn:Hparsed.
  - by eexists.
  - destruct raw as [| |b|n|s|items|fields]; simpl in Hparsed;
      try discriminate; simpl.
    + by eexists.
    + destruct b; by eexists.
    + by eexists.
    + by eexists.
Qed.

(** C1 (amended): for every payload other than [undefined] and every
    source, the normalizer returns an extraction; it does not throw. *)
Theorem normalizeExtraction_returns (raw : JsValue) (source : DiscoveredSource) :
  raw <> JUndefined ->
  exists extraction, normalizeExtraction JSON_parse raw source = Returns extraction.
Proof.
  intros Hdefined. apply normalizeExtraction_defined. by destruct raw.
Qed.

Lemma normalizeExtraction_resources_eq raw source extraction :
  normalizeExtraction JSON_parse raw source = Returns extraction ->
  resources extraction
  = uniqueResources (listedResources raw ++ [sourceLink source]) 20.
Proof.
  unfold normalizeExtraction, listedResources.
  destruct (parseMaybeObject JSON_parse raw) as [parsed|].
  - by intros [= <-].
  - assert (Hone : uniqueResources ([] ++ [sourceLink source]) 20 = [sourceLink source]).
    { rewrite uniqueResources_firstOccurrences by lia. simpl.
      rewrite bool_decide_eq_false_2 by set_solver. done. }
    rewrite Hone.
    destruct raw; simpl; try discriminate; try (by intros [= <-]).
    destruct b; by intros [= <-].
Qed.

(** C2 (amended): whenever the normalizer returns, [resources] is the
    payload's resources followed by the source's own link, de-duplicated
    by lowercase URL (first occurrence kept) and cut at 20 entries.  So it
    has at most 20 entries; it holds an entry with the source's URL (up
    to letter case) exactly when the payload's own de-duplicated list is
    shorter than 20 or already holds one; and when the payload lists a
    resource with the source's URL the appended link adds nothing, an
    entry kept for that URL being the payload's first one. *)
Theorem normalizeExtraction_resources (raw : JsValue) (source : DiscoveredSource)
    (extraction : StructuredExtraction) :
  normalizeExtraction JSON_parse raw source = Returns extraction ->
  let listed := listedResources raw in
  let kept := uniqueResources listed 20 in
  resources extraction = uniqueResources (listed ++ [sourceLink source]) 20
  /\ (List.length (resources extraction) <= 20)%nat
  /\ ((exists r, r ∈ resources extraction /\ sameUrl source r)
      <-> (List.length kept < 20)%nat \/ exists r, r ∈ kept /\ sameUrl source r)
  /\ ((exists listedLink, listedLink ∈ listed /\ sameUrl source listedLink) ->
      resources extraction = kept
      /\ forall r, r ∈ resources extraction -> sameUrl source r ->
           List.find (fun other =>
                        String.eqb (toLowerCase (url other))
                          (toLowerCase (src_url source))) listed
           = Some r).
Proof.
  intros Hret listed kept.
  pose proof (normalizeExtraction_resources_eq _ _ _ Hret) as Heq.
  fold listed in Heq. rewrite Heq.
  split; [done|]. split; [by apply uniqueResources_length; lia|]. split.
  - apply (uniqueResources_append_has_key listed (sourceLink source) 20). lia.
  - intros (listedLink & Hin & Hsame).
    rewrite uniqueResources_append by lia.
    rewrite bool_decide_eq_true_2
      by (apply elem_of_keysOf; by exists listedLink).
    split; [done|].
    intros r Hr Hk. unfold sameUrl in Hk. rewrite <- Hk.
    rewrite uniqueResources_firstOccurrences in Hr by lia.
    apply elem_of_firstn in Hr.
    by apply (firstOccurrences_first _ _ _ _ Hr).
Qed.

End NormalizerFacts.

(** *** Sample inputs *)

Definition sample_source : DiscoveredSource :=
  {| src_id := "docs-0-examplecomguide";
     src_type := docs;
     src_title := "Example guide";
     src_url := "https://docs.example.com/guide";
     src_reason := "Official guide.";
     src_query := "Docker official documentation" |}.

(** A [JSON.parse] that rejects every text. *)
Definition no_JSON (text : string) : option JsValue := None.

(** A payload that lists twenty resources with distinct URLs, none of
    them the source's. *)
Definition twenty_resources : JsValue :=
  JObj [ ("resources",
          JArr (map (fun n => JStr ("http://example.org/r" +:+ pretty n))
                  (seq 0 20))) ].

(** Scenario 5 of the specification: a bare string that is no JSON. *)
Lemma normalizeExtraction_returns_witness :
  JStr "Some prose with no JSON." <> JUndefined
  /\ exists extraction,
       normalizeExtraction no_JSON (JStr "Some prose with no JSON.") sample_source
       = Returns extraction.
Proof.
  split; [discriminate|].
  apply (normalizeExtraction_returns no_JSON); discriminate.
Defined.

(** C1 as stated fails at [undefined]: [JSON.stringify(undefined)] is
    [undefined], and [deriveOverview] reads [.replace] of it. *)
Lemma normalizeExtraction_undefined_throws :
  normalizeExtraction no_JSON JUndefined sample_source
  = Throws (ErrorObject "Cannot read properties of undefined (reading 'replace')").
Proof. reflexivity. Qed.

(** A payload that lists the source's own URL, in other letter case,
    twice. *)
Definition listed_in_capitals : JsValue :=
  JObj [ ("overview", JStr "Containers package an application.");
         ("resources",
          JArr [ JObj [ ("label", JStr "Mirror");
                        ("url", JStr "https://DOCS.EXAMPLE.COM/Guide") ];
                 JStr "https://docs.example.com/GUIDE" ]) ].

Definition listed_in_capitals_extraction : StructuredExtraction :=
  {| overview := "Containers package an application.";
     coreConcepts := [];
     apis := [];
     examples := [];
     commonIssues := [];
     bestPractices := [];
     resources :=
       [ {| label := "Mirror"; url := "https://DOCS.EXAMPLE.COM/Guide";
            note := Some EmptyString |} ];
     rawText := EmptyString |}.

Lemma normalizeExtraction_resources_witness :
  normalizeExtraction no_JSON listed_in_capitals sample_source
  = Returns listed_in_capitals_extraction
  /\ (List.length (resources listed_in_capitals_extraction) <= 20)%nat
  /\ ((exists r, r ∈ resources listed_in_capitals_extraction
                 /\ sameUrl sample_source r)
      <-> (List.length
             (uniqueResources (listedResources no_JSON listed_in_capitals) 20) < 20)%nat
          \/ exists r,
               r ∈ uniqueResources (listedResources no_JSON listed_in_capitals) 20
               /\ sameUrl sample_source r).
Proof.
  assert (Hret : normalizeExtraction no_JSON listed_in_capitals sample_source
                 = Returns listed_in_capitals_extraction)
    by (vm_compute; reflexivity).
  split; [exact Hret|].
  destruct (normalizeExtraction_resources no_JSON _ _ _ Hret)
    as (_ & Hlen & Hiff & _).
  split; [exact Hlen|exact Hiff].
Defined.

(** C2 as stated fails when the payload lists twenty distinct URLs: the
    loop stops at the cap before it reaches the appended source link. *)
Lemma normalizeExtraction_source_link_dropped :
  exists extraction,
    normalizeExtraction no_JSON twenty_resources sample_source = Returns extraction
    /\ List.length (resources extraction) = 20%nat
    /\ Forall (fun r => toLowerCase (url r) <> toLowerCase (src_url sample_source))
         (resources extraction).
Proof.
  eexists. split; [vm_compute; reflexivity|]. split; [reflexivity|].
  simpl. repeat (constructor; [vm_compute; discriminate|]). constructor.
Qed.

(** ** The agent client *)

Lemma coalesce_defined (a b : JsValue) :
  isUndefined b = false -> isUndefined (coalesce a b) = false.
Proof. by destruct a. Qed.

(** A successful result carries a payload that is not [undefined]. *)
Definition payloadDefined (r : TinyFishRunResult) : Prop :=
  success r = true -> isUndefined (result r) = false.

Section TinyFishFacts.

Variable JSON_parse : string -> option JsValue.
Variable fetch : TinyFishTaskRequest -> string -> FetchOutcome.

Lemma caught_payloadDefined e streamingUrl : payloadDefined (caught e streamingUrl).
Proof. intros H. discriminate H. Qed.

Lemma processLine_payloadDefined line st st' r :
  processLine JSON_parse line st = (st', Some r) -> payloadDefined r.
Proof.
  unfold processLine.
  destruct (parseSseLine JSON_parse line) as [event|]; [|discriminate].
  destruct (truthy event); simpl; [|discriminate].
  set (st1 := match readStreamingUrl event with Some _ => _ | None => _ end).
  destruct (upperField event "type") as [type|e].
  - set (st2 := if isText type "STEP" then _ else _).
    destruct (isComplete event) as [[|]|e].
    + intros [= _ <-] _. simpl. by repeat apply coalesce_defined.
    + destruct (isFailure event) as [[|]|e]; intros [= _ <-];
        try discriminate; try apply caught_payloadDefined.
    + intros [= _ <-]. apply caught_payloadDefined.
  - intros [= _ <-]. apply caught_payloadDefined.
Qed.

Lemma processLines_payloadDefined lines :
  forall st st' r,
    processLines JSON_parse lines st = (st', Some r) -> payloadDefined r.
Proof.
  induction lines as [|line rest IH]; intros st st' r; simpl; [discriminate|].
  destruct (processLine JSON_parse line st) as [st1 [r1|]] eqn:Hline.
  - intros [= _ <-]. by eapply processLine_payloadDefined.
  - apply IH.
Qed.

Lemma readLoop_payloadDefined chunks readFailure :
  forall buffer st,
    payloadDefined (snd (readLoop JSON_parse chunks readFailure buffer st)).
Proof.
  induction chunks as [|value rest IH]; intros buffer st; simpl.
  - destruct readFailure; simpl; [apply caught_payloadDefined|].
    intros H. discriminate H.
  - destruct (processLines JSON_parse _ st) as [st1 [r1|]] eqn:Hlines; simpl.
    + by eapply processLines_payloadDefined.
    + apply IH.
Qed.

Lemma runTinyFishTask_payloadDefined request apiKey :
  payloadDefined (snd (runTinyFishTask JSON_parse fetch request apiKey)).
Proof.
  unfold runTinyFishTask.
  destruct (fetch request apiKey) as [e|status [text|e]| |chunks readFailure];
    simpl; try apply caught_payloadDefined; try (intros H; discriminate H).
  pose proof (readLoop_payloadDefined chunks readFailure EmptyString
                {| ts_streamingUrl := None; ts_calls := [] |}) as H.
  by destruct (readLoop JSON_parse chunks readFailure _ _).
Qed.

(** The failure test of the orchestrator is the test of [success] alone,
    whatever the task run returned. *)
Lemma failureTest_is_success_test request apiKey :
  let runResult := snd (runTinyFishTask JSON_parse fetch request apiKey) in
  negb (success runResult) || isUndefined (result runResult)
  = negb (success runResult).
Proof.
  intros runResult. destruct (success runResult) eqn:Hsuccess; [|done].
  simpl. exact (runTinyFishTask_payloadDefined request apiKey Hsuccess).
Qed.

(** C10: a result of [runTinyFishTask] with [success = true] has a
    [result] that is not [undefined], so for the results of task runs the
    orchestrator's failure test
    [!runResult.success || runResult.result === undefined] is the test
    [!runResult.success]: its second disjunct never decides. *)
Theorem runTinyFishTask_success_payload (request : TinyFishTaskRequest)
    (apiKey : string) :
  let runResult := snd (runTinyFishTask JSON_parse fetch request apiKey) in
  success runResult = true ->
  isUndefined (result runResult) = false
  /\ negb (success runResult) || isUndefined (result runResult)
     = negb (success runResult).
Proof.
  intros runResult Hsuccess. split.
  - exact (runTinyFishTask_payloadDefined request apiKey Hsuccess).
  - apply failureTest_is_success_test.
Qed.

End TinyFishFacts.

(** A completion event that names none of the payload fields: the
    fallback chain ends in [null]. *)
Definition parse_bare_complete (text : string) : option JsValue :=
  if String.eqb text "{}" then Some (JObj [ ("type", JStr "complete") ])
  else None.

Definition fetch_bare_complete (request : TinyFishTaskRequest) (apiKey : string)
    : FetchOutcome :=
  FetchBody [ "data: {}" +:+ LF ] None.

Definition sample_request : TinyFishTaskRequest :=
  {| req_url := src_url sample_source;
     req_goal := buildExtractionGoal "Docker" docs;
     req_browser_profile := Some "lite" |}.

Lemma runTinyFishTask_success_payload_witness :
  snd (runTinyFishTask parse_bare_complete fetch_bare_complete sample_request "key")
  = {| success := true; result := JNull; error := JUndefined; streamingUrl := None |}
  /\ isUndefined
       (result (snd (runTinyFishTask parse_bare_complete fetch_bare_complete
                       sample_request "key"))) = false.
Proof.
  split; [reflexivity|].
  apply (runTinyFishTask_success_payload parse_bare_complete fetch_bare_complete
           sample_request "key").
  reflexivity.
Defined.

(** ** The guide synthesizer *)

Lemma append_cons (x : ascii) (a b : string) :
  String x a +:+ b = String x (a +:+ b).
Proof. reflexivity. Qed.

Lemma append_assoc (a b c : string) : (a +:+ b) +:+ c = a +:+ (b +:+ c).
Proof.
  induction a as [|x a IH]; [done|]. by rewrite !append_cons, IH.
Qed.

Lemma isEmpty_append (a b : string) : isEmpty (a +:+ b) = isEmpty a && isEmpty b.
Proof. by destruct a. Qed.

Lemma isEmpty_join_cons (sep p : string) (rest : list string) :
  isEmpty p = false -> isEmpty (join sep (p :: rest)) = false.
Proof.
  intros Hp. destruct rest as [|q rest]; simpl; [done|].
  by rewrite isEmpty_append, Hp.
Qed.

Lemma length_zero_nil {A : Type} (l : list A) :
  (List.length l =? 0)%nat = false -> exists x rest, l = x :: rest.
Proof. destruct l as [|x rest]; [discriminate|]. by exists x, rest. Qed.

Lemma renderOverview_nonempty results : isEmpty (renderOverview results) = false.
Proof.
  unfold renderOverview.
  destruct (List.length _ =? 0)%nat eqn:Hlen; [done|].
  destruct (length_zero_nil _ Hlen) as (line & rest & ->). simpl.
  by apply isEmpty_join_cons.
Qed.

Lemma renderCoreConcepts_nonempty results :
  isEmpty (renderCoreConcepts results) = false.
Proof.
  unfold renderCoreConcepts.
  set (concepts := uniqueByLowerCase (flat_map _ results) 14).
  set (section :=
         if (0 <? List.length concepts)%nat
         then join LF (map (fun concept => "- " +:+ concept) concepts)
         else _).
  assert (Hsection : isEmpty section = false).
  { unfold section. destruct concepts as [|c rest]; simpl; [done|].
    by apply isEmpty_join_cons. }
  repeat match goal with
         | |- context [if ?b then _ else _] => destruct b
         end; rewrite ?isEmpty_append, ?Hsection; done.
Qed.

Lemma renderExamples_nonempty results : isEmpty (renderExamples results) = false.
Proof.
  unfold renderExamples.
  destruct (List.length _ =? 0)%nat eqn:Hlen; [done|].
  destruct (length_zero_nil _ Hlen) as ([example title] & rest & ->). simpl.
  by apply isEmpty_join_cons.
Qed.

Lemma renderGotchas_nonempty results : isEmpty (renderGotchas results) = false.
Proof.
  unfold renderGotchas.
  destruct (List.length _ =? 0)%nat eqn:Hlen; [done|].
  destruct (length_zero_nil _ Hlen) as (item & rest & ->). simpl.
  by apply isEmpty_join_cons.
Qed.

(** The resources section has no placeholder: without resources it is
    the empty string. *)
Lemma renderResources_no_placeholder : renderResources [] = EmptyString.
Proof. reflexivity. Qed.

Section SynthesizerFacts.

Variable Date_toLocaleString : string -> string.

(** The sections after the header: they depend on the results alone. *)
Definition bodySections (results : list ScrapeSuccess) : list string :=
  [ "## Overview" +:+ LF +:+ LF +:+ renderOverview results +:+ LF;
    "## Core Concepts" +:+ LF +:+ LF +:+ renderCoreConcepts results +:+ LF;
    "## Practical Examples" +:+ LF +:+ LF +:+ renderExamples results +:+ LF;
    "## Common Gotchas" +:+ LF +:+ LF +:+ renderGotchas results +:+ LF;
    "## Resources" +:+ LF +:+ LF +:+ renderResources results +:+ LF ].

Lemma buildGuideMarkdown_sections generatedAt topic results :
  sections (buildGuideMarkdown Date_toLocaleString generatedAt topic results)
  = ("# " +:+ topic +:+ " Skill Guide" +:+ LF +:+ LF
     +:+ "Generated: " +:+ formatDate Date_toLocaleString generatedAt +:+ LF
     +:+ "Sources scraped successfully: " +:+ pretty (List.length results)
     +:+ LF +:+ LF)
    :: bodySections results.
Proof.
  unfold buildGuideMarkdown, bodySections, headerBeforeDate, headerAfterDate.
  simpl sections. f_equal.
  by rewrite !append_assoc.
Qed.

(** C8: the synthesizer is a function of the topic, the successes and
    the clock's reading.  The clock's reading enters the section list
    only as the text of the header's [Generated:] line: what stands
    before that text, what stands after it, and every later section are
    fixed by the topic and the successes alone.  So two evaluations with
    the same reading give the same sections, and with different readings
    the sections differ at most in that line. *)
Theorem buildGuideMarkdown_deterministic (topic : string)
    (results : list ScrapeSuccess) :
  exists before after rest,
    before = "# " +:+ topic +:+ " Skill Guide" +:+ LF +:+ LF +:+ "Generated: "
    /\ after = LF +:+ "Sources scraped successfully: "
               +:+ pretty (List.length results) +:+ LF +:+ LF
    /\ rest = bodySections results
    /\ forall generatedAt,
         sections (buildGuideMarkdown Date_toLocaleString generatedAt topic results)
         = (before +:+ formatDate Date_toLocaleString generatedAt +:+ after) :: rest.
Proof.
  eexists _, _, _. split; [reflexivity|]. split; [reflexivity|].
  split; [reflexivity|].
  intros generatedAt. rewrite buildGuideMarkdown_sections. f_equal.
  by rewrite !append_assoc.
Qed.

End SynthesizerFacts.

(** ** Source discovery *)

(** What the loops of [discoverByType] keep true of their state for a
    quota [m]: a return from inside the loop happens with exactly [m]
    sources selected; otherwise fewer than [m] are selected, and nothing
    has been seen while nothing is selected. *)
Definition selectionOk (m : nat) (sel : Selection) : Prop :=
  if sel_returned sel then List.length (sel_selected sel) = m
  else (List.length (sel_selected sel) < m)%nat
       /\ (sel_selected sel = [] -> sel_seen sel = ∅).

Section DiscoveryFacts.

Variable search : string -> option (list SearchResult).
Variable URL_withoutHash : string -> option string.
Variable encodeURIComponent : string -> Completion string.

Lemma selectRanked_ok type m query ranked :
  forall selected seen,
    (List.length selected < m)%nat ->
    (selected = [] -> seen = ∅) ->
    selectionOk m (selectRanked URL_withoutHash type m query ranked selected seen).
Proof.
  induction ranked as [|entry rest IH]; intros selected seen Hlen Hseen; simpl.
  - by split.
  - destruct (bool_decide _); [by apply IH|].
    rewrite length_app. simpl.
    destruct (m <=? List.length selected + 1)%nat eqn:Hfull.
    + apply Nat.leb_le in Hfull. unfold selectionOk. simpl.
      rewrite length_app. simpl. lia.
    + apply Nat.leb_gt in Hfull. apply IH.
      * rewrite length_app. simpl. lia.
      * intros Hnil. by destruct selected.
Qed.

Lemma selectFromQueries_ok rank type m queries :
  forall selected seen,
    (List.length selected < m)%nat ->
    (selected = [] -> seen = ∅) ->
    selectionOk m
      (selectFromQueries search URL_withoutHash rank type m queries selected seen).
Proof.
  induction queries as [|query rest IH]; intros selected seen Hlen Hseen; simpl.
  - by split.
  - destruct (search query) as [results|]; [|by apply IH].
    pose proof (selectRanked_ok type m query (rank results) selected seen Hlen Hseen)
      as Hok.
    destruct (selectRanked _ _ _ _ _ _ _) as [returned selected' seen'] eqn:Hsel.
    unfold selectionOk in Hok. simpl in *.
    destruct returned; [by unfold selectionOk|].
    destruct Hok. by apply IH.
Qed.

Lemma addFallbacks_extends m fallbacks seen :
  forall selected,
    exists extra, addFallbacks m fallbacks seen selected = selected ++ extra.
Proof.
  induction fallbacks as [|fallback rest IH]; intros selected; simpl.
  - exists []. by rewrite app_nil_r.
  - destruct (bool_decide _).
    + destruct (m <=? _)%nat; [exists []; by rewrite app_nil_r|apply IH].
    + destruct (m <=? _)%nat; [by eexists|].
      destruct (IH (selected ++ [fallback])) as [extra ->].
      exists ([fallback] ++ extra). by rewrite app_assoc.
Qed.

Lemma addFallbacks_nonempty m fallbacks seen selected :
  fallbacks <> [] ->
  (selected = [] -> seen = ∅) ->
  addFallbacks m fallbacks seen selected <> [].
Proof.
  intros Hfallbacks Hseen.
  destruct selected as [|source selected].
  - destruct fallbacks as [|fallback rest]; [done|]. simpl.
    rewrite (Hseen eq_refl).
    rewrite bool_decide_eq_false_2 by set_solver. simpl.
    destruct (m <=? 1)%nat; [done|].
    by destruct (addFallbacks_extends m rest ∅ [fallback]) as [extra ->].
  - by destruct (addFallbacks_extends m fallbacks seen (source :: selected))
      as [extra ->].
Qed.

Lemma finishSelection_bounds m fallbacks sel found :
  (1 <= m)%nat ->
  (forall listed, fallbacks = Returns listed -> listed <> []) ->
  selectionOk m sel ->
  finishSelection m fallbacks sel = Returns found ->
  (1 <= List.length found <= m)%nat.
Proof.
  intros Hm Hfallbacks Hok. unfold finishSelection, selectionOk in *.
  destruct (sel_returned sel); [intros [= <-]; lia|]. destruct Hok as [Hlen Hseen].
  rewrite (proj2 (Nat.ltb_lt _ _) Hlen).
  destruct fallbacks as [listed|e]; [|done]. intros [= <-].
  rewrite length_firstn.
  pose proof (addFallbacks_nonempty m listed _ _ (Hfallbacks listed eq_refl) Hseen)
    as Hne.
  destruct (addFallbacks m listed (sel_seen sel) (sel_selected sel));
    [done|simpl; lia].
Qed.

Lemma finishSelection_returns m listed sel :
  exists found, finishSelection m (Returns listed) sel = Returns found.
Proof.
  unfold finishSelection. destruct (sel_returned sel); [by eexists|].
  destruct (_ <? _)%nat; by eexists.
Qed.

Lemma finishSelection_throws m fallbacks sel e :
  finishSelection m fallbacks sel = Throws e -> fallbacks = Throws e.
Proof.
  unfold finishSelection. destruct (sel_returned sel); [done|].
  destruct (_ <? _)%nat; [|done]. destruct fallbacks; [done|]. by intros [= ->].
Qed.

Lemma fallbackSources_nonempty encoded topic type :
  fallbackSources URL_withoutHash encoded topic type <> [].
Proof. by destruct type. Qed.


Lemma defaultFallbacks_nonempty topic type listed :
  defaultFallbacks URL_withoutHash encodeURIComponent topic type = Returns listed ->
  listed <> [].
Proof.
  unfold defaultFallbacks. destruct (encodeURIComponent topic); [|done].
  intros [= <-]. apply fallbackSources_nonempty.
Qed.


Lemma discoverByType_bounds topic type m found :
  (1 <= m)%nat ->
  discoverByType search URL_withoutHash encodeURIComponent topic type m
  = Returns found ->
  (1 <= List.length found <= m)%nat.
Proof.
  intros Hm. unfold discoverByType.
  apply finishSelection_bounds; [done|apply defaultFallbacks_nonempty|].
  apply selectFromQueries_ok; [simpl; lia|done].
Qed.


(** A call of [discoverByType] throws only what
    [encodeURIComponent(topic)] throws, and returns when that call
    does. *)
Lemma discoverByType_throws topic type m e :
  discoverByType search URL_withoutHash encodeURIComponent topic type m = Throws e ->
  encodeURIComponent topic = Throws e.
Proof.
  unfold discoverByType. intros Hthrows%finishSelection_throws.
  unfold defaultFallbacks in Hthrows.
  destruct (encodeURIComponent topic); simpl in Hthrows; congruence.
Qed.


Lemma discoverByType_returns topic type m encoded :
  encodeURIComponent topic = Returns encoded ->
  exists found,
    discoverByType search URL_withoutHash encodeURIComponent topic type m
    = Returns found.
Proof.
  intros Hencoded. unfold discoverByType, defaultFallbacks. rewrite Hencoded.
  apply finishSelection_returns.
Qed.

Lemma discoverByType_part0_returns topic type m encoded :
  encodeURIComponent topic = Returns encoded ->
  exists found,
    discoverByType_part0 search URL_withoutHash encodeURIComponent topic type m
    = Returns found.
Proof.
  intros Hencoded. unfold discoverByType_part0, defaultFallbacks_part0.
  rewrite Hencoded. apply finishSelection_returns.
Qed.

(** [Promise.all] over the four source types. *)
Lemma allFulfilled_types {A : Type} (f : SourceType -> Completion A)
    (results : list A) :
  allFulfilled (map f SOURCE_TYPES) = Returns results ->
  exists byType,
    (forall type, f type = Returns (byType type))
    /\ results = map byType SOURCE_TYPES.
Proof.
  unfold SOURCE_TYPES. simpl.
  destruct (f docs) as [d|] eqn:Hd; [|done].
  destruct (f github) as [g|] eqn:Hg; [|done].
  destruct (f stackoverflow) as [o|] eqn:Ho; [|done].
  destruct (f blog) as [b|] eqn:Hb; [|done].
  intros [= <-].
  exists (fun type =>
            match type with
            | docs => d | github => g | stackoverflow => o | blog => b
            end).
  split; [by intros []|done].
Qed.

Lemma allFulfilled_types_returns {A : Type} (f : SourceType -> Completion A)
    (byType : SourceType -> A) :
  (forall type, f type = Returns (byType type)) ->
  allFulfilled (map f SOURCE_TYPES) = Returns (map byType SOURCE_TYPES).
Proof. intros Hf. unfold SOURCE_TYPES. simpl. by rewrite !Hf. Qed.

Lemma allFulfilled_types_throws {A : Type} (f : SourceType -> Completion A)
    (e : Thrown) :
  allFulfilled (map f SOURCE_TYPES) = Throws e -> exists type, f type = Throws e.
Proof.
  unfold SOURCE_TYPES. simpl.
  destruct (f docs) eqn:Hd; [|intros [= <-]; by exists docs].
  destruct (f github) eqn:Hg; [|intros [= <-]; by exists github].
  destruct (f stackoverflow) eqn:Ho; [|intros [= <-]; by exists stackoverflow].
  destruct (f blog) eqn:Hb; [done|intros [= <-]; by exists blog].
Qed.

Lemma dedupeByUrl_length flattened :
  forall deduped,
    (List.length deduped <= List.length (dedupeByUrl flattened deduped)
     <= List.length deduped + List.length flattened)%nat.
Proof.
  induction flattened as [|source rest IH]; intros deduped; simpl; [lia|].
  destruct (existsb _ deduped).
  - specialize (IH deduped). lia.
  - specialize (IH (deduped ++ [(src_url source, source)])).
    rewrite length_app in IH. simpl in IH. lia.
Qed.

Lemma dedupeByUrl_nonempty flattened :
  flattened <> [] -> (1 <= List.length (dedupeByUrl flattened []))%nat.
Proof.
  destruct flattened as [|source rest]; [done|]. intros _. simpl.
  pose proof (dedupeByUrl_length rest [(src_url source, source)]) as H.
  simpl in H. lia.
Qed.

(** The bounds follow from those of the four per-type lists. *)
Lemma deduped_bounds (byType : SourceType -> list DiscoveredSource) (m : nat) :
  (forall type, (1 <= List.length (byType type) <= m)%nat) ->
  (1 <= List.length
          (map snd (dedupeByUrl (List.concat (map byType SOURCE_TYPES)) []))
   <= 4 * m)%nat.
Proof.
  intros Hbounds. rewrite length_map.
  assert (Hflat : (4 <= List.length (List.concat (map byType SOURCE_TYPES)) <= 4 * m)%nat).
  { unfold SOURCE_TYPES. simpl. rewrite !length_app. simpl.
    pose proof (Hbounds docs). pose proof (Hbounds github).
    pose proof (Hbounds stackoverflow). pose proof (Hbounds blog).
    clear Hbounds. lia. }
  pose proof (dedupeByUrl_length (List.concat (map byType SOURCE_TYPES)) []) as Hlen.
  simpl (List.length []) in Hlen. clear Hbounds.
  split; [|lia].
  apply dedupeByUrl_nonempty. intros Hnil. rewrite Hnil in Hflat. simpl in Hflat. lia.
Qed.

(** A discovery that returns returns the per-type selections, joined
    and de-duplicated. *)
Lemma discoverSources_selections topic maxPerType found :
  discoverSources search URL_withoutHash encodeURIComponent topic maxPerType
  = Returns found ->
  exists byType,
    (forall type,
        discoverByType search URL_withoutHash encodeURIComponent topic type
          (Nat.max 1 (Nat.min maxPerType 3))
        = Returns (byType type))
    /\ found = map snd (dedupeByUrl (List.concat (map byType SOURCE_TYPES)) []).
Proof.
  unfold discoverSources. cbv zeta.
  destruct (allFulfilled _) as [results|e] eqn:Hall; [|done].
  intros [= <-].
  destruct (allFulfilled_types _ _ Hall) as (byType & HbyType & ->).
  by exists byType.
Qed.




(** Discovery throws only what [encodeURIComponent(topic)] throws, and
    returns when that call does. *)
Lemma discoverSources_throws topic maxPerType e :
  discoverSources search URL_withoutHash encodeURIComponent topic maxPerType
  = Throws e ->
  encodeURIComponent topic = Throws e.
Proof.
  unfold discoverSources. cbv zeta.
  destruct (allFulfilled _) as [results|e'] eqn:Hall; [done|].
  intros [= ->].
  destruct (allFulfilled_types_throws _ _ Hall) as [type Htype].
  by apply discoverByType_throws in Htype.
Qed.







End DiscoveryFacts.

(** ** The orchestration step *)

Local Open Scope run_scope.

(** The events of the scraping phase. *)
Definition isSourceEvent (event : StreamEvent) : Prop :=
  match event with
  | EvSourceUpdate _ _ _ _ | EvSourceComplete _ _ | EvSourceError _ _ => True
  | _ => False
  end.

Lemma sendAll_run events log : sendAll events log = (log ++ events, Returns tt).
Proof.
  revert log. induction events as [|event rest IH]; intros log; simpl.
  - by rewrite app_nil_r.
  - unfold bind, sendEvent. rewrite IH. by rewrite <- app_assoc.
Qed.

(** The tasks of a pool settle with the values [outcomes] names, send
    events that satisfy [P] only, and a value stored is the task's own. *)
Record poolOk (P : StreamEvent -> Prop) (outcomes : list ScrapeResult)
    (pool : Pool) : Prop := {
  ok_tasks_length : List.length (pool_tasks pool) = List.length outcomes;
  ok_values_length : List.length (pool_values pool) = List.length outcomes;
  ok_tasks : forall i task,
    pool_tasks pool !! i = Some task ->
    Forall P (task_events task)
    /\ exists value, outcomes !! i = Some value /\ task_outcome task = Returns value;
  ok_values : forall i value,
    pool_values pool !! i = Some (Some value) -> outcomes !! i = Some value
}.

Definition settled (pool : Pool) (i : nat) : Prop :=
  exists value, pool_values pool !! i = Some (Some value).

Lemma moveTask_run P outcomes i pool log :
  poolOk P outcomes pool ->
  exists extra pool',
    moveTask i pool log = (log ++ extra, Returns pool')
    /\ Forall P extra /\ poolOk P outcomes pool'.
Proof.
  intros Hok. unfold moveTask.
  destruct (pool_tasks pool !! i) as [task|] eqn:Htask;
    [|exists [], pool; by rewrite app_nil_r].
  destruct (pool_values pool !! i) as [[value|]|] eqn:Hvalue;
    try (exists [], pool; by rewrite app_nil_r).
  destruct (ok_tasks _ _ _ Hok i task Htask) as (Hevents & value & Hout & Hret).
  destruct (task_events task) as [|event rest] eqn:Hev.
  - rewrite Hret. exists []. eexists. rewrite app_nil_r.
    split; [reflexivity|]. split; [done|].
    destruct Hok as [Hlt Hlv Hts Hvs]. split; simpl; try done.
    + by rewrite length_insert.
    + intros j v. destruct (decide (i = j)) as [<-|Hne].
      * rewrite list_lookup_insert_eq by (by eapply lookup_lt_Some).
        by intros [= <-].
      * rewrite list_lookup_insert_ne by done. apply Hvs.
  - exists [event]. eexists. split; [reflexivity|].
    apply Forall_cons in Hevents as [Hevent Hrest]. split; [by constructor|].
    destruct Hok as [Hlt Hlv Hts Hvs]. split; simpl; try done.
    + by rewrite length_insert.
    + intros j t. destruct (decide (i = j)) as [<-|Hne].
      * rewrite list_lookup_insert_eq by (by eapply lookup_lt_Some).
        intros [= <-]. simpl. split; [done|]. by exists value.
      * rewrite list_lookup_insert_ne by done. apply Hts.
Qed.

Lemma runSchedule_run P outcomes schedule :
  forall pool log,
    poolOk P outcomes pool ->
    exists extra pool',
      runSchedule schedule pool log = (log ++ extra, Returns pool')
      /\ Forall P extra /\ poolOk P outcomes pool'.
Proof.
  induction schedule as [|i rest IH]; intros pool log Hok; simpl.
  - exists [], pool. by rewrite app_nil_r.
  - destruct (moveTask_run P outcomes i pool log Hok)
      as (extra1 & pool1 & Hmove & HP1 & Hok1).
    destruct (IH pool1 (log ++ extra1) Hok1) as (extra2 & pool2 & Hrun & HP2 & Hok2).
    exists (extra1 ++ extra2), pool2. unfold bind. rewrite Hmove, Hrun.
    split; [by rewrite app_assoc|]. split; [by apply Forall_app|done].
Qed.

Lemma finishTask_run P outcomes i pool log :
  poolOk P outcomes pool ->
  exists extra pool',
    finishTask i pool log = (log ++ extra, Returns pool')
    /\ Forall P extra /\ poolOk P outcomes pool'
    /\ ((i < List.length outcomes)%nat -> settled pool' i)
    /\ forall j, settled pool j -> settled pool' j.
Proof.
  intros Hok. unfold finishTask.
  destruct (pool_tasks pool !! i) as [task|] eqn:Htask.
  2:{ exists [], pool. rewrite app_nil_r.
      split; [done|]. split; [done|]. split; [done|]. split; [|done].
      intros Hi. apply lookup_ge_None in Htask.
      rewrite (ok_tasks_length _ _ _ Hok) in Htask. lia. }
  destruct (pool_values pool !! i) as [[value|]|] eqn:Hvalue.
  - exists [], pool. rewrite app_nil_r.
    split; [done|]. split; [done|]. split; [done|]. split; [|done].
    intros _. by exists value.
  - destruct (ok_tasks _ _ _ Hok i task Htask) as (Hevents & value & Hout & Hret).
    unfold bind. rewrite sendAll_run, Hret.
    exists (task_events task). eexists. split; [reflexivity|]. split; [done|].
    destruct Hok as [Hlt Hlv Hts Hvs]. split; [split; simpl|split]; try done.
    + by rewrite length_insert.
    + by rewrite length_insert.
    + intros j t. destruct (decide (i = j)) as [<-|Hne].
      * rewrite list_lookup_insert_eq by (by eapply lookup_lt_Some).
        intros [= <-]. simpl. split; [done|]. by exists value.
      * rewrite list_lookup_insert_ne by done. apply Hts.
    + intros j v. destruct (decide (i = j)) as [<-|Hne].
      * rewrite list_lookup_insert_eq by (by eapply lookup_lt_Some).
        by intros [= <-].
      * rewrite list_lookup_insert_ne by done. apply Hvs.
    + intros _. exists value. simpl.
      by rewrite list_lookup_insert_eq by (by eapply lookup_lt_Some).
    + intros j [v Hj]. exists v. simpl.
      destruct (decide (i = j)) as [<-|Hne]; [congruence|].
      by rewrite list_lookup_insert_ne.
  - apply lookup_ge_None in Hvalue. apply lookup_lt_Some in Htask.
    rewrite (ok_values_length _ _ _ Hok) in Hvalue.
    rewrite (ok_tasks_length _ _ _ Hok) in Htask. lia.
Qed.

Lemma finishTasks_run P outcomes indices :
  forall pool log,
    poolOk P outcomes pool ->
    exists extra pool',
      finishTasks indices pool log = (log ++ extra, Returns pool')
      /\ Forall P extra /\ poolOk P outcomes pool'
      /\ (forall i, i ∈ indices -> (i < List.length outcomes)%nat -> settled pool' i)
      /\ forall j, settled pool j -> settled pool' j.
Proof.
  induction indices as [|i rest IH]; intros pool log Hok; simpl.
  - exists [], pool. rewrite app_nil_r.
    split; [done|]. split; [done|]. split; [done|]. split; [|done].
    intros i Hi. by apply elem_of_nil in Hi.
  - destruct (finishTask_run P outcomes i pool log Hok)
      as (extra1 & pool1 & Hfinish & HP1 & Hok1 & Hset1 & Hkeep1).
    destruct (IH pool1 (log ++ extra1) Hok1)
      as (extra2 & pool2 & Hrun & HP2 & Hok2 & Hset2 & Hkeep2).
    exists (extra1 ++ extra2), pool2. unfold bind. rewrite Hfinish, Hrun.
    split; [by rewrite app_assoc|]. split; [by apply Forall_app|].
    split; [done|]. split.
    + intros j Hj Hlt. apply elem_of_cons in Hj as [->|Hj]; auto.
    + auto.
Qed.

Lemma omap_id_Some {A : Type} (l : list A) : omap id (Some <$> l) = l.
Proof. induction l as [|x l IH]; [done|]. csimpl. by rewrite IH. Qed.

(** The join of tasks that all fulfil resolves, whatever the schedule,
    with the tasks' values in the order of the tasks. *)
Lemma promiseAll_run P schedule tasks outcomes log :
  List.length tasks = List.length outcomes ->
  (forall i task,
     tasks !! i = Some task ->
     Forall P (task_events task)
     /\ exists value, outcomes !! i = Some value /\ task_outcome task = Returns value) ->
  exists extra,
    promiseAll schedule tasks log = (log ++ extra, Returns outcomes)
    /\ Forall P extra.
Proof.
  intros Hlen Htasks.
  assert (Hok : poolOk P outcomes
                  {| pool_tasks := tasks;
                     pool_values := replicate (List.length tasks) None |}).
  { split; simpl; try done.
    - by rewrite length_replicate.
    - intros i value Hi. apply lookup_replicate in Hi as [[=] _]. }
  destruct (runSchedule_run P outcomes schedule _ log Hok)
    as (extra1 & pool1 & Hrun & HP1 & Hok1).
  destruct (finishTasks_run P outcomes (seq 0 (List.length tasks)) pool1
              (log ++ extra1) Hok1)
    as (extra2 & pool2 & Hfinish & HP2 & Hok2 & Hset & _).
  exists (extra1 ++ extra2). unfold promiseAll, bind.
  rewrite Hrun, Hfinish. unfold ret. rewrite app_assoc.
  split; [|by apply Forall_app].
  f_equal. f_equal.
  assert (Hvalues : pool_values pool2 = Some <$> outcomes).
  { apply list_eq. intros i. rewrite list_lookup_fmap.
    destruct (decide (i < List.length outcomes)%nat) as [Hlt|Hge].
    - destruct (Hset i) as [value Hvalue]; [|done|].
      { apply elem_of_seq. lia. }
      rewrite Hvalue. by rewrite (ok_values _ _ _ Hok2 i value Hvalue).
    - rewrite (proj2 (lookup_ge_None _ _))
        by (rewrite (ok_values_length _ _ _ Hok2); lia).
      by rewrite (proj2 (lookup_ge_None outcomes i)) by lia. }
  rewrite Hvalues. apply omap_id_Some.
Qed.

(** ** The run *)

Definition chunkOf (section : string) : string := section +:+ LF.

(** The concatenation of strings, in order. *)
Definition concatenation (parts : list string) : string :=
  foldr String.append EmptyString parts.

(** The payloads of the [guide_chunk] events of a stream, in order. *)
Definition guideChunks (events : list StreamEvent) : list string :=
  omap (fun event =>
          match event with
          | EvGuideChunk chunk => Some chunk
          | _ => None
          end) events.

(** The events that end a stream. *)
Definition isTerminal (event : StreamEvent) : Prop :=
  match event with
  | EvComplete _ _ _ | EvError _ => True
  | _ => False
  end.

(** The events before the guide is streamed: neither a chunk nor the
    end of the stream. *)
Definition isProgress (event : StreamEvent) : Prop :=
  match event with
  | EvGuideChunk _ | EvComplete _ _ _ | EvError _ => False
  | _ => True
  end.

Lemma isSourceEvent_isProgress event : isSourceEvent event -> isProgress event.
Proof. by destruct event. Qed.

Lemma guideChunks_app events1 events2 :
  guideChunks (events1 ++ events2) = guideChunks events1 ++ guideChunks events2.
Proof. apply omap_app. Qed.

Lemma guideChunks_progress events :
  Forall isProgress events -> guideChunks events = [].
Proof.
  induction 1 as [|event rest Hevent _ IH]; [done|].
  unfold guideChunks in *. csimpl. rewrite IH. by destruct event.
Qed.

Lemma guideChunks_chunks chunks : guideChunks (map EvGuideChunk chunks) = chunks.
Proof.
  induction chunks as [|chunk rest IH]; [done|].
  unfold guideChunks in *. csimpl. by rewrite IH.
Qed.

Lemma streamSections_run sections :
  forall streamedGuide log,
    streamSections sections streamedGuide log
    = (log ++ map EvGuideChunk (map chunkOf sections),
       Returns (streamedGuide +:+ concatenation (map chunkOf sections))).
Proof.
  induction sections as [|section rest IH]; intros streamedGuide log; simpl.
  - rewrite app_nil_r. unfold ret. do 2 f_equal.
    induction streamedGuide as [|c s IHs]; [done|].
    by rewrite append_cons, <- IHs.
  - unfold bind, sendEvent. rewrite IH. rewrite <- app_assoc. simpl.
    by rewrite append_assoc.
Qed.

(** What a successful run sends from the first chunk on. *)
Definition successTail (Date_toLocaleString : string -> string)
    (generatedAt topic : string) (discoveredSources : list DiscoveredSource)
    (successfulScrapes : list ScrapeSuccess) : list StreamEvent :=
  let chunks :=
    map chunkOf
      (sections (buildGuideMarkdown Date_toLocaleString generatedAt topic
                   successfulScrapes)) in
  let finalGuide := trim (concatenation chunks) in
  map EvGuideChunk chunks
  ++ [ EvPhase PhaseComplete "Guide generation complete.";
       EvComplete finalGuide discoveredSources
         {| sourceCount := List.length discoveredSources;
            successCount := List.length successfulScrapes;
            generatedWords := countWords finalGuide |} ].

(** A success whose extraction lists at least one resource. *)
Definition hasResources (s : ScrapeSuccess) : Prop :=
  resources (extracted s) <> [].

Lemma uniqueResources_nonempty values max :
  (0 < max)%nat -> values <> [] -> uniqueResources values max <> [].
Proof.
  intros Hmax Hvalues. rewrite uniqueResources_firstOccurrences by done.
  destruct values as [|value rest]; [done|]. simpl.
  rewrite bool_decide_eq_false_2 by set_solver.
  by destruct max; [lia|].
Qed.

Lemma normalizeExtraction_resources_nonempty JSON_parse raw source extraction :
  normalizeExtraction JSON_parse raw source = Returns extraction ->
  resources extraction <> [].
Proof.
  intros Hret. rewrite (normalizeExtraction_resources_eq _ _ _ _ Hret).
  apply uniqueResources_nonempty; [lia|]. by destruct (listedResources _ _).
Qed.

(** With at least one success that lists a resource, the resources
    section is not empty. *)
Lemma renderResources_nonempty results :
  results <> [] -> Forall hasResources results ->
  isEmpty (renderResources results) = false.
Proof.
  intros Hresults Hall. unfold renderResources.
  assert (Hlinks : uniqueResources
                     (flat_map (fun item => resources (extracted item)) results) 40
                   <> []).
  { apply uniqueResources_nonempty; [lia|].
    destruct results as [|item rest]; [done|].
    apply Forall_cons in Hall as [Hitem _]. unfold hasResources in Hitem.
    simpl. by destruct (resources (extracted item)). }
  destruct (uniqueResources _ 40) as [|link rest]; [done|]. simpl map.
  by apply isEmpty_join_cons.
Qed.

Section RouteFacts.

Variable JSON_parse : string -> option JsValue.
Variable Date_toLocaleString : string -> string.
Variable search : string -> option (list SearchResult).
Variable URL_withoutHash : string -> option string.
Variable encodeURIComponent : string -> Completion string.
Variable network : nat -> TinyFishTaskRequest -> string -> FetchOutcome.

Lemma callbackEvents_source source calls :
  Forall isSourceEvent (map (callbackEvent source) calls).
Proof.
  induction calls as [|call rest IH]; simpl; constructor; [by destruct call|done].
Qed.

(** A task sends events of the scraping phase only and fulfils with an
    outcome for its own source: it never rejects. *)
Lemma scrapeSource_run topic apiKey index source log :
  exists events value,
    scrapeSource JSON_parse network topic apiKey index source log
    = (log ++ events, Returns value)
    /\ Forall isSourceEvent events
    /\ result_source value = source
    /\ forall s, value = StatusComplete s -> hasResources s.
Proof.
  unfold scrapeSource, bind, sendEvent.
  destruct (runTinyFishTask JSON_parse (network index) _ apiKey)
    as [calls runResult].
  rewrite sendAll_run.
  pose proof (callbackEvents_source source calls) as Hcalls.
  destruct (negb (success runResult) || isUndefined (result runResult))
    eqn:Hfailed.
  - eexists (_ :: map (callbackEvent source) calls ++ [_]), _.
    rewrite <- !app_assoc. split; [reflexivity|]. split; [|done].
    constructor; [done|]. apply Forall_app. split; [done|]. by constructor.
  - apply orb_false_elim in Hfailed as [_ Hdefined].
    destruct (normalizeExtraction_defined JSON_parse _ source Hdefined)
      as [extraction Hextraction]. rewrite Hextraction.
    eexists (_ :: map (callbackEvent source) calls ++ [_]), _.
    rewrite <- !app_assoc. split; [reflexivity|]. split; [|split; [done|]].
    + constructor; [done|]. apply Forall_app. split; [done|]. by constructor.
    + intros s [= <-]. unfold hasResources. simpl.
      by eapply normalizeExtraction_resources_nonempty.
Qed.

Lemma taskOf_run topic apiKey index source :
  Forall isSourceEvent (task_events (taskOf JSON_parse network topic apiKey index source))
  /\ exists value,
       task_outcome (taskOf JSON_parse network topic apiKey index source)
       = Returns value
       /\ result_source value = source
       /\ forall s, value = StatusComplete s -> hasResources s.
Proof.
  unfold taskOf.
  destruct (scrapeSource_run topic apiKey index source [])
    as (events & value & -> & Hevents & Hsource & Hresources).
  simpl. split; [done|]. by exists value.
Qed.

(** The value a task fulfils with. *)
Definition valueOf (task : Task) (source : DiscoveredSource) : ScrapeResult :=
  match task_outcome task with
  | Returns value => value
  | Throws _ => StatusError {| err_source := source; err_error := JUndefined |}
  end.

Lemma scrapeAll_run schedule topic apiKey discoveredSources log :
  exists events scrapeResults,
    scrapeAll JSON_parse network schedule topic apiKey discoveredSources log
    = (log ++ events, Returns scrapeResults)
    /\ Forall isSourceEvent events
    /\ List.length scrapeResults = List.length discoveredSources
    /\ (forall i source,
          discoveredSources !! i = Some source ->
          exists value,
            scrapeResults !! i = Some value
            /\ result_source value = source
            /\ task_outcome (taskOf JSON_parse network topic apiKey i source)
               = Returns value)
    /\ Forall hasResources (omap successOf scrapeResults).
Proof.
  set (outcomes :=
         imap (fun i source =>
                 valueOf (taskOf JSON_parse network topic apiKey i source) source)
           discoveredSources).
  assert (Hvalue : forall i source,
             discoveredSources !! i = Some source ->
             exists value,
               outcomes !! i = Some value
               /\ result_source value = source
               /\ task_outcome (taskOf JSON_parse network topic apiKey i source)
                  = Returns value).
  { intros i source Hi. unfold outcomes. rewrite list_lookup_imap, Hi. simpl.
    destruct (taskOf_run topic apiKey i source) as (_ & value & Hout & Hsource & _).
    exists value. unfold valueOf. by rewrite Hout. }
  destruct (promiseAll_run isSourceEvent schedule
              (imap (taskOf JSON_parse network topic apiKey) discoveredSources)
              outcomes log) as (events & Hrun & Hevents).
  - unfold outcomes. by rewrite !length_imap.
  - intros i task. rewrite list_lookup_imap.
    destruct (discoveredSources !! i) as [source|] eqn:Hi; [|discriminate].
    intros [= <-]. split; [apply taskOf_run|].
    destruct (Hvalue i source Hi) as (value & Hout & _ & Hret). by exists value.
  - exists events, outcomes. split; [exact Hrun|]. split; [done|].
    split; [unfold outcomes; by rewrite length_imap|]. split; [done|].
    apply Forall_forall. intros s Hs.
    apply list_elem_of_omap in Hs as (value & Hin & Hsuccess).
    destruct value as [s'|failure]; [|discriminate]. injection Hsuccess as ->.
    apply list_elem_of_lookup in Hin as [i Hi].
    destruct (discoveredSources !! i) as [source|] eqn:Hsource.
    + destruct (Hvalue i source Hsource) as (value & Hout & _ & Hret).
      rewrite Hi in Hout. injection Hout as <-.
      destruct (taskOf_run topic apiKey i source) as (_ & value & Hret' & _ & Hres).
      rewrite Hret in Hret'. injection Hret' as <-. by apply Hres.
    + apply lookup_ge_None in Hsource. apply lookup_lt_Some in Hi.
      unfold outcomes in Hi. rewrite length_imap in Hi. lia.
Qed.

(** C4: for every list of discovered sources, every schedule of the
    concurrent tasks and every behaviour of the agent, the orchestration
    step returns; the list it returns has the length of the source list,
    and its entry at index [i] is the outcome of the task for the source
    at index [i] (a success or a failure for that very source).  So no
    source's failure removes or moves a sibling's outcome. *)
Theorem scrapeAll_one_result_per_source (schedule : list nat)
    (topic apiKey : string) (discoveredSources : list DiscoveredSource)
    (log : list StreamEvent) :
  exists events scrapeResults,
    scrapeAll JSON_parse network schedule topic apiKey discoveredSources log
    = (log ++ events, Returns scrapeResults)
    /\ List.length scrapeResults = List.length discoveredSources
    /\ forall i source,
         discoveredSources !! i = Some source ->
         exists value,
           scrapeResults !! i = Some value
           /\ result_source value = source
           /\ task_outcome (taskOf JSON_parse network topic apiKey i source)
              = Returns value.
Proof.
  destruct (scrapeAll_run schedule topic apiKey discoveredSources log)
    as (events & scrapeResults & Hrun & _ & Hlen & Hat & _).
  by exists events, scrapeResults.
Qed.

(** From the discovered sources on, a run either throws after progress
    events only, or sends progress events and then the chunks, the
    [complete] phase and the [complete] event. *)
Lemma scrapeAndSynthesize_run generatedAt schedule topic apiKey discoveredSources log :
  (exists extra message,
     scrapeAndSynthesize JSON_parse Date_toLocaleString network generatedAt
       schedule topic apiKey discoveredSources log
     = (log ++ extra, Throws (ErrorObject message))
     /\ Forall isProgress extra)
  \/ (exists extra successfulScrapes,
        scrapeAndSynthesize JSON_parse Date_toLocaleString network generatedAt
          schedule topic apiKey discoveredSources log
        = (log ++ extra
           ++ successTail Date_toLocaleString generatedAt topic discoveredSources
                successfulScrapes,
           Returns tt)
        /\ Forall isProgress extra
        /\ successfulScrapes <> []
        /\ Forall hasResources successfulScrapes).
Proof.
  unfold scrapeAndSynthesize.
  destruct (List.length discoveredSources =? 0)%nat.
  { left. exists [], "No sources were discovered for this topic.".
    by rewrite app_nil_r. }
  cbv zeta. unfold bind, sendEvent. cbv beta.
  match goal with
  | |- context [scrapeAll _ _ ?sch ?t ?k ?srcs ?lg] =>
      destruct (scrapeAll_run sch t k srcs lg)
        as (events & scrapeResults & Hrun & Hevents & _ & _ & Hresources)
  end.
  rewrite Hrun.
  assert (Hprogress : Forall isProgress events).
  { eapply Forall_impl; [exact Hevents|apply isSourceEvent_isProgress]. }
  destruct (List.length (omap successOf scrapeResults) =? 0)%nat eqn:Hnone.
  - left. eexists (_ :: _ :: events), _. rewrite <- !app_assoc.
    split; [reflexivity|]. by repeat constructor.
  - right.
    exists ([ EvDiscoveryComplete discoveredSources;
              EvPhase PhaseScraping
                ("Scraping " +:+ pretty (List.length discoveredSources)
                 +:+ " sources in parallel with TinyFish...") ]
            ++ events
            ++ [ EvPhase PhaseSynthesizing
                   "Synthesizing a single markdown skill guide..." ]),
      (omap successOf scrapeResults).
    rewrite streamSections_run.
    unfold successTail. cbv zeta. split.
    + f_equal. rewrite <- !app_assoc. reflexivity.
    + split; [|split; [|done]].
      * constructor; [done|]. constructor; [done|].
        apply Forall_app. split; [done|]. by constructor.
      * intros Hnil. by rewrite Hnil in Hnone.
Qed.

(** The three shapes of a run's stream. *)
Definition validationShape (events : list StreamEvent) : Prop :=
  exists message, events = [EvError message].

Definition fatalShape (events : list StreamEvent) : Prop :=
  exists progress message,
    events = progress ++ [EvPhase PhaseError message; EvError message]
    /\ Forall isProgress progress.

Definition successShape (generatedAt : string) (events : list StreamEvent) : Prop :=
  exists progress topic discoveredSources successfulScrapes,
    events
    = progress
      ++ successTail Date_toLocaleString generatedAt topic discoveredSources
           successfulScrapes
    /\ Forall isProgress progress
    /\ successfulScrapes <> []
    /\ Forall hasResources successfulScrapes.

Lemma POST_catch_run error log :
  exists message,
    POST_catch error log
    = (log ++ [EvPhase PhaseError message; EvError message], Returns tt).
Proof.
  unfold POST_catch, bind, sendEvent. eexists. by rewrite <- app_assoc.
Qed.

(** The run from the [discovering] phase on. *)
Definition discoverAndRun (generatedAt : string) (schedule : list nat)
    (topic apiKey : string) (maxPerType : nat) : Run unit :=
  sendEvent (EvPhase PhaseDiscovering
               "Discovering relevant docs, GitHub, Stack Overflow, and blog sources...") ;;
  discoveredSources <-
    await (discoverSources search URL_withoutHash encodeURIComponent topic maxPerType) ;;
  scrapeAndSynthesize JSON_parse Date_toLocaleString network generatedAt schedule
    topic apiKey discoveredSources.

Lemma discoverAndRun_shape generatedAt schedule topic apiKey maxPerType :
  let events :=
    fst (tryCatch (discoverAndRun generatedAt schedule topic apiKey maxPerType)
           POST_catch []) in
  fatalShape events \/ successShape generatedAt events.
Proof.
  set (discovering :=
         EvPhase PhaseDiscovering
           "Discovering relevant docs, GitHub, Stack Overflow, and blog sources...").
  intros events.
  destruct (discoverSources search URL_withoutHash encodeURIComponent topic
              maxPerType) as [discoveredSources|thrown] eqn:Hdiscovered.
  2:{ left. exists [discovering].
      destruct (POST_catch_run thrown ([] ++ [discovering])) as [m Hm].
      exists m. split; [|by repeat constructor].
      unfold events, tryCatch, discoverAndRun, bind, sendEvent, await.
      fold discovering. by rewrite Hdiscovered, Hm. }
  destruct (scrapeAndSynthesize_run generatedAt schedule topic apiKey
              discoveredSources ([] ++ [discovering]))
    as [(extra & message & Hrun & Hextra)
       |(extra & successes & Hrun & Hextra & Hsome & Hresources)].
  - left. exists (discovering :: extra).
    destruct (POST_catch_run (ErrorObject message) (([] ++ [discovering]) ++ extra))
      as [m Hm].
    exists m. split; [|by constructor].
    unfold events, tryCatch, discoverAndRun, bind, sendEvent, await.
    fold discovering. by rewrite Hdiscovered, Hrun, Hm.
  - right. exists (discovering :: extra), topic, discoveredSources, successes.
    split; [|split; [by constructor|done]].
    unfold events, tryCatch, discoverAndRun, bind, sendEvent, await.
    fold discovering. by rewrite Hdiscovered, Hrun.
Qed.

Lemma POST_shape body env_apiKey generatedAt schedule :
  let events :=
    POST JSON_parse Date_toLocaleString search URL_withoutHash encodeURIComponent
      network body env_apiKey generatedAt schedule in
  validationShape events \/ fatalShape events \/ successShape generatedAt events.
Proof.
  intros events.
  assert (Hthrown : forall message : string,
             fatalShape (fst (POST_catch (ErrorObject message) []))).
  { intros message. by exists [], message. }
  assert (Hvalid : forall message : string,
             validationShape
               (fst (tryCatch (sendEvent (EvError message)) POST_catch []))).
  { intros message. by exists message. }
  assert (Htopic : forall topic : string,
             let events :=
               fst (tryCatch
                      (bind (ret topic) (fun topic =>
                         let maxPerType := readMaxPerType body in
                         if isEmpty topic then sendEvent (EvError "Topic is required.")
                         else if negb (present env_apiKey) then
                           sendEvent
                             (EvError "TINYFISH_API_KEY is not configured on the server.")
                         else
                           discoverAndRun generatedAt schedule topic
                             (default EmptyString env_apiKey) maxPerType))
                      POST_catch []) in
             validationShape events \/ fatalShape events
             \/ successShape generatedAt events).
  { intros topic. cbv zeta.
    change (bind (ret topic) ?k) with (k topic). cbv beta.
    destruct (isEmpty topic); [left; apply Hvalid|].
    destruct (negb (present env_apiKey)); [left; apply Hvalid|].
    right. apply discoverAndRun_shape. }
  unfold events, POST, POST_try, readTopic.
  destruct body as [| |b|n|s|items|fields];
    try (right; left; apply Hthrown).
  all: destruct (getProp _ "topic") as [| |b'|n'|topic|items'|fields'];
    try (right; left; apply Hthrown); apply Htopic.
Qed.

Lemma isProgress_not_terminal event : isProgress event -> ~ isTerminal event.
Proof. destruct event; simpl; tauto. Qed.

(** In a stream whose events but the last are not terminal, nothing
    follows a terminal event. *)
Lemma terminal_is_last (body : list StreamEvent) (final : StreamEvent)
    (pre : list StreamEvent) (event : StreamEvent) (post : list StreamEvent) :
  Forall (fun e => ~ isTerminal e) body ->
  body ++ [final] = pre ++ event :: post ->
  isTerminal event ->
  post = [].
Proof.
  intros Hbody Heq Hterminal.
  destruct post as [|x post' _] using rev_ind; [done|].
  change (pre ++ event :: post' ++ [x]) with (pre ++ (event :: post') ++ [x]) in Heq.
  rewrite app_assoc in Heq. apply app_inj_tail in Heq as [-> _].
  rewrite Forall_app, Forall_cons in Hbody. by destruct Hbody as (_ & Hevent & _).
Qed.

Lemma POST_ends_once body env_apiKey generatedAt schedule :
  exists before final,
    POST JSON_parse Date_toLocaleString search URL_withoutHash encodeURIComponent
      network body env_apiKey generatedAt schedule
    = before ++ [final]
    /\ Forall (fun e => ~ isTerminal e) before.
Proof.
  destruct (POST_shape body env_apiKey generatedAt schedule)
    as [(message & ->)
       |[(progress & message & -> & Hprogress)
        |(progress & topic & sources & successes & -> & Hprogress & _)]].
  - by exists [], (EvError message).
  - exists (progress ++ [EvPhase PhaseError message]), (EvError message).
    rewrite <- app_assoc. split; [done|].
    apply Forall_app. split; [|apply Forall_cons; split; [simpl; tauto|done]].
    eapply Forall_impl; [exact Hprogress|apply isProgress_not_terminal].
  - unfold successTail. cbv zeta.
    eexists (progress ++ map EvGuideChunk _ ++ [EvPhase PhaseComplete _]), _.
    rewrite <- !app_assoc. split; [reflexivity|].
    apply Forall_app. split.
    { eapply Forall_impl; [exact Hprogress|apply isProgress_not_terminal]. }
    apply Forall_app. split; [|apply Forall_cons; split; [simpl; tauto|done]].
    apply Forall_forall. intros e He. apply list_elem_of_fmap in He as (c & -> & _).
    by intros [].
Qed.

(** A run that sends a [complete] event has the shape of a successful
    run, and the event is the one that ends it. *)
Lemma POST_complete body env_apiKey generatedAt schedule guide sources stats :
  EvComplete guide sources stats
  ∈ POST JSON_parse Date_toLocaleString search URL_withoutHash encodeURIComponent
      network body env_apiKey generatedAt schedule ->
  exists progress topic successfulScrapes,
    let chunks :=
      map chunkOf
        (sections (buildGuideMarkdown Date_toLocaleString generatedAt topic
                     successfulScrapes)) in
    POST JSON_parse Date_toLocaleString search URL_withoutHash encodeURIComponent
      network body env_apiKey generatedAt schedule
    = progress
      ++ successTail Date_toLocaleString generatedAt topic sources successfulScrapes
    /\ Forall isProgress progress
    /\ guideChunks
         (POST JSON_parse Date_toLocaleString search URL_withoutHash
            encodeURIComponent network body env_apiKey generatedAt schedule)
       = chunks
    /\ guide = trim (concatenation chunks)
    /\ generatedWords stats = countWords guide
    /\ successfulScrapes <> []
    /\ Forall hasResources successfulScrapes.
Proof.
  intros Hin.
  destruct (POST_shape body env_apiKey generatedAt schedule)
    as [(message & Heq)
       |[(progress & message & Heq & Hprogress)
        |(progress & topic & discovered & successes & Heq & Hprogress
          & Hsome & Hresources)]];
    rewrite Heq in Hin |- *.
  - apply list_elem_of_singleton in Hin. discriminate.
  - apply elem_of_app in Hin as [Hin|Hin].
    + rewrite Forall_forall in Hprogress. by destruct (Hprogress _ Hin).
    + apply elem_of_cons in Hin as [Hin|Hin]; [discriminate|].
      apply list_elem_of_singleton in Hin. discriminate.
  - assert (Htail :
      EvComplete guide sources stats
      ∈ successTail Date_toLocaleString generatedAt topic discovered successes).
    { apply elem_of_app in Hin as [Hin|Hin]; [|done].
      rewrite Forall_forall in Hprogress. by destruct (Hprogress _ Hin). }
    unfold successTail in Htail. cbv zeta in Htail.
    apply elem_of_app in Htail as [Htail|Htail].
    { apply list_elem_of_fmap in Htail as (c & Hc & _). discriminate. }
    apply elem_of_cons in Htail as [Htail|Htail]; [discriminate|].
    apply list_elem_of_singleton in Htail. injection Htail as -> -> ->.
    exists progress, topic, successes. cbv zeta.
    split; [done|]. split; [done|]. split; [|done].
    rewrite guideChunks_app, (guideChunks_progress _ Hprogress).
    unfold successTail. cbv zeta.
    rewrite guideChunks_app, guideChunks_chunks.
    change (guideChunks [_; _]) with (@nil string).
    by rewrite app_nil_r.
Qed.

(** C3: in a run that sends the [complete] event, [generatedWords] is
    the number of non-empty white-space separated tokens of the trimmed
    concatenation, in the order sent, of the payloads of the run's
    [guide_chunk] events, and it is the word count of the [guide] the
    same event carries. *)
Theorem complete_generatedWords (body : JsValue) (env_apiKey : option string)
    (generatedAt : string) (schedule : list nat)
    (guide : string) (sources : list DiscoveredSource) (stats : GenerationStats) :
  let events :=
    POST JSON_parse Date_toLocaleString search URL_withoutHash encodeURIComponent
      network body env_apiKey generatedAt schedule in
  EvComplete guide sources stats ∈ events ->
  generatedWords stats
  = List.length
      (filterBoolean
         (splitWhiteSpace (trim (concatenation (guideChunks events)))))
  /\ generatedWords stats = countWords guide.
Proof.
  intros events Hin.
  destruct (POST_complete _ _ _ _ _ _ _ Hin)
    as (progress & topic & successes & _ & _ & Hchunks & Hguide & Hwords & _).
  split; [|done]. unfold events. rewrite Hchunks, Hwords, Hguide.
  unfold countWords. by rewrite trim_idempotent.
Qed.

(** C6 (amended): in a run that sends the [complete] event, the [guide]
    it carries is the concatenation, in the order sent, of the payloads
    of the run's [guide_chunk] events with the white space at its ends
    trimmed off. *)
Theorem complete_guide_is_trimmed_chunks (body : JsValue)
    (env_apiKey : option string) (generatedAt : string) (schedule : list nat)
    (guide : string) (sources : list DiscoveredSource) (stats : GenerationStats) :
  let events :=
    POST JSON_parse Date_toLocaleString search URL_withoutHash encodeURIComponent
      network body env_apiKey generatedAt schedule in
  EvComplete guide sources stats ∈ events ->
  guide = trim (concatenation (guideChunks events)).
Proof.
  intros events Hin.
  destruct (POST_complete _ _ _ _ _ _ _ Hin)
    as (progress & topic & successes & _ & _ & Hchunks & Hguide & _).
  unfold events. by rewrite Hchunks.
Qed.

(** C7: a run whose [try] block throws sends, after what it had sent,
    the [error] phase and the [error] event with the same message; and
    in every run nothing follows a [complete] or an [error] event, in the
    events sent and in the events delivered when the writer fails at some
    point.  So no [complete] follows an [error], and no [error] a
    [complete]. *)
Theorem POST_terminal_events (body : JsValue) (env_apiKey : option string)
    (generatedAt : string) (schedule : list nat) :
  let events :=
    POST JSON_parse Date_toLocaleString search URL_withoutHash encodeURIComponent
      network body env_apiKey generatedAt schedule in
  (forall sent thrown,
     POST_try JSON_parse Date_toLocaleString search URL_withoutHash
       encodeURIComponent network body env_apiKey generatedAt schedule []
     = (sent, Throws thrown) ->
     exists message,
       events = sent ++ [EvPhase PhaseError message; EvError message])
  /\ (forall pre event post,
        events = pre ++ event :: post -> isTerminal event -> post = [])
  /\ (forall writeFailure pre event post,
        delivered writeFailure events = pre ++ event :: post ->
        isTerminal event -> post = []).
Proof.
  intros events.
  assert (Hlast : forall pre event post,
             events = pre ++ event :: post -> isTerminal event -> post = []).
  { intros pre event post Heq Hterminal.
    destruct (POST_ends_once body env_apiKey generatedAt schedule)
      as (before & final & Hshape & Hbefore).
    fold events in Hshape. rewrite Hshape in Heq.
    by eapply terminal_is_last. }
  split; [|split; [exact Hlast|]].
  - intros sent thrown Htry. unfold events, POST, tryCatch. rewrite Htry.
    destruct (POST_catch_run thrown sent) as [message ->]. by exists message.
  - intros [k|] pre event post Heq Hterminal; simpl in Heq; [|by eapply Hlast].
    assert (Hsplit : events = pre ++ event :: (post ++ List.skipn k events)).
    { rewrite <- (firstn_skipn k events) at 1. rewrite Heq.
      by rewrite <- app_assoc. }
    apply Hlast in Hsplit; [|done].
    by apply app_eq_nil in Hsplit as [-> _].
Qed.

(** C9 (amended): a run that sends the [complete] event sends exactly
    six [guide_chunk] events, one per section in the order header,
    Overview, Core Concepts, Practical Examples, Common Gotchas,
    Resources, and each chunk is a non-empty string that starts with its
    section's fixed heading.  The overview, concepts, examples and
    gotchas renderers return non-empty text for every input, by their
    placeholder sentences; the resources renderer has no placeholder, and
    its text is non-empty in such a run because every successful
    extraction lists at least one resource. *)
Theorem complete_six_chunks (body : JsValue) (env_apiKey : option string)
    (generatedAt : string) (schedule : list nat)
    (guide : string) (sources : list DiscoveredSource) (stats : GenerationStats) :
  let events :=
    POST JSON_parse Date_toLocaleString search URL_withoutHash encodeURIComponent
      network body env_apiKey generatedAt schedule in
  EvComplete guide sources stats ∈ events ->
  exists topic successfulScrapes,
    guideChunks events
    = [ chunkOf ("# " +:+ topic +:+ " Skill Guide" +:+ LF +:+ LF
                 +:+ "Generated: " +:+ formatDate Date_toLocaleString generatedAt
                 +:+ LF +:+ "Sources scraped successfully: "
                 +:+ pretty (List.length successfulScrapes) +:+ LF +:+ LF);
        chunkOf ("## Overview" +:+ LF +:+ LF
                 +:+ renderOverview successfulScrapes +:+ LF);
        chunkOf ("## Core Concepts" +:+ LF +:+ LF
                 +:+ renderCoreConcepts successfulScrapes +:+ LF);
        chunkOf ("## Practical Examples" +:+ LF +:+ LF
                 +:+ renderExamples successfulScrapes +:+ LF);
        chunkOf ("## Common Gotchas" +:+ LF +:+ LF
                 +:+ renderGotchas successfulScrapes +:+ LF);
        chunkOf ("## Resources" +:+ LF +:+ LF
                 +:+ renderResources successfulScrapes +:+ LF) ]
    /\ List.length (guideChunks events) = 6%nat
    /\ Forall (fun chunk => isEmpty chunk = false) (guideChunks events)
    /\ isEmpty (renderOverview successfulScrapes) = false
    /\ isEmpty (renderCoreConcepts successfulScrapes) = false
    /\ isEmpty (renderExamples successfulScrapes) = false
    /\ isEmpty (renderGotchas successfulScrapes) = false
    /\ isEmpty (renderResources successfulScrapes) = false.
Proof.
  intros events Hin.
  destruct (POST_complete _ _ _ _ _ _ _ Hin)
    as (progress & topic & successes & _ & _ & Hchunks & _ & _ & Hsome & Hresources).
  exists topic, successes. unfold events. rewrite Hchunks.
  rewrite buildGuideMarkdown_sections. unfold bodySections. simpl map.
  split; [reflexivity|]. split; [reflexivity|]. split.
  - repeat (apply Forall_cons; split;
              [unfold chunkOf; rewrite isEmpty_append; apply andb_false_r|]).
    apply Forall_nil_2.
  - split; [apply renderOverview_nonempty|].
    split; [apply renderCoreConcepts_nonempty|].
    split; [apply renderExamples_nonempty|].
    split; [apply renderGotchas_nonempty|].
    by apply renderResources_nonempty.
Qed.


End RouteFacts.

(** ** Sample runs *)

(** A platform for the samples: the search provider is down, a URL is
    taken as it is written, and event payloads are named by a letter. *)
Definition search_down (query : string) : option (list SearchResult) := None.
Definition URL_as_written (url : string) : option string := Some url.
Definition encode_as_written (text : string) : Completion string := Returns text.
Definition locale_as_written (iso : string) : string := iso.

Definition parse_sample (text : string) : option JsValue :=
  if String.eqb text "C" then
    Some (JObj [ ("type", JStr "COMPLETE");
                 ("resultJson",
                  JObj [ ("overview", JStr "Containers package an application.");
                         ("coreConcepts", JArr [ JStr "image"; JStr "Image"; JStr "layer" ]);
                         ("rawText", JStr "one two  three") ]) ])
  else if String.eqb text "S" then
    Some (JObj [ ("type", JStr "STEP"); ("purpose", JStr "Opening page") ])
  else if String.eqb text "F" then
    Some (JObj [ ("type", JStr "ERROR"); ("message", JStr "boom") ])
  else None.

(** The first source's task ends with a completion event, the second
    with a failure event, the third has no response body, and the last
    one's stream ends without a terminal event. *)
Definition network_sample (index : nat) (request : TinyFishTaskRequest)
    (apiKey : string) : FetchOutcome :=
  match index with
  | 0%nat => FetchBody [ "data: S" +:+ LF +:+ "data:"; " C" +:+ LF ] None
  | 1%nat => FetchBody [ "data: F" +:+ LF ] None
  | 2%nat => FetchNoBody
  | _ => FetchBody [ "data: S" ] None
  end.

Definition network_down (index : nat) (request : TinyFishTaskRequest)
    (apiKey : string) : FetchOutcome := FetchNoBody.

Definition body_sample : JsValue :=
  JObj [ ("topic", JStr " Docker "); ("maxPerType", JNum 1) ].

Definition schedule_sample : list nat := [3; 2; 1; 0; 0; 1; 2; 3; 0]%nat.

Definition run_sample : list StreamEvent :=
  POST parse_sample locale_as_written search_down URL_as_written encode_as_written
    network_sample body_sample (Some "key") "2026-01-01T00:00:00.000Z"
    schedule_sample.

Definition run_all_failed : list StreamEvent :=
  POST parse_sample locale_as_written search_down URL_as_written encode_as_written
    network_down body_sample (Some "key") "2026-01-01T00:00:00.000Z"
    schedule_sample.

(** The [complete] event of the sample run. *)
Definition guide_sample : string :=
  match List.last run_sample (EvError EmptyString) with
  | EvComplete guide _ _ => guide
  | _ => EmptyString
  end.

Definition sources_sample : list DiscoveredSource :=
  match List.last run_sample (EvError EmptyString) with
  | EvComplete _ sources _ => sources
  | _ => []
  end.

Definition stats_sample : GenerationStats :=
  match List.last run_sample (EvError EmptyString) with
  | EvComplete _ _ stats => stats
  | _ => {| sourceCount := 0; successCount := 0; generatedWords := 0 |}
  end.

Lemma run_sample_complete :
  EvComplete guide_sample sources_sample stats_sample ∈ run_sample.
Proof.
  apply list_elem_of_lookup. exists 20%nat. vm_compute. reflexivity.
Defined.

Example run_sample_stats :
  stats_sample = {| sourceCount := 4; successCount := 1; generatedWords := 72 |}.
Proof. vm_compute. reflexivity. Qed.

Lemma complete_generatedWords_witness :
  EvComplete guide_sample sources_sample stats_sample ∈ run_sample
  /\ generatedWords stats_sample
     = List.length
         (filterBoolean
            (splitWhiteSpace (trim (concatenation (guideChunks run_sample)))))
  /\ generatedWords stats_sample = countWords guide_sample.
Proof.
  split; [exact run_sample_complete|].
  exact (complete_generatedWords parse_sample locale_as_written search_down
           URL_as_written encode_as_written network_sample body_sample (Some "key")
           "2026-01-01T00:00:00.000Z" schedule_sample
           guide_sample sources_sample stats_sample run_sample_complete).
Defined.

Lemma complete_guide_is_trimmed_chunks_witness :
  EvComplete guide_sample sources_sample stats_sample ∈ run_sample
  /\ guide_sample = trim (concatenation (guideChunks run_sample)).
Proof.
  split; [exact run_sample_complete|].
  exact (complete_guide_is_trimmed_chunks parse_sample locale_as_written
           search_down URL_as_written encode_as_written network_sample body_sample
           (Some "key") "2026-01-01T00:00:00.000Z" schedule_sample
           guide_sample sources_sample stats_sample run_sample_complete).
Defined.

(** C6 as stated fails in the sample run: the concatenation of the
    chunks ends with the line breaks the trimmed guide has lost. *)
Lemma chunks_concatenation_is_not_the_guide :
  EvComplete guide_sample sources_sample stats_sample ∈ run_sample
  /\ String.length (concatenation (guideChunks run_sample)) = 581%nat
  /\ String.length guide_sample = 579%nat
  /\ concatenation (guideChunks run_sample) <> guide_sample.
Proof.
  split; [exact run_sample_complete|].
  assert (Hchunks : String.length (concatenation (guideChunks run_sample)) = 581%nat)
    by (vm_compute; reflexivity).
  assert (Hguide : String.length guide_sample = 579%nat)
    by (vm_compute; reflexivity).
  split; [exact Hchunks|]. split; [exact Hguide|].
  intros Heq.
  pose proof (eq_trans (eq_sym Hchunks)
                (eq_trans (f_equal String.length Heq) Hguide)) as Hlen.
  clear -Hlen. lia.
Qed.

Lemma complete_six_chunks_witness :
  EvComplete guide_sample sources_sample stats_sample ∈ run_sample
  /\ List.length (guideChunks run_sample) = 6%nat
  /\ Forall (fun chunk => isEmpty chunk = false) (guideChunks run_sample).
Proof.
  split; [exact run_sample_complete|].
  destruct (complete_six_chunks parse_sample locale_as_written search_down
              URL_as_written encode_as_written network_sample body_sample
              (Some "key") "2026-01-01T00:00:00.000Z" schedule_sample
              guide_sample sources_sample stats_sample run_sample_complete)
    as (topic & successes & _ & Hlen & Hall & _).
  split; [exact Hlen|exact Hall].
Defined.


(** A topic that holds a lone surrogate, for which [encodeURIComponent]
    throws a [URIError].  The 8-bit code units of the embedding hold no
    surrogate: the code unit 216 stands for it, and the encoder of this
    sample throws on a text that holds it. *)
Definition lone_surrogate : string := String (ascii_of_nat 216) EmptyString.

Definition encode_well_formed (text : string) : Completion string :=
  if includes text lone_surrogate then Throws (ErrorObject "URI malformed")
  else Returns text.

(** A search provider that answers every query with one page of
    documentation. *)
Definition docs_page : SearchResult :=
  {| sr_title := "Docker Docs"; sr_url := "https://docs.docker.com/engine";
     sr_hostname := "docs.docker.com"; sr_description := "Docker Engine overview";
     sr_rawDescription := "Docker Engine overview" |}.

Definition search_docs_only (query : string) : option (list SearchResult) :=
  Some [docs_page].



(** What the run whose scrapes all fail had sent when its [try] block
    threw. *)
Definition sent_all_failed : list StreamEvent :=
  fst (POST_try parse_sample locale_as_written search_down URL_as_written
         encode_as_written network_down body_sample (Some "key")
         "2026-01-01T00:00:00.000Z" schedule_sample []).

Lemma POST_terminal_events_witness :
  POST_try parse_sample locale_as_written search_down URL_as_written
    encode_as_written network_down body_sample (Some "key")
    "2026-01-01T00:00:00.000Z" schedule_sample []
  = (sent_all_failed,
     Throws (ErrorObject "Scraping finished, but no source returned usable content."))
  /\ exists message,
       run_all_failed
       = sent_all_failed ++ [EvPhase PhaseError message; EvError message].
Proof.
  assert (Htry :
    POST_try parse_sample locale_as_written search_down URL_as_written
      encode_as_written network_down body_sample (Some "key")
      "2026-01-01T00:00:00.000Z" schedule_sample []
    = (sent_all_failed,
       Throws (ErrorObject "Scraping finished, but no source returned usable content.")))
    by (vm_compute; reflexivity).
  split; [exact Htry|].
  exact (proj1 (POST_terminal_events parse_sample locale_as_written search_down
                  URL_as_written encode_as_written network_down body_sample
                  (Some "key") "2026-01-01T00:00:00.000Z" schedule_sample)
           _ _ Htry).
Defined.

(** *** The scenarios of the specification *)

(** Scenario 2: a task whose stream ends with no terminal event yields a
    [source_error] for its source, and the run still completes. *)
Example scenario_stream_without_terminal_event :
  EvSourceError "blog-0-osearchqDocker"
    (JStr "TinyFish stream ended before a completion event.") ∈ run_sample
  /\ EvComplete guide_sample sources_sample stats_sample ∈ run_sample.
Proof.
  split; [|exact run_sample_complete].
  apply list_elem_of_lookup. exists 10%nat. vm_compute. reflexivity.
Qed.

(** Scenario 3: all scrapes fail. *)
Example scenario_all_scrapes_fail :
  List.skipn (List.length run_all_failed - 2) run_all_failed
  = [ EvPhase PhaseError "Scraping finished, but no source returned usable content.";
      EvError "Scraping finished, but no source returned usable content." ]
  /\ guideChunks run_all_failed = [].
Proof. split; vm_compute; reflexivity. Qed.

(** Scenario 4: an empty topic. *)
Example scenario_empty_topic :
  POST parse_sample locale_as_written search_down URL_as_written encode_as_written
    network_sample (JObj [ ("topic", JStr "   ") ]) (Some "key")
    "2026-01-01T00:00:00.000Z" []
  = [ EvError "Topic is required." ].
Proof. vm_compute. reflexivity. Qed.

(** Scenario 5: a payload that is a bare string. *)
Example scenario_bare_string :
  normalizeExtraction no_JSON (JStr "Some prose with no JSON.") sample_source
  = Returns
      {| overview := "Some prose with no JSON.";
         coreConcepts := [];
         apis := [];
         examples := [];
         commonIssues := [];
         bestPractices := [];
         resources := [ sourceLink sample_source ];
         rawText := "Some prose with no JSON." |}.
Proof. reflexivity. Qed.


(** * Further properties *)

(** ** Word counts *)

(** The number of maximal runs of characters that are no white space,
    counted at the last character of each run. *)
Fixpoint countRuns (s : string) : nat :=
  match s with
  | EmptyString => 0
  | String c rest =>
      if isWhiteSpace c then countRuns rest
      else
        match rest with
        | EmptyString => 1
        | String d _ => if isWhiteSpace d then S (countRuns rest) else countRuns rest
        end
  end.

Lemma splitRuns_cons sep inRun s :
  exists piece pieces, splitRuns sep inRun s = piece :: pieces.
Proof.
  revert inRun. induction s as [|c s IH]; intros inRun; simpl; [by eexists _, _|].
  destruct (sep c).
  - destruct inRun; [apply IH|by eexists _, _].
  - destruct (IH false) as (piece & pieces & ->). by eexists _, _.
Qed.

(** The first piece is empty exactly when the text is empty or starts
    with a separator. *)
Lemma splitRuns_head sep s piece pieces :
  splitRuns sep false s = piece :: pieces ->
  isEmpty piece
  = match s with
    | EmptyString => true
    | String c _ => sep c
    end.
Proof.
  destruct s as [|c s]; simpl; [by intros [= <- _]|].
  destruct (sep c); [by intros [= <- _]|].
  destruct (splitRuns_cons sep false s) as (p & ps & ->). by intros [= <- _].
Qed.

Lemma splitRuns_countRuns s :
  forall inRun,
    List.length (filterBoolean (splitRuns isWhiteSpace inRun s)) = countRuns s.
Proof.
  induction s as [|c s IH]; intros inRun; [done|]. simpl.
  destruct (isWhiteSpace c) eqn:Hc.
  - destruct inRun; [apply IH|]. unfold filterBoolean.
    rewrite filter_cons_False by done. apply IH.
  - destruct (splitRuns_cons isWhiteSpace false s) as (piece & pieces & Hsplit).
    rewrite Hsplit. pose proof (IH false) as Hcount. rewrite Hsplit in Hcount.
    pose proof (splitRuns_head _ _ _ _ Hsplit) as Hhead.
    unfold filterBoolean in *. rewrite filter_cons_True by done. simpl.
    destruct (isEmpty piece) eqn:Hpiece.
    + rewrite filter_cons_False in Hcount by (by rewrite Hpiece).
      rewrite Hcount. destruct s as [|d s]; [done|]. by rewrite <- Hhead.
    + rewrite filter_cons_True in Hcount by done. simpl in Hcount.
      destruct s as [|d s]; [done|]. by rewrite <- Hhead.
Qed.

Lemma countRuns_trimStart s : countRuns (trimStart s) = countRuns s.
Proof.
  induction s as [|c s IH]; [done|]. simpl.
  destruct (isWhiteSpace c) eqn:Hc; [done|]. simpl. by rewrite Hc.
Qed.

Lemma countRuns_cons c s :
  countRuns (String c s)
  = if isWhiteSpace c then countRuns s
    else
      match s with
      | EmptyString => 1%nat
      | String d _ => if isWhiteSpace d then S (countRuns s) else countRuns s
      end.
Proof. reflexivity. Qed.

Lemma trimEnd_cons c s :
  trimEnd (String c s)
  = if isWhiteSpace c && isEmpty (trimEnd s) then EmptyString
    else String c (trimEnd s).
Proof. reflexivity. Qed.

Lemma trimEnd_empty_head d s :
  trimEnd (String d s) = EmptyString -> isWhiteSpace d = true.
Proof. rewrite trimEnd_cons. by destruct (isWhiteSpace d). Qed.

Lemma countRuns_trimEnd s : countRuns (trimEnd s) = countRuns s.
Proof.
  induction s as [|c s IH]; [done|].
  rewrite trimEnd_cons, !countRuns_cons.
  destruct (trimEnd s) as [|d r] eqn:Hend.
  - destruct (isWhiteSpace c) eqn:Hc; simpl andb; cbv iota.
    + exact IH.
    + rewrite countRuns_cons, Hc.
      destruct s as [|d s]; [done|].
      rewrite (trimEnd_empty_head _ _ Hend). by rewrite <- IH.
  - rewrite andb_false_r, countRuns_cons.
    destruct (trimEnd_head _ _ _ Hend) as [r' ->]. by rewrite <- IH.
Qed.

Lemma countWords_countRuns text : countWords text = countRuns text.
Proof.
  unfold countWords, splitWhiteSpace, trim.
  by rewrite splitRuns_countRuns, countRuns_trimEnd, countRuns_trimStart.
Qed.

Lemma countRuns_positive c s :
  isWhiteSpace c = false -> (0 < countRuns (String c s))%nat.
Proof.
  revert c. induction s as [|d s IH]; intros c Hc; simpl; rewrite Hc; [lia|].
  destruct (isWhiteSpace d) eqn:Hd; [lia|].
  specialize (IH d Hd). simpl in IH. by rewrite Hd in IH.
Qed.

Lemma countRuns_zero s : countRuns s = 0%nat <-> trimStart s = EmptyString.
Proof.
  induction s as [|c s IH]; [done|]. simpl.
  destruct (isWhiteSpace c) eqn:Hc; [done|].
  pose proof (countRuns_positive c s Hc) as Hpos. simpl in Hpos.
  rewrite Hc in Hpos. split; [lia|discriminate].
Qed.

Lemma trim_empty s : trim s = EmptyString <-> trimStart s = EmptyString.
Proof.
  unfold trim. split; [|by intros ->].
  destruct (trimStart s) as [|c r] eqn:Hstart; [done|].
  apply trimStart_head in Hstart. simpl. by rewrite Hstart.
Qed.

Lemma countRuns_append a w b :
  isWhiteSpace w = true ->
  countRuns (a +:+ String w b) = (countRuns a + countRuns b)%nat.
Proof.
  intros Hw. induction a as [|c a IH].
  - change (EmptyString +:+ String w b) with (String w b).
    by rewrite countRuns_cons, Hw.
  - rewrite append_cons, !countRuns_cons. destruct (isWhiteSpace c); [done|].
    destruct a as [|d a].
    + change (EmptyString +:+ String w b) with (String w b).
      cbv beta iota. by rewrite Hw, countRuns_cons, Hw.
    + rewrite append_cons in *. destruct (isWhiteSpace d); by rewrite IH.
Qed.

(** X1: a text has no words exactly when it is blank (empty after
    [trim]); so the [generatedWords] and [wordCount] of a text with any
    visible character are at least 1. *)
Theorem countWords_zero_iff_blank (text : string) :
  countWords text = 0%nat <-> trim text = EmptyString.
Proof.
  rewrite countWords_countRuns, trim_empty. apply countRuns_zero.
Qed.

(** X2: the word count is additive over texts joined by a white-space
    character: no word is lost or split at the joint, whatever white
    space the two texts begin or end with. *)
Theorem countWords_joined (a b : string) (w : ascii) :
  isWhiteSpace w = true ->
  countWords (a +:+ String w b) = (countWords a + countWords b)%nat.
Proof.
  intros Hw. rewrite !countWords_countRuns. by apply countRuns_append.
Qed.

Lemma countWords_joined_witness :
  isWhiteSpace " " = true
  /\ countWords ("two words" +:+ String " " " and three more ")
     = (countWords "two words" + countWords " and three more ")%nat.
Proof.
  split; [reflexivity|]. apply countWords_joined. reflexivity.
Defined.

(** ** Code fences *)

Lemma append_nil_l (s : string) : EmptyString +:+ s = s.
Proof. reflexivity. Qed.

Lemma prefix_cons_same (a : ascii) (p s : string) :
  String.prefix (String a p) (String a s) = String.prefix p s.
Proof. simpl. by destruct (ascii_dec a a). Qed.

Lemma prefix_cons_diff (a b : ascii) (p s : string) :
  a <> b -> String.prefix (String a p) (String b s) = false.
Proof. intros Hne. simpl. by destruct (ascii_dec a b). Qed.

Lemma length_append (a b : string) :
  String.length (a +:+ b) = (String.length a + String.length b)%nat.
Proof.
  induction a as [|c a IH]; [done|]. rewrite append_cons. simpl. by rewrite IH.
Qed.

Lemma prefix_append (p s : string) : String.prefix p (p +:+ s) = true.
Proof.
  induction p as [|c p IH]; [by destruct s|]. rewrite append_cons. simpl.
  by destruct (ascii_dec c c).
Qed.

Lemma drop_append (a b : string) : drop (String.length a) (a +:+ b) = b.
Proof. induction a as [|c a IH]; [by destruct b|]. by rewrite append_cons. Qed.

Lemma take_append (a b : string) : take (String.length a) (a +:+ b) = a.
Proof.
  induction a as [|c a IH]; [by destruct b|]. rewrite append_cons. simpl.
  by rewrite IH.
Qed.

Lemma endsWith_append (a p : string) : endsWith (a +:+ p) p = true.
Proof.
  unfold endsWith. rewrite length_append.
  replace (String.length a + String.length p - String.length p)%nat
    with (String.length a) by lia.
  rewrite drop_append, String.eqb_refl.
  rewrite andb_true_r. apply Nat.leb_le. lia.
Qed.

Lemma sliceDropLast_append (a p : string) :
  sliceDropLast (String.length p) (a +:+ p) = a.
Proof.
  unfold sliceDropLast. rewrite length_append.
  replace (String.length a + String.length p - String.length p)%nat
    with (String.length a) by lia.
  apply take_append.
Qed.

Lemma drop_append_short (n : nat) (a b : string) :
  (n <= String.length a)%nat -> drop n (a +:+ b) = drop n a +:+ b.
Proof.
  revert a. induction n as [|n IH]; intros a Hn.
  - by destruct a.
  - destruct a as [|c a]; simpl in Hn; [lia|].
    rewrite append_cons. simpl. apply IH. lia.
Qed.

Lemma prefix_length (p s : string) :
  String.prefix p s = true -> (String.length p <= String.length s)%nat.
Proof.
  revert s. induction p as [|c p IH]; intros s; simpl; [lia|].
  destruct s as [|d s]; simpl; [discriminate|].
  destruct (ascii_dec c d); [|discriminate]. intros H. apply IH in H. lia.
Qed.

(** What [stripCodeFence] makes of a text whose trimmed form is
    [body] between two fences. *)
Lemma stripCodeFence_fence (input body : string) :
  trim input = "```" +:+ body +:+ "```" ->
  stripCodeFence input
  = trim (if startsWith body "json" then sliceFrom 4 body else body).
Proof.
  intros Htrim. unfold stripCodeFence. rewrite Htrim.
  assert (Hjson : startsWith ("```" +:+ body +:+ "```") "```json"
                  = startsWith body "json").
  { unfold startsWith. rewrite !append_cons, append_nil_l, !prefix_cons_same.
    destruct body as [|c body]; [done|]. rewrite append_cons.
    destruct (ascii_dec "j" c) as [<-|Hc]; [|by rewrite !prefix_cons_diff].
    rewrite !prefix_cons_same.
    destruct body as [|c1 body]; [done|]. rewrite append_cons.
    destruct (ascii_dec "s" c1) as [<-|Hc1]; [|by rewrite !prefix_cons_diff].
    rewrite !prefix_cons_same.
    destruct body as [|c2 body]; [done|]. rewrite append_cons.
    destruct (ascii_dec "o" c2) as [<-|Hc2]; [|by rewrite !prefix_cons_diff].
    rewrite !prefix_cons_same.
    destruct body as [|c3 body]; [done|]. rewrite append_cons.
    destruct (ascii_dec "n" c3) as [<-|Hc3]; [|by rewrite !prefix_cons_diff].
    rewrite !prefix_cons_same. by destruct body. }
  rewrite Hjson. destruct (startsWith body "json") eqn:Hbody.
  - apply prefix_length in Hbody. simpl in Hbody.
    assert (Hdrop : sliceFrom 7 ("```" +:+ body +:+ "```")
                    = sliceFrom 4 body +:+ "```").
    { unfold sliceFrom. rewrite !append_cons, append_nil_l.
      change (drop 7 (String "`" (String "`" (String "`" (body +:+ "```")))))
        with (drop 4 (body +:+ "```")).
      by apply drop_append_short. }
    rewrite Hdrop, endsWith_append.
    f_equal. apply (sliceDropLast_append (sliceFrom 4 body) "```").
  - assert (Hfence : startsWith ("```" +:+ body +:+ "```") "```" = true).
    { apply prefix_append. }
    rewrite Hfence.
    assert (Hdrop : sliceFrom 3 ("```" +:+ body +:+ "```") = body +:+ "```").
    { apply (drop_append "```"). }
    rewrite Hdrop, endsWith_append.
    f_equal. apply (sliceDropLast_append body "```").
Qed.

(** X3: a payload the agent wrapped in a Markdown code fence, with or
    without the [json] tag and whatever white space surrounds the
    fences, is unwrapped to the trimmed text between the fences. *)
Theorem stripCodeFence_unwraps (input body : string) :
  trim input = "```" +:+ body +:+ "```" ->
  stripCodeFence input
  = trim (if startsWith body "json" then sliceFrom 4 body else body).
Proof. apply stripCodeFence_fence. Qed.

(** An agent's answer in a tagged fence, and a [JSON.parse] that knows
    the text between the fences. *)
Definition fenced_text : string :=
  "{" +:+ DQUOTE +:+ "overview" +:+ DQUOTE +:+ ": " +:+ DQUOTE +:+ "Hooks"
  +:+ DQUOTE +:+ "}".

Definition fenced_answer : string :=
  LF +:+ "```json" +:+ LF +:+ fenced_text +:+ LF +:+ "```" +:+ LF.

Definition parse_fenced (text : string) : option JsValue :=
  if String.eqb text fenced_text then Some (JObj [("overview", JStr "Hooks")])
  else None.

Lemma stripCodeFence_unwraps_witness :
  trim fenced_answer = "```" +:+ ("json" +:+ LF +:+ fenced_text +:+ LF) +:+ "```"
  /\ stripCodeFence fenced_answer = fenced_text.
Proof.
  split; [reflexivity|].
  rewrite (stripCodeFence_unwraps fenced_answer ("json" +:+ LF +:+ fenced_text +:+ LF));
    reflexivity.
Defined.

Section ParserFacts.

Variable JSON_parse : string -> option JsValue.

(** X4: [parseMaybeObject] hands an object or array back unchanged,
    never returns anything that is no object or array, and for a text
    whose trimmed form stands between two code fences returns what
    [JSON.parse] makes of the text between the fences, when that is an
    object or array. *)
Theorem parseMaybeObject_objects (input : JsValue) :
  (isObject input = true -> parseMaybeObject JSON_parse input = Some input)
  /\ (forall parsed,
        parseMaybeObject JSON_parse input = Some parsed -> isObject parsed = true)
  /\ (forall text body,
        input = JStr text ->
        trim text = "```" +:+ body +:+ "```" ->
        parseMaybeObject JSON_parse input
        = match JSON_parse
                  (trim (if startsWith body "json" then sliceFrom 4 body else body))
          with
          | Some parsed => if isObject parsed then Some parsed else None
          | None => None
          end).
Proof.
  split; [|split].
  - unfold parseMaybeObject. by intros ->.
  - intros parsed. unfold parseMaybeObject.
    destruct (isObject input) eqn:Hobject; [by intros [= <-]|].
    destruct input; try discriminate.
    destruct (JSON_parse _) as [p|]; [|discriminate].
    destruct (isObject p) eqn:Hp; [|discriminate]. by intros [= <-].
  - intros text body -> Htrim. unfold parseMaybeObject. simpl.
    by rewrite (stripCodeFence_fence text body Htrim).
Qed.

End ParserFacts.

Lemma parseMaybeObject_objects_witness :
  parseMaybeObject parse_fenced (JStr fenced_answer)
  = Some (JObj [("overview", JStr "Hooks")]).
Proof.
  destruct (parseMaybeObject_objects parse_fenced (JStr fenced_answer))
    as (_ & _ & Hfenced).
  rewrite (Hfenced fenced_answer ("json" +:+ LF +:+ fenced_text +:+ LF) eq_refl eq_refl).
  reflexivity.
Defined.

(** ** Derived overviews *)

(** Every character of the text satisfies the test. *)
Fixpoint allChars (test : ascii -> bool) (s : string) : bool :=
  match s with
  | EmptyString => true
  | String c rest => test c && allChars test rest
  end.

(** White space other than a space: a tab, a line break or a no-break
    space. *)
Definition isLineBreakOrTab (c : ascii) : bool :=
  isWhiteSpace c && negb (Ascii.eqb c " ").

Definition onOneLine (s : string) : bool :=
  allChars (fun c => negb (isLineBreakOrTab c)) s.

Lemma collapseRuns_onOneLine s :
  forall inRun, onOneLine (collapseRuns isWhiteSpace inRun s) = true.
Proof.
  unfold onOneLine.
  induction s as [|c s IH]; intros inRun; simpl; [done|].
  destruct (isWhiteSpace c) eqn:Hc.
  - destruct inRun; [apply IH|]. simpl. apply IH.
  - simpl. unfold isLineBreakOrTab at 1. rewrite Hc. simpl. apply IH.
Qed.

Lemma allChars_trimStart test s :
  allChars test s = true -> allChars test (trimStart s) = true.
Proof.
  induction s as [|c s IH]; simpl; [done|].
  intros [Hc Hs]%andb_prop. destruct (isWhiteSpace c); [by apply IH|].
  simpl. by rewrite Hc, Hs.
Qed.

Lemma allChars_trimEnd test s :
  allChars test s = true -> allChars test (trimEnd s) = true.
Proof.
  induction s as [|c s IH]; [done|]. rewrite trimEnd_cons. simpl.
  intros [Hc Hs]%andb_prop.
  destruct (isWhiteSpace c && isEmpty (trimEnd s)); [done|].
  simpl. by rewrite Hc, IH.
Qed.

Lemma allChars_take test n s :
  allChars test s = true -> allChars test (take n s) = true.
Proof.
  revert s. induction n as [|n IH]; intros s; [by destruct s|].
  destruct s as [|c s]; simpl; [done|].
  intros [Hc Hs]%andb_prop. by rewrite Hc, IH.
Qed.

Lemma length_take n s : String.length (take n s) = Nat.min n (String.length s).
Proof.
  revert s. induction n as [|n IH]; intros s; [by destruct s|].
  destruct s as [|c s]; simpl; [done|]. by rewrite IH.
Qed.

(** X5: the overview derived from raw text is never empty, is at most
    360 characters long, and stands on one line: the only white space
    it holds is the space (no tab, no line break). *)
Theorem deriveOverview_bounds (rawText : string) :
  (1 <= String.length (deriveOverview rawText) <= 360)%nat
  /\ onOneLine (deriveOverview rawText) = true.
Proof.
  unfold deriveOverview.
  destruct (trim (collapseWhiteSpace rawText)) as [|c text] eqn:Htext.
  - split; [simpl; lia|reflexivity].
  - cbv iota. unfold isEmpty, sliceTo. rewrite length_take. simpl String.length.
    split; [lia|].
    apply allChars_take. rewrite <- Htext. unfold trim.
    apply allChars_trimEnd, allChars_trimStart, collapseRuns_onOneLine.
Qed.

(** ** Case-insensitive de-duplication *)

(** The cap is read after the first entry is kept, so a cap of 0 works
    as a cap of 1. *)
Lemma uniqueLoop_cap {A : Type} (key : A -> string) (max : nat) (values : list A) :
  uniqueLoop key max values ∅ []
  = List.firstn (Nat.max 1 max) (firstOccurrences key ∅ values).
Proof.
  destruct max as [|max].
  - destruct values as [|value rest]; [done|]. simpl.
    by rewrite bool_decide_eq_false_2 by set_solver.
  - rewrite uniqueLoop_firstOccurrences by (simpl; lia).
    by rewrite Nat.sub_0_r.
Qed.

Lemma firstOccurrences_NoDup {A : Type} (key : A -> string) (values : list A) :
  forall seen, NoDup (key <$> firstOccurrences key seen values).
Proof.
  induction values as [|value rest IH]; intros seen; simpl; [constructor|].
  destruct (bool_decide (key value ∈ seen)); [apply IH|].
  csimpl. constructor; [|apply IH].
  intros (other & Hkey & Hin)%list_elem_of_fmap.
  apply firstOccurrences_fresh in Hin as [Hfresh _]. set_solver.
Qed.

Lemma firstOccurrences_sublist {A : Type} (key : A -> string) (values : list A) :
  forall seen, firstOccurrences key seen values `sublist_of` values.
Proof.
  induction values as [|value rest IH]; intros seen; simpl; [constructor|].
  destruct (bool_decide (key value ∈ seen)).
  - apply sublist_cons, IH.
  - apply sublist_skip, IH.
Qed.

(** What the loop keeps, for any key and cap. *)
Lemma uniqueLoop_kept {A : Type} (key : A -> string) (max : nat) (values : list A) :
  let out := uniqueLoop key max values ∅ [] in
  (List.length out <= Nat.max 1 max)%nat
  /\ out `sublist_of` values
  /\ NoDup (key <$> out)
  /\ ((List.length out < Nat.max 1 max)%nat ->
      forall value, value ∈ values ->
        exists kept, kept ∈ out /\ key kept = key value)
  /\ forall kept, kept ∈ out ->
       List.find (fun other => String.eqb (key other) (key kept)) values = Some kept.
Proof.
  intros out. unfold out. rewrite uniqueLoop_cap.
  split; [rewrite length_firstn; lia|].
  split; [etrans; [apply sublist_take|apply firstOccurrences_sublist]|].
  split.
  { eapply sublist_NoDup; [apply (firstOccurrences_NoDup key values ∅)|].
    apply fmap_sublist, sublist_take. }
  split.
  - intros Hshort value Hin. rewrite (firstn_short _ _ Hshort).
    apply firstOccurrences_keys; [|set_solver].
    apply elem_of_keysOf. by exists value.
  - intros kept Hin. apply elem_of_firstn in Hin.
    by apply (firstOccurrences_first _ _ _ _ Hin).
Qed.

(** X6: [uniqueByLowerCase(values, max)] keeps at most [max] entries
    (one, for a cap of 0), in the order of the input; no two of them are
    equal up to letter case; each is the first entry of the input with
    its lowercase form; and when it keeps fewer than the cap, every
    input entry is there up to letter case. *)
Theorem uniqueByLowerCase_kept (values : list string) (max : nat) :
  let out := uniqueByLowerCase values max in
  (List.length out <= Nat.max 1 max)%nat
  /\ out `sublist_of` values
  /\ NoDup (toLowerCase <$> out)
  /\ ((List.length out < Nat.max 1 max)%nat ->
      forall value, value ∈ values ->
        exists kept, kept ∈ out /\ toLowerCase kept = toLowerCase value)
  /\ forall kept, kept ∈ out ->
       List.find (fun other => String.eqb (toLowerCase other) (toLowerCase kept))
         values
       = Some kept.
Proof. apply (uniqueLoop_kept toLowerCase). Qed.

(** ** Well-formed extractions *)

(** A text with a visible character and no white space around it. *)
Definition tidy (s : string) : Prop := s <> EmptyString /\ trim s = s.

Lemma isEmpty_false s : isEmpty s = false <-> s <> EmptyString.
Proof. by destruct s. Qed.

Lemma tidy_trim s : isEmpty (trim s) = false -> tidy (trim s).
Proof.
  intros Hs. split; [by apply isEmpty_false|apply trim_idempotent].
Qed.

Lemma firstString_tidy values :
  isEmpty (firstString values) = false -> tidy (firstString values).
Proof.
  induction values as [|value rest IH]; simpl; [done|].
  destruct value; try exact IH.
  destruct (0 <? String.length (trim s))%nat eqn:Hlen; [|exact IH].
  intros _. apply tidy_trim. apply Nat.ltb_lt in Hlen.
  destruct (trim s); [simpl in Hlen; lia|done].
Qed.

Lemma orDefault_nonempty s fallback :
  fallback <> EmptyString -> orDefault s fallback <> EmptyString.
Proof. unfold orDefault. by destruct s. Qed.

Lemma startsWith_nonempty s p :
  p <> EmptyString -> startsWith s p = true -> s <> EmptyString.
Proof. unfold startsWith. destruct p; [done|]. by destruct s. Qed.

Lemma Forall_omap {A B : Type} (f : A -> option B) (P : B -> Prop) (l : list A) :
  (forall a b, f a = Some b -> P b) -> Forall P (omap f l).
Proof.
  intros Hf. apply Forall_forall. intros b (a & _ & Ha)%list_elem_of_omap.
  by apply (Hf a).
Qed.

(** Reduces the handling of one entry of a list, keeping the string
    functions folded. *)
Ltac reduce_entry :=
  cbn -[firstString trim getProp startsWith orDefault isEmpty].

(** Reads [Some x = Some y] off the goal and replaces [y] by [x]. *)
Ltac take_some :=
  let H := fresh in intros H; apply (inj Some) in H; rewrite <- H; clear H.

Lemma toStringList_tidy input : Forall tidy (toStringList input).
Proof.
  apply Forall_omap. intros entry text.
  destruct entry; reduce_entry; try discriminate.
  - destruct (isEmpty (trim s)) eqn:Hs; [discriminate|].
    take_some. by apply tidy_trim.
  - destruct (isEmpty (firstString _)) eqn:Hs; [discriminate|].
    take_some. by apply firstString_tidy.
Qed.

(** The entries of an API list, an example list, an issue list and a
    resource list as the renderers expect them. *)
Definition apiOk (api : ApiReference) : Prop :=
  tidy (api_name api) /\ api_description api <> EmptyString.

Definition exampleOk (example : PracticalExample) : Prop :=
  tidy (ex_code example) /\ ex_title example <> EmptyString.

Definition issueOk (item : CommonIssue) : Prop :=
  tidy (issue item) /\ issue_fix item <> EmptyString.

Definition linkOk (resource : ResourceLink) : Prop :=
  startsWith (url resource) "http" = true /\ label resource <> EmptyString.

Lemma toApiList_ok input : Forall apiOk (toApiList input).
Proof.
  apply Forall_omap. intros entry api.
  destruct entry; reduce_entry; try discriminate.
  - destruct (isEmpty (trim s)) eqn:Hs; [discriminate|].
    take_some. split; reduce_entry; [by apply tidy_trim|done].
  - destruct (isEmpty (firstString _)) eqn:Hs; [discriminate|].
    take_some. split; reduce_entry; [by apply firstString_tidy|].
    by apply orDefault_nonempty.
Qed.

Lemma toExampleList_ok input : Forall exampleOk (toExampleList input).
Proof.
  apply Forall_omap. intros entry example.
  destruct entry; reduce_entry; try discriminate.
  - destruct (isEmpty (trim s)) eqn:Hs; [discriminate|].
    take_some. split; reduce_entry; [by apply tidy_trim|done].
  - destruct (isEmpty (firstString _)) eqn:Hs; [discriminate|].
    take_some. split; reduce_entry; [by apply firstString_tidy|].
    by apply orDefault_nonempty.
Qed.

Lemma toIssueList_ok input : Forall issueOk (toIssueList input).
Proof.
  apply Forall_omap. intros entry item.
  destruct entry; reduce_entry; try discriminate.
  - destruct (isEmpty (trim s)) eqn:Hs; [discriminate|].
    take_some. split; reduce_entry; [by apply tidy_trim|done].
  - destruct (isEmpty (firstString _)) eqn:Hs; [discriminate|].
    take_some. split; reduce_entry; [by apply firstString_tidy|].
    by apply orDefault_nonempty.
Qed.

Lemma toResourceList_ok input : Forall linkOk (toResourceList input).
Proof.
  apply Forall_omap. intros entry resource.
  destruct entry; reduce_entry; try discriminate.
  - destruct (startsWith s "http") eqn:Hs; [|discriminate].
    take_some. split; reduce_entry; [done|].
    by apply (startsWith_nonempty s "http").
  - destruct (startsWith (firstString _) "http") eqn:Hs; [|discriminate].
    take_some. split; reduce_entry; [done|].
    unfold orDefault. destruct (isEmpty (firstString _)) eqn:Hlabel.
    + by apply (startsWith_nonempty _ "http").
    + by apply isEmpty_false.
Qed.

Lemma deriveOverview_nonempty rawText : deriveOverview rawText <> EmptyString.
Proof.
  unfold deriveOverview.
  destruct (trim (collapseWhiteSpace rawText)) as [|c text]; [done|].
  by unfold isEmpty, sliceTo.
Qed.

Lemma Forall_sublist {A : Type} (P : A -> Prop) (l k : list A) :
  l `sublist_of` k -> Forall P k -> Forall P l.
Proof.
  intros Hsub Hk. apply Forall_forall. intros x Hx.
  eapply (proj1 (Forall_forall P k)); [exact Hk|].
  by eapply elem_of_sublist.
Qed.

(** A list of concepts or practices as the normalizer leaves it. *)
Definition shortList (entries : list string) : Prop :=
  (List.length entries <= 20)%nat
  /\ NoDup (toLowerCase <$> entries)
  /\ Forall tidy entries.

Lemma uniqueByLowerCase_shortList values :
  Forall tidy values -> shortList (uniqueByLowerCase values 20).
Proof.
  intros Hvalues.
  pose proof (uniqueLoop_kept toLowerCase 20 values) as Hkept.
  cbv zeta in Hkept. destruct Hkept as (Hlen & Hsub & Hdup & _).
  split; [exact Hlen|]. split; [exact Hdup|].
  by apply (Forall_sublist _ _ values).
Qed.

Section ExtractionFacts.

Variable JSON_parse : string -> option JsValue.

(** The two ways the normalizer returns. *)
Lemma normalizeExtraction_cases raw source extraction :
  normalizeExtraction JSON_parse raw source = Returns extraction ->
  (exists text,
     extraction
     = {| overview := deriveOverview text; coreConcepts := []; apis := [];
          examples := []; commonIssues := []; bestPractices := [];
          resources := [sourceLink source]; rawText := text |})
  \/ (exists parsed,
        parseMaybeObject JSON_parse raw = Some parsed
        /\ overview extraction
           = orDefault (firstString [getProp parsed "overview";
                                     getProp parsed "summary";
                                     getProp parsed "intro"])
               (deriveOverview (extractRawText parsed raw))
        /\ coreConcepts extraction
           = uniqueByLowerCase
               (toStringList (getProp parsed "coreConcepts")
                ++ toStringList (getProp parsed "keyPoints")) 20
        /\ bestPractices extraction
           = uniqueByLowerCase
               (toStringList (getProp parsed "bestPractices")
                ++ toStringList (getProp parsed "tips")) 20
        /\ (exists input, apis extraction = toApiList input)
        /\ (exists input, examples extraction = toExampleList input)
        /\ (exists input, commonIssues extraction = toIssueList input)
        /\ (exists input,
              resources extraction
              = uniqueResources (toResourceList input ++ [sourceLink source]) 20)
        /\ rawText extraction = extractRawText parsed raw).
Proof.
  unfold normalizeExtraction.
  destruct (parseMaybeObject JSON_parse raw) as [parsed|].
  - intros [= <-]. right. exists parsed. simpl.
    repeat (split; [by eauto|]). done.
  - destruct (match raw with JStr s => Some s | _ => stringifyPrimitive raw end)
      as [text|]; [|discriminate].
    intros [= <-]. left. by exists text.
Qed.

(** X7: the concepts and the best practices of a normalized extraction
    are each at most 20 entries, no two of them equal up to letter case,
    every entry with a visible character and no white space around
    it. *)
Theorem normalizeExtraction_short_lists (raw : JsValue) (source : DiscoveredSource)
    (extraction : StructuredExtraction) :
  normalizeExtraction JSON_parse raw source = Returns extraction ->
  shortList (coreConcepts extraction) /\ shortList (bestPractices extraction).
Proof.
  intros [(text & ->)|(parsed & _ & _ & -> & -> & _)]%normalizeExtraction_cases.
  - simpl. split; (split; [simpl; lia|split; [constructor|constructor]]).
  - split; apply uniqueByLowerCase_shortList; apply Forall_app;
      split; apply toStringList_tidy.
Qed.

(** X8: in a normalized extraction the overview is not empty; every
    API has a name and a description, every example a title and code,
    every issue a text and a fix, none of them empty, the name, the code
    and the issue without white space around them; and every resource
    other than the source's own link has a label and a URL that starts
    with [http]. *)
Theorem normalizeExtraction_entries (raw : JsValue) (source : DiscoveredSource)
    (extraction : StructuredExtraction) :
  normalizeExtraction JSON_parse raw source = Returns extraction ->
  overview extraction <> EmptyString
  /\ Forall apiOk (apis extraction)
  /\ Forall exampleOk (examples extraction)
  /\ Forall issueOk (commonIssues extraction)
  /\ Forall (fun resource => resource = sourceLink source \/ linkOk resource)
       (resources extraction).
Proof.
  intros [(text & ->)|(parsed & _ & Hoverview & _ & _ & [i1 Hapis] & [i2 Hexamples]
                       & [i3 Hissues] & [i4 Hresources] & _)]%normalizeExtraction_cases.
  - simpl. split; [apply deriveOverview_nonempty|].
    repeat (split; [constructor|]). constructor; [by left|constructor].
  - rewrite Hoverview, Hapis, Hexamples, Hissues, Hresources.
    split; [apply orDefault_nonempty, deriveOverview_nonempty|].
    split; [apply toApiList_ok|]. split; [apply toExampleList_ok|].
    split; [apply toIssueList_ok|].
    pose proof (uniqueLoop_kept (fun value => toLowerCase (url value)) 20
                  (toResourceList i4 ++ [sourceLink source])) as Hkept.
    cbv zeta in Hkept. destruct Hkept as (_ & Hsub & _).
    apply (Forall_sublist _ _ _ Hsub). apply Forall_app. split.
    + eapply Forall_impl; [apply toResourceList_ok|]. intros r Hr. by right.
    + constructor; [by left|constructor].
Qed.

End ExtractionFacts.

(** A payload with repeated concepts, an API without a description and
    a resource that is no link. *)
Definition untidy_payload : JsValue :=
  JObj [ ("coreConcepts", JArr [ JStr " image "; JStr "Image"; JStr "  "; JNum 4 ]);
         ("tips", JArr [ JObj [ ("title", JStr "Pin versions ") ] ]);
         ("apis", JArr [ JObj [ ("method", JStr " docker run") ]; JObj [] ]);
         ("links", JArr [ JStr "see the manual"; JStr "https://example.org/a" ]) ].

Definition untidy_payload_extraction : StructuredExtraction :=
  {| overview := "No high-level overview could be extracted from this source.";
     coreConcepts := [ "image" ];
     apis := [ {| api_name := "docker run";
                  api_description := "No description provided in source.";
                  api_signature := Some EmptyString |} ];
     examples := [];
     commonIssues := [];
     bestPractices := [ "Pin versions" ];
     resources :=
       [ {| label := "https://example.org/a"; url := "https://example.org/a";
            note := None |};
         sourceLink sample_source ];
     rawText := EmptyString |}.

Lemma normalizeExtraction_short_lists_witness :
  normalizeExtraction no_JSON untidy_payload sample_source
  = Returns untidy_payload_extraction
  /\ shortList (coreConcepts untidy_payload_extraction)
  /\ shortList (bestPractices untidy_payload_extraction).
Proof.
  assert (Hret : normalizeExtraction no_JSON untidy_payload sample_source
                 = Returns untidy_payload_extraction)
    by (vm_compute; reflexivity).
  split; [exact Hret|].
  exact (normalizeExtraction_short_lists no_JSON _ _ _ Hret).
Defined.

Lemma normalizeExtraction_entries_witness :
  normalizeExtraction no_JSON untidy_payload sample_source
  = Returns untidy_payload_extraction
  /\ overview untidy_payload_extraction <> EmptyString
  /\ Forall apiOk (apis untidy_payload_extraction)
  /\ Forall (fun resource => resource = sourceLink sample_source \/ linkOk resource)
       (resources untidy_payload_extraction).
Proof.
  assert (Hret : normalizeExtraction no_JSON untidy_payload sample_source
                 = Returns untidy_payload_extraction)
    by (vm_compute; reflexivity).
  split; [exact Hret|].
  destruct (normalizeExtraction_entries no_JSON _ _ _ Hret)
    as (Hoverview & Hapis & _ & _ & Hresources).
  split; [exact Hoverview|]. split; [exact Hapis|exact Hresources].
Defined.

(** ** Ranking of search results *)

(** Scores fall along the list. *)
Fixpoint descending {A : Type} (entries : list (A * nat)) : Prop :=
  match entries with
  | [] => True
  | entry :: rest =>
      Forall (fun other => (snd other <= snd entry)%nat) rest /\ descending rest
  end.

Lemma insertByScore_perm {A : Type} (entry : A * nat) (sorted : list (A * nat)) :
  insertByScore entry sorted ≡ₚ entry :: sorted.
Proof.
  induction sorted as [|other rest IH]; simpl; [done|].
  destruct (snd entry <? snd other)%nat; [|done].
  rewrite IH. apply Permutation_swap.
Qed.

Lemma sortByScore_perm {A : Type} (entries : list (A * nat)) :
  sortByScore entries ≡ₚ entries.
Proof.
  induction entries as [|entry rest IH]; simpl; [done|].
  by rewrite insertByScore_perm, IH.
Qed.

Lemma insertByScore_descending {A : Type} (entry : A * nat) (sorted : list (A * nat)) :
  descending sorted -> descending (insertByScore entry sorted).
Proof.
  induction sorted as [|other rest IH]; simpl; [by intros _|].
  intros [Hrest Hsorted].
  destruct (snd entry <? snd other)%nat eqn:Hlt.
  - apply Nat.ltb_lt in Hlt. simpl. split; [|by apply IH].
    rewrite insertByScore_perm. constructor; [lia|done].
  - apply Nat.ltb_ge in Hlt. simpl. split; [|done].
    constructor; [done|].
    eapply Forall_impl; [exact Hrest|]. simpl. intros x Hx. lia.
Qed.

Lemma sortByScore_descending {A : Type} (entries : list (A * nat)) :
  descending (sortByScore entries).
Proof.
  induction entries as [|entry rest IH]; simpl; [done|].
  by apply insertByScore_descending.
Qed.

(** The entries with a given score. *)
Definition withScore {A : Type} (score : nat) (entries : list (A * nat))
    : list (A * nat) :=
  filter (fun entry => snd entry = score) entries.

Lemma insertByScore_withScore {A : Type} (score : nat) (entry : A * nat)
    (sorted : list (A * nat)) :
  withScore score (insertByScore entry sorted) = withScore score (entry :: sorted).
Proof.
  unfold withScore.
  induction sorted as [|other rest IH]; simpl; [done|].
  destruct (snd entry <? snd other)%nat eqn:Hlt; [|done].
  apply Nat.ltb_lt in Hlt.
  destruct (decide (snd entry = score)) as [Hscore|Hscore].
  - rewrite (filter_cons_True _ entry) by done.
    rewrite !(filter_cons_False _ other) by lia.
    rewrite IH. by rewrite filter_cons_True.
  - rewrite (filter_cons_False _ entry) by done.
    rewrite (filter_cons_False _ entry) in IH by done.
    destruct (decide (snd other = score)).
    + rewrite !(filter_cons_True _ other) by done. by rewrite IH.
    + rewrite !(filter_cons_False _ other) by done. by rewrite IH.
Qed.

Lemma sortByScore_withScore {A : Type} (score : nat) (entries : list (A * nat)) :
  withScore score (sortByScore entries) = withScore score entries.
Proof.
  induction entries as [|entry rest IH]; simpl; [done|].
  rewrite insertByScore_withScore. unfold withScore in *.
  destruct (decide (snd entry = score)).
  - rewrite !filter_cons_True by done. by rewrite IH.
  - rewrite !filter_cons_False by done. by rewrite IH.
Qed.

(** X9: the ranking of a response holds the results that match the
    source type, and only those, each once and with its score plus the
    base score of 1; the scores fall along the ranking; and results with
    equal scores keep the order the search provider gave them. *)
Theorem rankResults_ranking (type : SourceType) (topicTokens : list string)
    (results : list SearchResult) :
  let ranked := rankResults type topicTokens results in
  map fst ranked ≡ₚ filter (fun r => matchesType r type = true) results
  /\ Forall (fun entry =>
               snd entry = (scoreResult (fst entry) type topicTokens + 1)%nat)
       ranked
  /\ descending ranked
  /\ forall score,
       map fst (withScore score ranked)
       = filter (fun r => (scoreResult r type topicTokens + 1)%nat = score)
           (filter (fun r => matchesType r type = true) results).
Proof.
  intros ranked. unfold ranked, rankResults.
  set (matching := filter (fun r => matchesType r type = true) results).
  set (scored := map (fun r => (r, (scoreResult r type topicTokens + 1)%nat)) matching).
  split; [|split; [|split]].
  - rewrite sortByScore_perm. unfold scored. rewrite map_map. simpl.
    by rewrite map_id.
  - rewrite sortByScore_perm. unfold scored. apply Forall_forall.
    intros entry (r & -> & _)%list_elem_of_fmap. done.
  - apply sortByScore_descending.
  - intros score. rewrite sortByScore_withScore. unfold scored, withScore.
    clear. induction matching as [|r rest IH]; [done|]. simpl map at 1.
    destruct (decide ((scoreResult r type topicTokens + 1)%nat = score)).
    + rewrite !filter_cons_True by done. simpl. by rewrite IH.
    + rewrite !filter_cons_False by done. exact IH.
Qed.

(** ** The discovered sources *)

#[global] Instance SourceType_eq_dec : EqDecision SourceType.
Proof. solve_decision. Defined.

Lemma existsb_key (entries : list (string * DiscoveredSource)) (key : string) :
  existsb (fun entry => String.eqb (fst entry) key) entries
  = bool_decide (key ∈ (list_to_set (map fst entries) : gset string)).
Proof.
  induction entries as [|entry rest IH]; simpl.
  - by rewrite bool_decide_eq_false_2 by set_solver.
  - destruct (String.eqb (fst entry) key) eqn:Heq; simpl.
    + apply String.eqb_eq in Heq. by rewrite bool_decide_eq_true_2 by set_solver.
    + apply String.eqb_neq in Heq. rewrite IH.
      apply bool_decide_ext. set_solver.
Qed.

(** The [Map] keeps, in order, the first source of every URL. *)
Lemma dedupeByUrl_firstOccurrences flattened :
  forall deduped,
    map snd (dedupeByUrl flattened deduped)
    = map snd deduped
      ++ firstOccurrences src_url (list_to_set (map fst deduped)) flattened.
Proof.
  induction flattened as [|source rest IH]; intros deduped; simpl.
  - by rewrite app_nil_r.
  - rewrite existsb_key.
    destruct (bool_decide (src_url source ∈ _)) eqn:Hseen; [apply IH|].
    rewrite IH, map_app. simpl. rewrite <- app_assoc. simpl.
    do 3 f_equal. rewrite map_app, list_to_set_app_L. simpl. set_solver.
Qed.

Section DiscoveredFacts.

Variable search : string -> option (list SearchResult).
Variable URL_withoutHash : string -> option string.
Variable encodeURIComponent : string -> Completion string.

Lemma selectRanked_typed type m query ranked :
  forall selected seen,
    Forall (fun source => src_type source = type) selected ->
    Forall (fun source => src_type source = type)
      (sel_selected (selectRanked URL_withoutHash type m query ranked selected seen)).
Proof.
  induction ranked as [|entry rest IH]; intros selected seen Hselected; simpl; [done|].
  destruct (bool_decide _); [by apply IH|].
  assert (Hnext : Forall (fun source => src_type source = type)
                    (selected
                     ++ [ {| src_id :=
                               createSourceId URL_withoutHash type
                                 (normalizeUrl URL_withoutHash (sr_url (fst entry)))
                                 (List.length selected);
                             src_type := type;
                             src_title := trim (sr_title (fst entry));
                             src_url := normalizeUrl URL_withoutHash (sr_url (fst entry));
                             src_reason :=
                               cleanSnippet
                                 (orDefault (sr_description (fst entry))
                                    (sr_rawDescription (fst entry)));
                             src_query := query |} ])).
  { apply Forall_app. split; [done|]. by constructor. }
  destruct (m <=? _)%nat; [done|]. by apply IH.
Qed.

Lemma selectFromQueries_typed rank type m queries :
  forall selected seen,
    Forall (fun source => src_type source = type) selected ->
    Forall (fun source => src_type source = type)
      (sel_selected
         (selectFromQueries search URL_withoutHash rank type m queries selected seen)).
Proof.
  induction queries as [|query rest IH]; intros selected seen Hselected; simpl; [done|].
  destruct (search query) as [results|]; [|by apply IH].
  pose proof (selectRanked_typed type m query (rank results) selected seen Hselected)
    as Hafter.
  destruct (sel_returned _); [done|]. by apply IH.
Qed.

Lemma addFallbacks_typed (P : DiscoveredSource -> Prop) m fallbacks seen :
  Forall P fallbacks ->
  forall selected, Forall P selected -> Forall P (addFallbacks m fallbacks seen selected).
Proof.
  induction 1 as [|fallback rest Hfallback Hrest IH]; intros selected Hselected;
    simpl; [done|].
  assert (Hnext : Forall P (if bool_decide (src_url fallback ∈ seen) then selected
                            else selected ++ [fallback])).
  { destruct (bool_decide _); [done|]. apply Forall_app. split; [done|]. by constructor. }
  destruct (m <=? _)%nat; [done|]. by apply IH.
Qed.

Lemma finishSelection_typed (P : DiscoveredSource -> Prop) m fallbacks sel found :
  (forall listed, fallbacks = Returns listed -> Forall P listed) ->
  Forall P (sel_selected sel) ->
  finishSelection m fallbacks sel = Returns found ->
  Forall P found.
Proof.
  intros Hfallbacks Hselected. unfold finishSelection.
  destruct (sel_returned sel); [by intros [= <-]|].
  destruct (_ <? _)%nat.
  - destruct fallbacks as [listed|e]; [|done]. intros [= <-].
    apply (Forall_sublist _ _ _ (sublist_take _ _)).
    apply addFallbacks_typed; [by apply Hfallbacks|done].
  - intros [= <-]. by apply (Forall_sublist _ _ _ (sublist_take _ _)).
Qed.

Lemma fallbackSources_typed encoded topic type :
  Forall (fun source => src_type source = type)
    (fallbackSources URL_withoutHash encoded topic type).
Proof. destruct type; repeat constructor. Qed.

Lemma discoverByType_typed topic type m found :
  discoverByType search URL_withoutHash encodeURIComponent topic type m
  = Returns found ->
  Forall (fun source => src_type source = type) found.
Proof.
  unfold discoverByType.
  apply finishSelection_typed; [|by apply selectFromQueries_typed].
  intros listed. unfold defaultFallbacks.
  destruct (encodeURIComponent topic); [|done].
  intros [= <-]. apply fallbackSources_typed.
Qed.

(** The sources of one type among those of all types, listed type
    after type. *)
Lemma filter_type_concat (byType : SourceType -> list DiscoveredSource)
    (type : SourceType) :
  (forall t, Forall (fun source => src_type source = t) (byType t)) ->
  filter (fun source => src_type source = type)
    (List.concat (map byType SOURCE_TYPES))
  = byType type.
Proof.
  intros Htyped.
  assert (Hsame : forall t, t = type ->
            filter (fun source => src_type source = type) (byType t) = byType t).
  { intros t ->. specialize (Htyped type).
    induction Htyped as [|source rest Hsource _ IH]; [done|].
    rewrite filter_cons_True by done. by rewrite IH. }
  assert (Hother : forall t, t <> type ->
            filter (fun source => src_type source = type) (byType t) = []).
  { intros t Hne. specialize (Htyped t).
    induction Htyped as [|source rest Hsource _ IH]; [done|].
    rewrite filter_cons_False by congruence. exact IH. }
  unfold SOURCE_TYPES. simpl. rewrite !filter_app, app_nil_r.
  destruct type.
  - rewrite (Hsame docs), (Hother github), (Hother stackoverflow), (Hother blog)
      by done.
    by rewrite !app_nil_r.
  - rewrite (Hother docs), (Hsame github), (Hother stackoverflow), (Hother blog)
      by done.
    by rewrite !app_nil_r.
  - rewrite (Hother docs), (Hother github), (Hsame stackoverflow), (Hother blog)
      by done.
    by rewrite !app_nil_r.
  - by rewrite (Hother docs), (Hother github), (Hother stackoverflow), (Hsame blog)
      by done.
Qed.

Lemma sublist_filter {A : Type} (P : A -> Prop) `{!forall x, Decision (P x)}
    (l k : list A) :
  l `sublist_of` k -> filter P l `sublist_of` filter P k.
Proof.
  induction 1 as [|x l k _ IH|x l k _ IH]; [done| |].
  - destruct (decide (P x)).
    + rewrite !filter_cons_True by done. by apply sublist_skip.
    + by rewrite !filter_cons_False by done.
  - destruct (decide (P x)).
    + rewrite filter_cons_True by done. by apply sublist_cons.
    + by rewrite filter_cons_False by done.
Qed.

(** X10: for every topic and every whole-number quota, a discovery
    that returns returns between 1 and 12 sources; no two of them have
    the same URL; they are the per-type selections listed type after
    type (docs, GitHub, Stack Overflow, blog) with every later source of
    a URL already listed left out; and at most [limit] of them, the
    quota clamped to 1..3, have any one type. *)
Theorem discoverSources_distinct (topic : string) (maxPerType : nat)
    (found : list DiscoveredSource) :
  discoverSources search URL_withoutHash encodeURIComponent topic maxPerType
  = Returns found ->
  let limit := Nat.max 1 (Nat.min maxPerType 3) in
  exists byType,
    (forall type,
        discoverByType search URL_withoutHash encodeURIComponent topic type limit
        = Returns (byType type))
    /\ (1 <= List.length found <= 12)%nat
    /\ NoDup (src_url <$> found)
    /\ found = firstOccurrences src_url ∅ (List.concat (map byType SOURCE_TYPES))
    /\ found `sublist_of` List.concat (map byType SOURCE_TYPES)
    /\ forall type,
         (List.length (filter (fun source => src_type source = type) found)
          <= limit)%nat.
Proof.
  intros (byType & HbyType & Hdeduped)%discoverSources_selections limit.
  fold limit in HbyType. exists byType. split; [done|].
  assert (Hfound : found
                   = firstOccurrences src_url ∅ (List.concat (map byType SOURCE_TYPES))).
  { rewrite Hdeduped. by rewrite dedupeByUrl_firstOccurrences. }
  assert (Hbounds : forall type, (1 <= List.length (byType type) <= limit)%nat).
  { intros type. eapply discoverByType_bounds; [|apply HbyType]. unfold limit. lia. }
  assert (Hsub : found `sublist_of` List.concat (map byType SOURCE_TYPES)).
  { rewrite Hfound. apply firstOccurrences_sublist. }
  split; [|split; [|split; [done|split; [done|]]]].
  - pose proof (deduped_bounds byType limit Hbounds) as Hlen.
    rewrite Hdeduped. unfold limit in *. lia.
  - rewrite Hfound. apply firstOccurrences_NoDup.
  - intros type.
    pose proof (sublist_filter (fun source => src_type source = type) _ _ Hsub) as Hf.
    apply sublist_length in Hf.
    rewrite (filter_type_concat byType type) in Hf
      by (intros t; eapply discoverByType_typed; apply HbyType).
    specialize (Hbounds type). lia.
Qed.

End DiscoveredFacts.

Lemma discoverSources_distinct_witness :
  exists found,
    discoverSources search_docs_only URL_as_written encode_as_written "Docker" 2
    = Returns found
    /\ (1 <= List.length found <= 12)%nat
    /\ NoDup (src_url <$> found).
Proof.
  eexists. split; [vm_compute; reflexivity|].
  destruct (discoverSources_distinct search_docs_only URL_as_written
              encode_as_written "Docker" 2 _ eq_refl)
    as (byType & _ & Hlen & Hdup & _).
  split; [exact Hlen|exact Hdup].
Defined.

(** ** Discovery without a search provider *)

Lemma firstOccurrences_distinct {A : Type} (key : A -> string) (values : list A) :
  forall seen,
    NoDup (key <$> values) ->
    (forall value, value ∈ values -> key value ∉ seen) ->
    firstOccurrences key seen values = values.
Proof.
  induction values as [|value rest IH]; intros seen Hdup Hfresh; simpl; [done|].
  apply NoDup_cons in Hdup as [Hvalue Hrest].
  rewrite bool_decide_eq_false_2 by (apply Hfresh; left).
  f_equal. apply IH; [done|].
  intros other Hother. specialize (Hfresh other (list_elem_of_further _ _ _ Hother)).
  assert (key other <> key value).
  { intros Heq. apply Hvalue. rewrite <- Heq. by apply list_elem_of_fmap_2. }
  set_solver.
Qed.

(** What tells two fallback URLs apart: the character after
    [https://] and the length. *)
Definition urlMark (url : string) : option ascii * nat :=
  (String.get 8 url, String.length url).

Ltac distinct_marks :=
  repeat (apply NoDup_cons; split;
          [ let H := fresh in
            intros H;
            repeat (apply elem_of_cons in H as [H|H];
                    [first [discriminate H | injection H; intros; lia]|]);
            by apply elem_of_nil in H
          |]);
  apply NoDup_nil_2.

Section SearchDown.

Variable search : string -> option (list SearchResult).
Variable URL_withoutHash : string -> option string.
Variable encodeURIComponent : string -> Completion string.

Hypothesis search_throws : forall query, search query = None.

Lemma selectFromQueries_down rank type m queries selected seen :
  selectFromQueries search URL_withoutHash rank type m queries selected seen
  = {| sel_returned := false; sel_selected := selected; sel_seen := seen |}.
Proof.
  induction queries as [|query rest IH]; simpl; [done|].
  by rewrite search_throws.
Qed.

Lemma addFallbacks_all m fallbacks :
  forall selected,
    (List.length selected < m)%nat ->
    addFallbacks m fallbacks ∅ selected
    = selected ++ List.firstn (m - List.length selected) fallbacks.
Proof.
  induction fallbacks as [|fallback rest IH]; intros selected Hlen; simpl.
  - by rewrite firstn_nil, app_nil_r.
  - rewrite bool_decide_eq_false_2 by set_solver. rewrite length_app. simpl.
    destruct (m <=? List.length selected + 1)%nat eqn:Hfull.
    + apply Nat.leb_le in Hfull.
      by replace (m - List.length selected)%nat with 1%nat by lia.
    + apply Nat.leb_gt in Hfull.
      rewrite IH by (rewrite length_app; simpl; lia).
      rewrite length_app. simpl.
      replace (m - List.length selected)%nat
        with (S (m - (List.length selected + 1)))%nat by lia.
      simpl. by rewrite <- app_assoc.
Qed.

Lemma discoverByType_down topic type m :
  (1 <= m)%nat ->
  discoverByType search URL_withoutHash encodeURIComponent topic type m
  = match encodeURIComponent topic with
    | Throws e => Throws e
    | Returns encoded =>
        Returns (List.firstn m (fallbackSources URL_withoutHash encoded topic type))
    end.
Proof.
  intros Hm. unfold discoverByType. rewrite selectFromQueries_down.
  unfold finishSelection, defaultFallbacks. simpl.
  destruct m as [|m]; [lia|].
  change (0 <? S m)%nat with true. cbv iota.
  destruct (encodeURIComponent topic) as [encoded|e]; [|done].
  rewrite addFallbacks_all by (simpl; lia). simpl app.
  rewrite take_take. do 2 f_equal. lia.
Qed.

Lemma fallbackSources_distinct encoded topic :
  NoDup (src_url
         <$> List.concat
               (map (fallbackSources URL_withoutHash encoded topic) SOURCE_TYPES)).
Proof.
  apply (NoDup_fmap_1 urlMark).
  unfold SOURCE_TYPES, fallbackSources, urlMark. simpl.
  rewrite !length_append. simpl.
  distinct_marks.
Qed.

(** X11: when every call of the search provider throws, discovery
    depends on [encodeURIComponent(topic)] alone.  When that call
    returns, discovery returns, for each type in the order docs, GitHub,
    Stack Overflow, blog, the first [limit] fallback sources of that
    type, [4 * limit] sources in all; when it throws, discovery throws
    what it threw. *)
Theorem discoverSources_search_down (topic : string) (maxPerType : nat) :
  let limit := Nat.max 1 (Nat.min maxPerType 3) in
  match encodeURIComponent topic with
  | Throws e =>
      discoverSources search URL_withoutHash encodeURIComponent topic maxPerType
      = Throws e
  | Returns encoded =>
      let found :=
        List.concat
          (map (fun type =>
                  List.firstn limit
                    (fallbackSources URL_withoutHash encoded topic type))
             SOURCE_TYPES) in
      discoverSources search URL_withoutHash encodeURIComponent topic maxPerType
      = Returns found
      /\ List.length found = (4 * limit)%nat
  end.
Proof.
  intros limit.
  assert (Hlimit : (1 <= limit)%nat) by (unfold limit; lia).
  destruct (encodeURIComponent topic) as [encoded|e] eqn:Hencoded.
  - cbv zeta. split.
    + unfold discoverSources. fold limit.
      rewrite (allFulfilled_types_returns _
                 (fun type =>
                    List.firstn limit
                      (fallbackSources URL_withoutHash encoded topic type)))
        by (intros type; by rewrite discoverByType_down, Hencoded).
      f_equal. rewrite dedupeByUrl_firstOccurrences. simpl app.
      apply firstOccurrences_distinct; [|set_solver].
      eapply sublist_NoDup; [apply (fallbackSources_distinct encoded topic)|].
      apply fmap_sublist. unfold SOURCE_TYPES. cbn [map List.concat].
      repeat (apply sublist_app; [apply sublist_take|]). constructor.
    + unfold SOURCE_TYPES. simpl. rewrite !length_app, !length_firstn.
      simpl. lia.
  - unfold discoverSources. fold limit. unfold SOURCE_TYPES. simpl.
    by rewrite discoverByType_down, Hencoded.
Qed.

End SearchDown.

Lemma discoverSources_search_down_witness :
  (forall query, search_down query = None)
  /\ (exists found,
        discoverSources search_down URL_as_written encode_as_written "Docker" 5
        = Returns found
        /\ List.length found = 12%nat)
  /\ discoverSources search_down URL_as_written encode_well_formed lone_surrogate 5
     = Throws (ErrorObject "URI malformed").
Proof.
  split; [done|]. split.
  - eexists.
    exact (discoverSources_search_down search_down URL_as_written encode_as_written
             (fun query => eq_refl) "Docker" 5).
  - exact (discoverSources_search_down search_down URL_as_written encode_well_formed
             (fun query => eq_refl) lone_surrogate 5).
Defined.

(** ** Topic tokens and snippets *)











Lemma includes_cons s needle c :
  includes (String c s) needle
  = String.prefix needle (String c s) || includes s needle.
Proof. reflexivity. Qed.

Lemma stripTags_plain s : includes s "<" = false -> stripTags 0 s = s.
Proof.
  induction s as [|c s IH]; [done|]. rewrite includes_cons.
  intros [Hc Hs]%orb_false_elim. simpl.
  destruct (Ascii.eqb c "<") eqn:Heq.
  - apply Ascii.eqb_eq in Heq. subst c. by destruct s.
  - by rewrite IH.
Qed.

(** X13: a cleaned snippet has no white space around it and stands on
    one line (the only white space it holds is the space); and a snippet
    without [<] only has its white space collapsed and trimmed. *)
Theorem cleanSnippet_clean (value : string) :
  trim (cleanSnippet value) = cleanSnippet value
  /\ onOneLine (cleanSnippet value) = true
  /\ (includes value "<" = false ->
      cleanSnippet value = trim (collapseWhiteSpace value)).
Proof.
  unfold cleanSnippet. split; [apply trim_idempotent|]. split.
  - unfold trim. apply allChars_trimEnd, allChars_trimStart, collapseRuns_onOneLine.
  - intros Hplain. by rewrite stripTags_plain.
Qed.

(** ** The contract of the agent client *)

(** The URLs handed to [onStreamingUrl], in order. *)
Definition announcedUrls (calls : list CallbackCall) : list string :=
  omap (fun call =>
          match call with
          | OnStreamingUrl streamingUrl => Some streamingUrl
          | OnStep _ => None
          end) calls.

(** A callback is never called with an empty argument. *)
Definition callOk (call : CallbackCall) : Prop :=
  match call with
  | OnStep message => truthy message = true
  | OnStreamingUrl streamingUrl => streamingUrl <> EmptyString
  end.

(** The result is a tagged union: a success has a payload and no error;
    a failure has an error and no payload. *)
Definition taggedResult (r : TinyFishRunResult) : Prop :=
  if success r
  then error r = JUndefined /\ isUndefined (result r) = false
  else result r = JUndefined /\ isUndefined (error r) = false.

(** What the read loop keeps true of its state. *)
Definition stateOk (st : TaskState) : Prop :=
  ts_streamingUrl st = list.last (announcedUrls (ts_calls st))
  /\ Forall callOk (ts_calls st).

Lemma orElse_truthy (a b : JsValue) : truthy b = true -> truthy (orElse a b) = true.
Proof. unfold orElse. by destruct (truthy a) eqn:Ha. Qed.

Lemma orElse_defined (a b : JsValue) :
  isUndefined b = false -> isUndefined (orElse a b) = false.
Proof. unfold orElse. destruct (truthy a) eqn:Ha; [|done]. by destruct a. Qed.

Lemma readStepMessage_truthy event : truthy (readStepMessage event) = true.
Proof. unfold readStepMessage. by repeat apply orElse_truthy. Qed.

Lemma announcedUrls_app calls1 calls2 :
  announcedUrls (calls1 ++ calls2) = announcedUrls calls1 ++ announcedUrls calls2.
Proof. apply omap_app. Qed.

Lemma caught_tagged e streamingUrl : taggedResult (caught e streamingUrl).
Proof. by split. Qed.

Section ClientContract.

Variable JSON_parse : string -> option JsValue.
Variable fetch : TinyFishTaskRequest -> string -> FetchOutcome.

Lemma processLine_contract line st st' outcome :
  stateOk st ->
  processLine JSON_parse line st = (st', outcome) ->
  stateOk st'
  /\ forall r, outcome = Some r ->
       taggedResult r /\ streamingUrl r = ts_streamingUrl st'.
Proof.
  intros Hst. unfold processLine.
  destruct (parseSseLine JSON_parse line) as [event|];
    [|by intros [= <- <-]].
  destruct (truthy event); simpl; [|by intros [= <- <-]].
  set (st1 := match readStreamingUrl event with Some _ => _ | None => _ end).
  assert (Hst1 : stateOk st1).
  { unfold st1. destruct (readStreamingUrl event) as [url|]; [|done].
    destruct (isEmpty url) eqn:Hurl; [done|].
    destruct Hst as [Hlast Hcalls]. split; simpl.
    - rewrite announcedUrls_app. simpl. by rewrite last_snoc.
    - apply Forall_app. split; [done|]. constructor; [|done].
      simpl. by destruct url. }
  clearbody st1.
  destruct (upperField event "type") as [type|e].
  - set (st2 := if isText type "STEP" then _ else _).
    assert (Hst2 : stateOk st2 /\ ts_streamingUrl st2 = ts_streamingUrl st1).
    { unfold st2. destruct (isText type "STEP"); [|done].
      destruct Hst1 as [Hlast Hcalls]. split; [|done]. split; simpl.
      - rewrite announcedUrls_app. simpl. by rewrite app_nil_r.
      - apply Forall_app. split; [done|]. constructor; [|done].
        apply readStepMessage_truthy. }
    clearbody st2. destruct Hst2 as [Hst2 Hurl].
    destruct (isComplete event) as [[|]|e].
    + intros [= <- <-]. split; [done|]. intros r [= <-]. split; [|done].
      split; [done|]. simpl. by repeat apply coalesce_defined.
    + destruct (isFailure event) as [[|]|e]; intros [= <- <-];
        (split; [done|]); intros r [= <-].
      * split; [|done]. split; [done|]. simpl. by apply orElse_defined.
      * split; [apply caught_tagged|done].
    + intros [= <- <-]. split; [done|]. intros r [= <-].
      split; [apply caught_tagged|done].
  - intros [= <- <-]. split; [done|]. intros r [= <-].
    split; [apply caught_tagged|done].
Qed.

Lemma processLines_contract lines :
  forall st st' outcome,
    stateOk st ->
    processLines JSON_parse lines st = (st', outcome) ->
    stateOk st'
    /\ forall r, outcome = Some r ->
         taggedResult r /\ streamingUrl r = ts_streamingUrl st'.
Proof.
  induction lines as [|line rest IH]; intros st st' outcome Hst; simpl.
  - by intros [= <- <-].
  - destruct (processLine JSON_parse line st) as [st1 [r1|]] eqn:Hline.
    + intros [= <- <-]. by apply (processLine_contract line st).
    + destruct (processLine_contract line st st1 None Hst Hline) as [Hst1 _].
      by apply IH.
Qed.

Lemma readLoop_contract chunks readFailure :
  forall buffer st st' r,
    stateOk st ->
    readLoop JSON_parse chunks readFailure buffer st = (st', r) ->
    stateOk st' /\ taggedResult r /\ streamingUrl r = ts_streamingUrl st'.
Proof.
  induction chunks as [|value rest IH]; intros buffer st st' r Hst; simpl.
  - destruct readFailure; intros [= <- <-]; (split; [done|]); by split.
  - destruct (processLines JSON_parse _ st) as [st1 [r1|]] eqn:Hlines.
    + intros [= <- <-].
      destruct (processLines_contract _ _ _ _ Hst Hlines) as [Hst1 Hr].
      split; [done|]. by apply Hr.
    + destruct (processLines_contract _ _ _ _ Hst Hlines) as [Hst1 _].
      by apply IH.
Qed.

(** X14: whatever the agent sends, the result of [runTinyFishTask] is
    a tagged union (a success has a payload and no [error], a failure an
    [error] and no payload); [onStep] is never called with an empty
    message nor [onStreamingUrl] with an empty URL; and the
    [streamingUrl] of the result is the last URL handed to
    [onStreamingUrl], none when it was never called. *)
Theorem runTinyFishTask_contract (request : TinyFishTaskRequest) (apiKey : string) :
  let calls := fst (runTinyFishTask JSON_parse fetch request apiKey) in
  let runResult := snd (runTinyFishTask JSON_parse fetch request apiKey) in
  taggedResult runResult
  /\ Forall callOk calls
  /\ streamingUrl runResult = list.last (announcedUrls calls).
Proof.
  unfold runTinyFishTask.
  destruct (fetch request apiKey) as [e|status [text|e]| |chunks readFailure];
    simpl; try (by repeat split).
  destruct (readLoop JSON_parse chunks readFailure EmptyString
              {| ts_streamingUrl := None; ts_calls := [] |}) as [st r] eqn:Hloop.
  assert (Hstart : stateOk {| ts_streamingUrl := None; ts_calls := [] |})
    by (split; [done|constructor]).
  destruct (readLoop_contract chunks readFailure _ _ _ _ Hstart Hloop)
    as ([Hlast Hcalls] & Htagged & Hurl).
  simpl. split; [done|]. split; [done|]. by rewrite Hurl.
Qed.

End ClientContract.

(** ** Completion and failure events *)

Lemma isText_eq value text : isText value text = true -> value = Some text.
Proof.
  destruct value as [s|]; simpl; [|discriminate].
  by intros ->%String.eqb_eq.
Qed.

(** X15: no event is both a completion and a failure, so the order in
    which the read loop tests an event does not matter and a completion
    is never reported as a failure. *)
Theorem isComplete_excludes_isFailure (event : JsValue) :
  isComplete event = Returns true -> isFailure event = Returns false.
Proof.
  unfold isComplete, isFailure.
  destruct (upperField event "type") as [type|e]; [|discriminate].
  destruct (upperField event "status") as [status|e]; [|discriminate].
  intros [= Hcomplete]. f_equal.
  apply andb_prop in Hcomplete as [Htype Hstatus].
  apply isText_eq in Htype as ->. simpl.
  destruct status as [status|]; [|done]. simpl in *.
  apply orb_prop in Hstatus as [Hstatus|Hstatus].
  - apply orb_prop in Hstatus as [Hstatus|Hstatus].
    + apply negb_true_iff, negb_false_iff in Hstatus. by destruct status.
    + by apply String.eqb_eq in Hstatus as ->.
  - by apply String.eqb_eq in Hstatus as ->.
Qed.

Lemma isComplete_excludes_isFailure_witness :
  isComplete (JObj [ ("type", JStr "complete"); ("status", JStr "done") ])
  = Returns true
  /\ isFailure (JObj [ ("type", JStr "complete"); ("status", JStr "done") ])
     = Returns false.
Proof.
  split; [reflexivity|].
  apply isComplete_excludes_isFailure. reflexivity.
Defined.

(** ** Chunking of the agent's stream *)

Lemma splitChar_cons sep s : exists piece pieces, splitChar sep s = piece :: pieces.
Proof.
  induction s as [|c s IH]; simpl; [by eexists _, _|].
  destruct (Ascii.eqb c sep); [by eexists _, _|].
  destruct IH as (piece & pieces & ->). by eexists _, _.
Qed.

(** Splitting a text that goes on: the finished lines stay, and the
    unfinished last line is split together with what follows. *)
Lemma splitChar_app sep (x y : string) :
  splitChar sep (x +:+ y)
  = List.removelast (splitChar sep x)
    ++ splitChar sep (List.last (splitChar sep x) EmptyString +:+ y).
Proof.
  induction x as [|c x IH]; [done|].
  rewrite append_cons. simpl splitChar.
  destruct (splitChar_cons sep x) as (p & ps & Hx). rewrite Hx in *.
  destruct (Ascii.eqb c sep) eqn:Hc.
  - rewrite IH. reflexivity.
  - rewrite IH. destruct ps as [|p' ps].
    + simpl. rewrite ?append_cons. simpl. by rewrite Hc.
    + reflexivity.
Qed.

Section Chunking.

Variable JSON_parse : string -> option JsValue.

Lemma processLines_app lines1 lines2 st :
  processLines JSON_parse (lines1 ++ lines2) st
  = match processLines JSON_parse lines1 st with
    | (st', Some r) => (st', Some r)
    | (st', None) => processLines JSON_parse lines2 st'
    end.
Proof.
  revert st. induction lines1 as [|line rest IH]; intros st; simpl; [done|].
  destruct (processLine JSON_parse line st) as [st1 [r1|]]; [done|]. apply IH.
Qed.

Lemma removelast_app_cons {A : Type} (l : list A) (x : A) (k : list A) :
  List.removelast (l ++ x :: k) = l ++ List.removelast (x :: k).
Proof. by apply removelast_app. Qed.

Lemma last_app_cons {A : Type} (l : list A) (x : A) (k : list A) (d : A) :
  List.last (l ++ x :: k) d = List.last (x :: k) d.
Proof.
  induction l as [|y l IH]; [done|].
  change ((y :: l) ++ x :: k) with (y :: (l ++ x :: k)).
  destruct (l ++ x :: k) eqn:Heq; [by destruct l|].
  by rewrite <- IH.
Qed.

(** Two chunks read one after the other are read as their
    concatenation is. *)
Lemma readLoop_merge value1 value2 rest readFailure buffer st :
  readLoop JSON_parse (value1 :: value2 :: rest) readFailure buffer st
  = readLoop JSON_parse ((value1 +:+ value2) :: rest) readFailure buffer st.
Proof.
  cbn [readLoop]. rewrite <- append_assoc.
  rewrite (splitChar_app (ascii_of_nat 10) (buffer +:+ value1) value2).
  set (lines1 := splitChar (ascii_of_nat 10) (buffer +:+ value1)).
  destruct (splitChar_cons (ascii_of_nat 10)
              (List.last lines1 EmptyString +:+ value2)) as (p & ps & Hsplit).
  rewrite Hsplit, removelast_app_cons, last_app_cons, processLines_app.
  by destruct (processLines JSON_parse (List.removelast lines1) st) as [st1 [r1|]].
Qed.

Lemma readLoop_empty_chunk rest readFailure st :
  readLoop JSON_parse (EmptyString :: rest) readFailure EmptyString st
  = readLoop JSON_parse rest readFailure EmptyString st.
Proof. reflexivity. Qed.

Lemma append_nil_r (s : string) : s +:+ EmptyString = s.
Proof. induction s as [|c s IH]; [done|]. by rewrite append_cons, IH. Qed.

Lemma readLoop_first_chunk rest readFailure st :
  forall value,
    readLoop JSON_parse (value :: rest) readFailure EmptyString st
    = readLoop JSON_parse [value +:+ concatenation rest] readFailure EmptyString st.
Proof.
  induction rest as [|value2 rest IH]; intros value.
  - simpl concatenation. by rewrite append_nil_r.
  - rewrite readLoop_merge, IH.
    change (concatenation (value2 :: rest)) with (value2 +:+ concatenation rest).
    by rewrite append_assoc.
Qed.

(** The outcome of the read loop depends on the text the agent sent,
    not on how the network cut it into chunks. *)
Lemma readLoop_chunks chunks readFailure st :
  readLoop JSON_parse chunks readFailure EmptyString st
  = readLoop JSON_parse [concatenation chunks] readFailure EmptyString st.
Proof.
  destruct chunks as [|value rest]; [by rewrite readLoop_empty_chunk|].
  apply readLoop_first_chunk.
Qed.

End Chunking.

(** X16: the calls of the callbacks and the result of
    [runTinyFishTask] depend on the text of the agent's stream, not on
    how the network cut it into chunks: two exchanges whose chunks
    concatenate to the same text, and that end the same way, give the
    same calls and the same result. *)
Theorem runTinyFishTask_chunking (JSON_parse : string -> option JsValue)
    (fetch1 fetch2 : TinyFishTaskRequest -> string -> FetchOutcome)
    (request : TinyFishTaskRequest) (apiKey : string)
    (chunks1 chunks2 : list string) (readFailure : option Thrown) :
  fetch1 request apiKey = FetchBody chunks1 readFailure ->
  fetch2 request apiKey = FetchBody chunks2 readFailure ->
  concatenation chunks1 = concatenation chunks2 ->
  runTinyFishTask JSON_parse fetch1 request apiKey
  = runTinyFishTask JSON_parse fetch2 request apiKey.
Proof.
  intros Hfetch1 Hfetch2 Htext. unfold runTinyFishTask.
  rewrite Hfetch1, Hfetch2.
  by rewrite (readLoop_chunks JSON_parse chunks1), (readLoop_chunks JSON_parse chunks2),
    Htext.
Qed.

(** The same stream in one chunk and cut inside its lines. *)
Definition fetch_in_one_chunk (request : TinyFishTaskRequest) (apiKey : string)
    : FetchOutcome :=
  FetchBody [ "data: S" +:+ LF +:+ "data: C" +:+ LF ] None.

Definition fetch_in_pieces (request : TinyFishTaskRequest) (apiKey : string)
    : FetchOutcome :=
  FetchBody [ "da"; "ta: S" +:+ LF +:+ "data"; ": C"; LF ] None.

Lemma runTinyFishTask_chunking_witness :
  runTinyFishTask parse_sample fetch_in_one_chunk sample_request "key"
  = runTinyFishTask parse_sample fetch_in_pieces sample_request "key".
Proof.
  apply (runTinyFishTask_chunking parse_sample fetch_in_one_chunk fetch_in_pieces
           sample_request "key"
           [ "data: S" +:+ LF +:+ "data: C" +:+ LF ]
           [ "da"; "ta: S" +:+ LF +:+ "data"; ": C"; LF ] None);
    reflexivity.
Defined.

(** ** The events of one source *)

(** The first event of a source's task. *)
Definition launching (source : DiscoveredSource) : StreamEvent :=
  EvSourceUpdate (src_id source) StatusScraping
    (JStr "Launching TinyFish browser agent...") None.

(** A progress update of the source with the id [id]: its status is
    [scraping], its step is not empty, and a streaming URL it carries is
    not empty. *)
Definition isLiveUpdate (id : string) (event : StreamEvent) : Prop :=
  exists step streamingUrl,
    event = EvSourceUpdate id StatusScraping step streamingUrl
    /\ truthy step = true
    /\ streamingUrl <> Some EmptyString.

(** The event that ends a source's task says what the task returns. *)
Definition closes (source : DiscoveredSource) (value : ScrapeResult)
    (final : StreamEvent) : Prop :=
  match value with
  | StatusComplete s =>
      final = EvSourceComplete (src_id source) (wordCount s)
      /\ ok_source s = source
      /\ wordCount s = countWords (rawText (extracted s))
  | StatusError failure =>
      final = EvSourceError (src_id source) (err_error failure)
      /\ err_source failure = source
      /\ truthy (err_error failure) = true
  end.

Lemma callbackEvent_live source call :
  callOk call -> isLiveUpdate (src_id source) (callbackEvent source call).
Proof.
  destruct call as [message|streamingUrl]; simpl; intros Hcall.
  - exists message, None. split; [done|]. by split.
  - exists (JStr "Live browser preview available."), (Some streamingUrl).
    split; [done|]. split; [done|]. intros [= ->]. by apply Hcall.
Qed.

Section SourceEvents.

Variable JSON_parse : string -> option JsValue.
Variable network : nat -> TinyFishTaskRequest -> string -> FetchOutcome.

Lemma runTinyFishTask_callsOk fetch request apiKey :
  Forall callOk (fst (runTinyFishTask JSON_parse fetch request apiKey)).
Proof.
  unfold runTinyFishTask.
  destruct (fetch request apiKey) as [e|status [text|e]| |chunks readFailure];
    simpl; try constructor.
  destruct (readLoop JSON_parse chunks readFailure EmptyString
              {| ts_streamingUrl := None; ts_calls := [] |}) as [st r] eqn:Hloop.
  assert (Hstart : stateOk {| ts_streamingUrl := None; ts_calls := [] |})
    by (split; [done|constructor]).
  by destruct (readLoop_contract JSON_parse chunks readFailure _ _ _ _ Hstart Hloop)
    as ([_ Hcalls] & _).
Qed.

(** What a source's task sends and returns. *)
Lemma scrapeSource_trace topic apiKey index source log :
  exists updates final value,
    scrapeSource JSON_parse network topic apiKey index source log
    = (log ++ launching source :: updates ++ [final], Returns value)
    /\ Forall (isLiveUpdate (src_id source)) updates
    /\ closes source value final.
Proof.
  unfold scrapeSource, bind, sendEvent.
  pose proof (runTinyFishTask_callsOk (network index)
                {| req_url := src_url source;
                   req_goal := buildExtractionGoal topic (src_type source);
                   req_browser_profile := Some "lite" |} apiKey) as Hcalls.
  destruct (runTinyFishTask JSON_parse (network index) _ apiKey)
    as [calls runResult].
  simpl in Hcalls. rewrite sendAll_run.
  assert (Hlive : Forall (isLiveUpdate (src_id source))
                    (map (callbackEvent source) calls)).
  { apply Forall_forall. intros event (call & -> & Hin)%list_elem_of_fmap.
    apply callbackEvent_live. by eapply (proj1 (Forall_forall _ _) Hcalls). }
  destruct (negb (success runResult) || isUndefined (result runResult))
    eqn:Hfailed.
  - eexists (map (callbackEvent source) calls), _, _.
    rewrite <- !app_assoc. split; [reflexivity|]. split; [done|].
    simpl. split; [done|]. split; [done|]. by apply orElse_truthy.
  - apply orb_false_elim in Hfailed as [_ Hdefined].
    destruct (normalizeExtraction_defined JSON_parse _ source Hdefined)
      as [extraction Hextraction]. rewrite Hextraction.
    eexists (map (callbackEvent source) calls), _, _.
    rewrite <- !app_assoc. split; [reflexivity|]. split; [done|].
    simpl. split; [done|]. by split.
Qed.

(** X17: the task of a source first announces the launch, then sends
    progress updates (each with the status [scraping], a step that is
    not empty and, if any, a streaming URL that is not empty), and ends
    with exactly one closing event, after which it sends nothing:
    [source_complete] with the word count of the extraction's raw text
    when it returns a success, [source_error] with a message that is
    not empty when it returns a failure.  Every event carries the
    source's id, the outcome the source itself, and the task never
    throws. *)
Theorem scrapeSource_protocol (topic apiKey : string) (index : nat)
    (source : DiscoveredSource) (log : list StreamEvent) :
  exists updates final value,
    scrapeSource JSON_parse network topic apiKey index source log
    = (log ++ launching source :: updates ++ [final], Returns value)
    /\ Forall (isLiveUpdate (src_id source)) updates
    /\ closes source value final.
Proof. apply scrapeSource_trace. Qed.

End SourceEvents.

(** ** The events of the concurrent tasks *)

(** [merged] is an interleaving of the lists [lists]: it takes, step
    after step, the next element of one of them, until none is left. *)
Inductive Interleaving {A : Type} : list (list A) -> list A -> Prop :=
| interleaving_done (lists : list (list A)) :
    Forall (fun l => l = []) lists -> Interleaving lists []
| interleaving_step (lists : list (list A)) (i : nat) (x : A) (rest merged : list A) :
    lists !! i = Some (x :: rest) ->
    Interleaving (<[ i := rest ]> lists) merged ->
    Interleaving lists (x :: merged).

(** A list that runs to its end within an interleaving. *)
Lemma interleaving_run {A : Type} (run : list A) :
  forall (lists : list (list A)) (i : nat) (merged : list A),
    lists !! i = Some run ->
    Interleaving (<[ i := [] ]> lists) merged ->
    Interleaving lists (run ++ merged).
Proof.
  induction run as [|x rest IH]; intros lists i merged Hi Hmerged.
  - by rewrite list_insert_id in Hmerged.
  - simpl. apply (interleaving_step lists i x rest); [done|].
    apply (IH _ i).
    + apply list_lookup_insert_eq. by eapply lookup_lt_Some.
    + by rewrite list_insert_insert_eq.
Qed.

(** An interleaving holds the elements of the lists, each as often as
    the lists do. *)
Lemma interleaving_perm {A : Type} (lists : list (list A)) (merged : list A) :
  Interleaving lists merged -> merged ≡ₚ List.concat lists.
Proof.
  induction 1 as [lists Hnil|lists i x rest merged Hi _ IH].
  - induction Hnil as [|l lists -> _ IHl]; [done|]. by simpl.
  - rewrite IH. clear IH.
    revert i Hi. induction lists as [|l lists IHl]; intros i Hi; [done|].
    destruct i as [|i]; simpl in *.
    + injection Hi as ->. done.
    + rewrite <- (IHl i Hi). by rewrite Permutation_middle.
Qed.

(** Each list stands in an interleaving in its own order. *)
Lemma interleaving_sublist {A : Type} (lists : list (list A)) (merged : list A) :
  Interleaving lists merged ->
  forall i l, lists !! i = Some l -> l `sublist_of` merged.
Proof.
  induction 1 as [lists Hnil|lists j x rest merged Hj _ IH]; intros i l Hi.
  - rewrite Forall_forall in Hnil.
    rewrite (Hnil l) by (by eapply list_elem_of_lookup_2). constructor.
  - destruct (decide (i = j)) as [->|Hne].
    + rewrite Hj in Hi. injection Hi as <-. apply sublist_skip.
      apply (IH j). apply list_lookup_insert_eq. by eapply lookup_lt_Some.
    + apply sublist_cons. apply (IH i). by rewrite list_lookup_insert_ne.
Qed.

(** What the join keeps true of the events sent so far and the events
    the tasks have left: whatever interleaving of the latter follows,
    the whole is an interleaving of the tasks' events; and a settled
    task has nothing left. *)
Definition poolTrace (original : list (list StreamEvent)) (sent : list StreamEvent)
    (pool : Pool) : Prop :=
  (forall tail,
     Interleaving (task_events <$> pool_tasks pool) tail ->
     Interleaving original (sent ++ tail))
  /\ forall i value task,
       pool_values pool !! i = Some (Some value) ->
       pool_tasks pool !! i = Some task ->
       task_events task = [].

Lemma moveTask_trace original sent i pool log extra pool' :
  moveTask i pool log = (log ++ extra, Returns pool') ->
  poolTrace original sent pool ->
  poolTrace original (sent ++ extra) pool'.
Proof.
  unfold moveTask. intros Hmove [Htail Hsettled].
  destruct (pool_tasks pool !! i) as [task|] eqn:Htask.
  2:{ injection Hmove as Hlog <-. rewrite <- (app_nil_r log) in Hlog at 1.
      apply app_inv_head in Hlog as <-. by rewrite app_nil_r. }
  destruct (pool_values pool !! i) as [[value|]|] eqn:Hvalue.
  1,3: injection Hmove as Hlog <-; rewrite <- (app_nil_r log) in Hlog at 1;
       apply app_inv_head in Hlog as <-; by rewrite app_nil_r.
  destruct (task_events task) as [|event rest] eqn:Hevents.
  - destruct (task_outcome task) as [value|e]; [|discriminate].
    injection Hmove as Hlog <-. rewrite <- (app_nil_r log) in Hlog at 1.
    apply app_inv_head in Hlog as <-. rewrite app_nil_r.
    split; [done|]. simpl. intros j v t Hj Ht.
    destruct (decide (i = j)) as [<-|Hne].
    + rewrite Htask in Ht. by injection Ht as <-.
    + rewrite list_lookup_insert_ne in Hj by done. by eapply Hsettled.
  - unfold bind, sendEvent, ret in Hmove. injection Hmove as Hlog <-.
    apply app_inv_head in Hlog as <-.
    split; simpl.
    + intros tail Hinter. rewrite <- app_assoc. simpl. apply Htail.
      apply (interleaving_step _ i event rest).
      * by rewrite list_lookup_fmap, Htask; simpl; rewrite Hevents.
      * by rewrite list_fmap_insert in Hinter.
    + intros j v t Hj Ht. destruct (decide (i = j)) as [<-|Hne].
      * congruence.
      * rewrite list_lookup_insert_ne in Ht by done. by eapply Hsettled.
Qed.

Lemma runSchedule_trace P outcomes original schedule :
  forall pool log sent extra pool',
    poolOk P outcomes pool ->
    runSchedule schedule pool log = (log ++ extra, Returns pool') ->
    poolTrace original sent pool ->
    poolTrace original (sent ++ extra) pool'.
Proof.
  induction schedule as [|i rest IH]; intros pool log sent extra pool' Hok; simpl.
  - intros [= Hlog <-]. rewrite <- (app_nil_r log) in Hlog at 1.
    apply app_inv_head in Hlog as <-. by rewrite app_nil_r.
  - destruct (moveTask_run P outcomes i pool log Hok)
      as (extra1 & pool1 & Hmove & _ & Hok1).
    destruct (runSchedule_run P outcomes rest pool1 (log ++ extra1) Hok1)
      as (extra2 & pool2 & Hrun & _ & _).
    unfold bind. rewrite Hmove, Hrun. rewrite <- app_assoc.
    intros [= Hlog <-]. apply app_inv_head in Hlog as <-.
    intros Htrace. rewrite app_assoc.
    apply (IH pool1 (log ++ extra1) _ _ _ Hok1 Hrun).
    by apply (moveTask_trace _ _ i pool log).
Qed.

Lemma finishTask_trace original sent i pool log extra pool' :
  finishTask i pool log = (log ++ extra, Returns pool') ->
  poolTrace original sent pool ->
  poolTrace original (sent ++ extra) pool'.
Proof.
  unfold finishTask. intros Hfinish [Htail Hsettled].
  destruct (pool_tasks pool !! i) as [task|] eqn:Htask.
  2:{ injection Hfinish as Hlog <-. rewrite <- (app_nil_r log) in Hlog at 1.
      apply app_inv_head in Hlog as <-. by rewrite app_nil_r. }
  destruct (pool_values pool !! i) as [[value|]|] eqn:Hvalue.
  1,3: injection Hfinish as Hlog <-; rewrite <- (app_nil_r log) in Hlog at 1;
       apply app_inv_head in Hlog as <-; by rewrite app_nil_r.
  unfold bind in Hfinish. rewrite sendAll_run in Hfinish.
  destruct (task_outcome task) as [value|e]; [|discriminate].
  injection Hfinish as Hlog <-. apply app_inv_head in Hlog as <-.
  split; cbn [pool_tasks pool_values].
  - intros tail Hinter. rewrite <- app_assoc. apply Htail.
    apply (interleaving_run _ _ i).
    + by rewrite list_lookup_fmap, Htask.
    + by rewrite list_fmap_insert in Hinter.
  - intros j v t Hj Ht. destruct (decide (i = j)) as [<-|Hne].
    + apply lookup_lt_Some in Htask.
      pose proof (list_lookup_insert_eq (pool_tasks pool) i
                    {| task_events := []; task_outcome := Returns value |} Htask)
        as Hnew.
      pose proof (eq_trans (eq_sym Ht) Hnew) as Heq. by injection Heq as ->.
    + pose proof (list_lookup_insert_ne (pool_values pool) i j (Some value) Hne)
        as Hvalues.
      pose proof (list_lookup_insert_ne (pool_tasks pool) i j
                    {| task_events := []; task_outcome := Returns value |} Hne)
        as Htasks.
      apply (Hsettled j v t).
      * exact (eq_trans (eq_sym Hvalues) Hj).
      * exact (eq_trans (eq_sym Htasks) Ht).
Qed.

Lemma finishTasks_trace P outcomes original indices :
  forall pool log sent extra pool',
    poolOk P outcomes pool ->
    finishTasks indices pool log = (log ++ extra, Returns pool') ->
    poolTrace original sent pool ->
    poolTrace original (sent ++ extra) pool'.
Proof.
  induction indices as [|i rest IH]; intros pool log sent extra pool' Hok; simpl.
  - intros [= Hlog <-]. rewrite <- (app_nil_r log) in Hlog at 1.
    apply app_inv_head in Hlog as <-. by rewrite app_nil_r.
  - destruct (finishTask_run P outcomes i pool log Hok)
      as (extra1 & pool1 & Hfinish & _ & Hok1 & _).
    destruct (finishTasks_run P outcomes rest pool1 (log ++ extra1) Hok1)
      as (extra2 & pool2 & Hrun & _ & _).
    unfold bind. rewrite Hfinish, Hrun. rewrite <- app_assoc.
    intros [= Hlog <-]. apply app_inv_head in Hlog as <-.
    intros Htrace. rewrite app_assoc.
    apply (IH pool1 (log ++ extra1) _ _ _ Hok1 Hrun).
    by apply (finishTask_trace _ _ i pool log).
Qed.

(** The events the join sends are an interleaving of the events of its
    tasks. *)
Lemma promiseAll_interleaving P schedule tasks outcomes log :
  List.length tasks = List.length outcomes ->
  (forall i task,
     tasks !! i = Some task ->
     Forall P (task_events task)
     /\ exists value, outcomes !! i = Some value /\ task_outcome task = Returns value) ->
  exists extra,
    promiseAll schedule tasks log = (log ++ extra, Returns outcomes)
    /\ Interleaving (task_events <$> tasks) extra.
Proof.
  intros Hlen Htasks.
  destruct (promiseAll_run P schedule tasks outcomes log Hlen Htasks)
    as (extra & Hrun & _).
  exists extra. split; [done|].
  assert (Hok : poolOk P outcomes
                  {| pool_tasks := tasks;
                     pool_values := replicate (List.length tasks) None |}).
  { split; simpl; try done.
    - by rewrite length_replicate.
    - intros i value Hi. apply lookup_replicate in Hi as [[=] _]. }
  destruct (runSchedule_run P outcomes schedule _ log Hok)
    as (extra1 & pool1 & Hrun1 & _ & Hok1).
  destruct (finishTasks_run P outcomes (seq 0 (List.length tasks)) pool1
              (log ++ extra1) Hok1)
    as (extra2 & pool2 & Hrun2 & _ & Hok2 & Hset & _).
  unfold promiseAll, bind in Hrun. rewrite Hrun1, Hrun2 in Hrun.
  unfold ret in Hrun. rewrite <- app_assoc in Hrun.
  injection Hrun as Hlog _. apply app_inv_head in Hlog as <-.
  assert (Hstart : poolTrace (task_events <$> tasks) []
                     {| pool_tasks := tasks;
                        pool_values := replicate (List.length tasks) None |}).
  { split; [done|]. simpl. intros i value task Hi.
    apply lookup_replicate in Hi as [[=] _]. }
  pose proof (runSchedule_trace P outcomes _ schedule _ log [] extra1 pool1
                Hok Hrun1 Hstart) as Htrace1.
  pose proof (finishTasks_trace P outcomes _ _ pool1 (log ++ extra1) _ extra2 pool2
                Hok1 Hrun2 Htrace1) as [Htail Hsettled].
  simpl in Htail. rewrite <- (app_nil_r (extra1 ++ extra2)).
  apply Htail. apply interleaving_done.
  apply Forall_forall. intros events Hin.
  apply list_elem_of_fmap in Hin as (task & -> & Hin).
  apply list_elem_of_lookup in Hin as [i Hi].
  assert (Hlt : (i < List.length outcomes)%nat).
  { rewrite <- (ok_tasks_length _ _ _ Hok2). by eapply lookup_lt_Some. }
  destruct (Hset i) as [value Hvalue]; [apply elem_of_seq; lia|done|].
  by eapply Hsettled.
Qed.

(** ** The events of the scraping phase *)

(** The id a source event carries. *)
Definition eventSourceId (event : StreamEvent) : option string :=
  match event with
  | EvSourceUpdate sourceId _ _ _ | EvSourceComplete sourceId _
  | EvSourceError sourceId _ => Some sourceId
  | _ => None
  end.

(** The ids of the [source_complete] events and of the [source_error]
    events of a stream, in order. *)
Definition completedIds (events : list StreamEvent) : list string :=
  omap (fun event =>
          match event with
          | EvSourceComplete sourceId _ => Some sourceId
          | _ => None
          end) events.

Definition failedIds (events : list StreamEvent) : list string :=
  omap (fun event =>
          match event with
          | EvSourceError sourceId _ => Some sourceId
          | _ => None
          end) events.

Definition failureOf (r : ScrapeResult) : option ScrapeFailure :=
  match r with
  | StatusComplete _ => None
  | StatusError failure => Some failure
  end.

(** A task that sends the events of one source and returns [value]. *)
Definition settles (task : Task) (source : DiscoveredSource) (value : ScrapeResult)
    : Prop :=
  task_outcome task = Returns value
  /\ exists updates final,
       task_events task = launching source :: updates ++ [final]
       /\ Forall (isLiveUpdate (src_id source)) updates
       /\ closes source value final.

Lemma completedIds_updates id updates :
  Forall (isLiveUpdate id) updates -> completedIds updates = [].
Proof.
  induction 1 as [|event rest (step & url & -> & _) _ IH]; [done|].
  unfold completedIds in *. csimpl. exact IH.
Qed.

Lemma failedIds_updates id updates :
  Forall (isLiveUpdate id) updates -> failedIds updates = [].
Proof.
  induction 1 as [|event rest (step & url & -> & _) _ IH]; [done|].
  unfold failedIds in *. csimpl. exact IH.
Qed.

Lemma settles_completedIds task source value :
  settles task source value ->
  completedIds (task_events task)
  = match value with
    | StatusComplete _ => [src_id source]
    | StatusError _ => []
    end.
Proof.
  intros (_ & updates & final & -> & Hupdates & Hcloses).
  unfold completedIds. csimpl. rewrite omap_app.
  fold (completedIds updates). rewrite (completedIds_updates _ _ Hupdates).
  destruct value as [s|failure]; simpl in Hcloses; by destruct Hcloses as (-> & _).
Qed.

Lemma settles_failedIds task source value :
  settles task source value ->
  failedIds (task_events task)
  = match value with
    | StatusComplete _ => []
    | StatusError _ => [src_id source]
    end.
Proof.
  intros (_ & updates & final & -> & Hupdates & Hcloses).
  unfold failedIds. csimpl. rewrite omap_app.
  fold (failedIds updates). rewrite (failedIds_updates _ _ Hupdates).
  destruct value as [s|failure]; simpl in Hcloses; by destruct Hcloses as (-> & _).
Qed.

Lemma settles_eventSourceId task source value event :
  settles task source value ->
  event ∈ task_events task ->
  eventSourceId event = Some (src_id source).
Proof.
  intros (_ & updates & final & -> & Hupdates & Hcloses) Hin.
  apply elem_of_cons in Hin as [->|Hin]; [done|].
  apply elem_of_app in Hin as [Hin|Hin].
  - rewrite Forall_forall in Hupdates.
    by destruct (Hupdates _ Hin) as (step & url & -> & _).
  - apply list_elem_of_singleton in Hin as ->.
    destruct value as [s|failure]; simpl in Hcloses; by destruct Hcloses as (-> & _).
Qed.

(** The tasks of the sources and the values they return, source by
    source. *)
Inductive Settled : list Task -> list DiscoveredSource -> list ScrapeResult -> Prop :=
| settled_nil : Settled [] [] []
| settled_cons task source value tasks sources values :
    settles task source value ->
    result_source value = source ->
    Settled tasks sources values ->
    Settled (task :: tasks) (source :: sources) (value :: values).

Lemma Settled_completedIds tasks sources values :
  Settled tasks sources values ->
  completedIds (List.concat (task_events <$> tasks))
  = (fun s => src_id (ok_source s)) <$> omap successOf values.
Proof.
  induction 1 as [|task source value tasks sources values Htask Hsource _ IH];
    [done|].
  csimpl. unfold completedIds in *. rewrite omap_app, IH.
  fold (completedIds (task_events task)).
  rewrite (settles_completedIds _ _ _ Htask).
  destruct value as [s|failure]; simpl in *; [by rewrite Hsource|done].
Qed.

Lemma Settled_failedIds tasks sources values :
  Settled tasks sources values ->
  failedIds (List.concat (task_events <$> tasks))
  = (fun failure => src_id (err_source failure)) <$> omap failureOf values.
Proof.
  induction 1 as [|task source value tasks sources values Htask Hsource _ IH];
    [done|].
  csimpl. unfold failedIds in *. rewrite omap_app, IH.
  fold (failedIds (task_events task)).
  rewrite (settles_failedIds _ _ _ Htask).
  destruct value as [s|failure]; simpl in *; [done|by rewrite Hsource].
Qed.

Lemma Settled_eventSourceId tasks sources values event :
  Settled tasks sources values ->
  event ∈ List.concat (task_events <$> tasks) ->
  exists source, source ∈ sources /\ eventSourceId event = Some (src_id source).
Proof.
  induction 1 as [|task source value tasks sources values Htask _ _ IH];
    [by intros ?%elem_of_nil|].
  csimpl. intros [Hin|Hin]%elem_of_app.
  - exists source. split; [left|]. by eapply settles_eventSourceId.
  - destruct (IH Hin) as (other & Hother & Hid). exists other. split; [by right|done].
Qed.

Lemma Settled_length tasks sources values :
  Settled tasks sources values ->
  List.length values = List.length sources
  /\ (List.length (omap successOf values) + List.length (omap failureOf values)
      = List.length sources)%nat.
Proof.
  induction 1 as [|task source value tasks sources values _ _ _ [IH1 IH2]];
    [done|].
  split; [simpl; by rewrite IH1|].
  destruct value; csimpl; lia.
Qed.

Section ScrapingPhase.

Variable JSON_parse : string -> option JsValue.
Variable network : nat -> TinyFishTaskRequest -> string -> FetchOutcome.

Lemma taskOf_settles topic apiKey index source :
  exists value,
    settles (taskOf JSON_parse network topic apiKey index source) source value
    /\ result_source value = source.
Proof.
  unfold taskOf.
  destruct (scrapeSource_trace JSON_parse network topic apiKey index source [])
    as (updates & final & value & -> & Hupdates & Hcloses).
  exists value. split.
  - split; [done|]. by exists updates, final.
  - destruct value as [s|failure]; simpl in *; by destruct Hcloses as (_ & -> & _).
Qed.

(** The tasks of a list of sources from an index on, with the values
    they return. *)
Lemma tasks_Settled topic apiKey sources :
  forall start,
    exists values,
      Settled (imap (fun i => taskOf JSON_parse network topic apiKey (start + i)) sources)
        sources values.
Proof.
  induction sources as [|source rest IH]; intros start.
  - exists []. constructor.
  - destruct (taskOf_settles topic apiKey (start + 0) source) as (value & Htask & Hsource).
    destruct (IH (S start)) as [values Hrest].
    exists (value :: values). simpl. constructor; [done|done|].
    rewrite (imap_ext _ (fun i => taskOf JSON_parse network topic apiKey (S start + i)));
      [done|].
    intros i x _. simpl. f_equal. lia.
Qed.

Lemma Settled_lookup tasks sources values :
  Settled tasks sources values ->
  forall i task,
    tasks !! i = Some task ->
    exists value, values !! i = Some value /\ task_outcome task = Returns value.
Proof.
  induction 1 as [|task0 source value tasks sources values Htask _ _ IH];
    intros i task Hi; [done|].
  destruct i as [|i]; simpl in *.
  - injection Hi as <-. exists value. split; [done|]. by destruct Htask.
  - by apply IH.
Qed.

Lemma Settled_events tasks sources values :
  Settled tasks sources values ->
  forall i task, tasks !! i = Some task -> Forall isSourceEvent (task_events task).
Proof.
  induction 1 as [|task0 source value tasks sources values Htask _ _ IH];
    intros i task Hi; [done|].
  destruct i as [|i]; simpl in *; [|by eapply IH].
  injection Hi as <-. apply Forall_forall. intros event Hin.
  pose proof (settles_eventSourceId _ _ _ _ Htask Hin) as Hid.
  by destruct event.
Qed.

(** What the orchestration step sends and returns. *)
Lemma scrapeAll_trace schedule topic apiKey sources log :
  exists events values,
    scrapeAll JSON_parse network schedule topic apiKey sources log
    = (log ++ events, Returns values)
    /\ Interleaving
         (task_events <$> imap (taskOf JSON_parse network topic apiKey) sources)
         events
    /\ Settled (imap (taskOf JSON_parse network topic apiKey) sources) sources values.
Proof.
  destruct (tasks_Settled topic apiKey sources 0) as [values Hsettled].
  simpl in Hsettled.
  destruct (promiseAll_interleaving isSourceEvent schedule
              (imap (taskOf JSON_parse network topic apiKey) sources) values log)
    as (events & Hrun & Hinter).
  - rewrite length_imap. by destruct (Settled_length _ _ _ Hsettled) as [-> _].
  - intros i task Hi. split; [by eapply Settled_events|by eapply Settled_lookup].
  - by exists events, values.
Qed.

(** X18: the events of the scraping phase are an interleaving of the
    events of the sources' tasks: every task's events are there, in the
    task's own order, and nothing else.  So the stream holds exactly one
    [source_complete] event for every successful scrape and exactly one
    [source_error] event for every failed one, with the ids of their
    sources, and every event of the phase carries the id of a source
    that was discovered. *)
Theorem scrapeAll_events (schedule : list nat) (topic apiKey : string)
    (sources : list DiscoveredSource) (log : list StreamEvent) :
  let tasks := imap (taskOf JSON_parse network topic apiKey) sources in
  exists events values,
    scrapeAll JSON_parse network schedule topic apiKey sources log
    = (log ++ events, Returns values)
    /\ Interleaving (task_events <$> tasks) events
    /\ (forall i task, tasks !! i = Some task -> task_events task `sublist_of` events)
    /\ completedIds events
       ≡ₚ (fun s => src_id (ok_source s)) <$> omap successOf values
    /\ failedIds events
       ≡ₚ (fun failure => src_id (err_source failure)) <$> omap failureOf values
    /\ Forall (fun event =>
                 exists source,
                   source ∈ sources /\ eventSourceId event = Some (src_id source))
         events.
Proof.
  intros tasks.
  destruct (scrapeAll_trace schedule topic apiKey sources log)
    as (events & values & Hrun & Hinter & Hsettled).
  exists events, values. split; [done|]. split; [done|].
  pose proof (interleaving_perm _ _ Hinter) as Hperm.
  split; [|split; [|split]].
  - intros i task Hi. apply (interleaving_sublist _ _ Hinter i).
    unfold tasks in Hi. by rewrite list_lookup_fmap, Hi.
  - unfold completedIds at 1. rewrite Hperm.
    by rewrite <- (Settled_completedIds _ _ _ Hsettled).
  - unfold failedIds at 1. rewrite Hperm.
    by rewrite <- (Settled_failedIds _ _ _ Hsettled).
  - apply Forall_forall. intros event Hin. rewrite Hperm in Hin.
    by eapply Settled_eventSourceId.
Qed.

End ScrapingPhase.

(** ** The stream of a successful run *)

Definition discoveringEvent : StreamEvent :=
  EvPhase PhaseDiscovering
    "Discovering relevant docs, GitHub, Stack Overflow, and blog sources...".

Definition scrapingEvent (sources : list DiscoveredSource) : StreamEvent :=
  EvPhase PhaseScraping
    ("Scraping " +:+ pretty (List.length sources)
     +:+ " sources in parallel with TinyFish...").

Definition synthesizingEvent : StreamEvent :=
  EvPhase PhaseSynthesizing "Synthesizing a single markdown skill guide...".

Definition completeEvent : StreamEvent :=
  EvPhase PhaseComplete "Guide generation complete.".

Section SuccessfulRun.

Variable JSON_parse : string -> option JsValue.
Variable Date_toLocaleString : string -> string.
Variable search : string -> option (list SearchResult).
Variable URL_withoutHash : string -> option string.
Variable encodeURIComponent : string -> Completion string.
Variable network : nat -> TinyFishTaskRequest -> string -> FetchOutcome.

Lemma discoverSources_found topic maxPerType found :
  discoverSources search URL_withoutHash encodeURIComponent topic maxPerType
  = Returns found ->
  (1 <= List.length found <= 12)%nat /\ NoDup (src_url <$> found).
Proof.
  intros (byType & HbyType & ->)%discoverSources_selections. split.
  - pose proof (deduped_bounds byType (Nat.max 1 (Nat.min maxPerType 3))) as Hlen.
    assert (Hm : (1 <= Nat.max 1 (Nat.min maxPerType 3) <= 3)%nat) by lia.
    revert HbyType Hlen Hm. generalize (Nat.max 1 (Nat.min maxPerType 3)).
    intros m HbyType Hlen Hm.
    specialize (Hlen (fun type =>
                        discoverByType_bounds _ _ _ topic type m _ (proj1 Hm)
                          (HbyType type))).
    lia.
  - rewrite dedupeByUrl_firstOccurrences. apply firstOccurrences_NoDup.
Qed.

(** A run whose discovery throws sends the [discovering] phase, the
    [error] phase and the [error] event. *)
Lemma discoverAndRun_throws generatedAt schedule topic apiKey maxPerType thrown :
  discoverSources search URL_withoutHash encodeURIComponent topic maxPerType
  = Throws thrown ->
  exists message,
    fst (tryCatch
           (discoverAndRun JSON_parse Date_toLocaleString search URL_withoutHash
              encodeURIComponent network generatedAt schedule topic apiKey
              maxPerType)
           POST_catch [])
    = [discoveringEvent; EvPhase PhaseError message; EvError message]
    /\ encodeURIComponent topic = Throws thrown
    /\ message = match thrown with
                 | ErrorObject message => message
                 | ThrownValue _ => "Unexpected server error."
                 end.
Proof.
  intros Hthrown. eexists. split; [|split; [|reflexivity]].
  - unfold tryCatch, discoverAndRun, bind, sendEvent, await. rewrite Hthrown.
    reflexivity.
  - by eapply discoverSources_throws.
Qed.

(** The run from the discovered sources on, event by event. *)
Lemma scrapeAndSynthesize_trace generatedAt schedule topic apiKey sources log :
  sources <> [] ->
  exists events values,
    Interleaving
      (task_events <$> imap (taskOf JSON_parse network topic apiKey) sources) events
    /\ Settled (imap (taskOf JSON_parse network topic apiKey) sources) sources values
    /\ scrapeAndSynthesize JSON_parse Date_toLocaleString network generatedAt
         schedule topic apiKey sources log
       = if (List.length (omap successOf values) =? 0)%nat
         then (log ++ EvDiscoveryComplete sources :: scrapingEvent sources :: events,
               Throws (ErrorObject
                         "Scraping finished, but no source returned usable content."))
         else (log ++ EvDiscoveryComplete sources :: scrapingEvent sources :: events
               ++ synthesizingEvent
                  :: successTail Date_toLocaleString generatedAt topic sources
                       (omap successOf values),
               Returns tt).
Proof.
  intros Hsources. unfold scrapeAndSynthesize.
  destruct (List.length sources =? 0)%nat eqn:Hnone.
  { apply Nat.eqb_eq in Hnone. by destruct sources. }
  cbv zeta. unfold bind, sendEvent. cbv beta.
  match goal with
  | |- context [scrapeAll _ _ ?sch ?t ?k ?srcs ?lg] =>
      destruct (scrapeAll_trace JSON_parse network sch t k srcs lg)
        as (events & values & Hrun & Hinter & Hsettled)
  end.
  exists events, values. split; [done|]. split; [done|].
  rewrite Hrun.
  destruct (List.length (omap successOf values) =? 0)%nat.
  - f_equal. rewrite <- !app_assoc. reflexivity.
  - rewrite streamSections_run. unfold successTail. cbv zeta.
    f_equal. rewrite <- !app_assoc. reflexivity.
Qed.

(** The three ways a run goes: the request is rejected, the [try] block
    throws before discovery, or discovery starts. *)
Lemma POST_cases (P : list StreamEvent -> Prop) body env_apiKey generatedAt schedule :
  (forall message : string, P [EvError message]) ->
  (forall message : string, P [EvPhase PhaseError message; EvError message]) ->
  (forall topic apiKey : string,
     isEmpty topic = false ->
     P (fst (tryCatch
               (discoverAndRun JSON_parse Date_toLocaleString search URL_withoutHash
                  encodeURIComponent network generatedAt schedule topic apiKey
                  (readMaxPerType body))
               POST_catch []))) ->
  P (POST JSON_parse Date_toLocaleString search URL_withoutHash encodeURIComponent
       network body env_apiKey generatedAt schedule).
Proof.
  intros Hvalid Hthrown Hrun.
  assert (Htopic : forall topic : string,
             P (fst (tryCatch
                       (bind (ret topic) (fun topic =>
                          let maxPerType := readMaxPerType body in
                          if isEmpty topic then sendEvent (EvError "Topic is required.")
                          else if negb (present env_apiKey) then
                            sendEvent
                              (EvError "TINYFISH_API_KEY is not configured on the server.")
                          else
                            discoverAndRun JSON_parse Date_toLocaleString search
                              URL_withoutHash encodeURIComponent network
                              generatedAt schedule topic
                              (default EmptyString env_apiKey) maxPerType))
                       POST_catch []))).
  { intros topic. cbv zeta.
    change (bind (ret topic) ?k) with (k topic). cbv beta.
    destruct (isEmpty topic) eqn:Hempty; [apply Hvalid|].
    destruct (negb (present env_apiKey)); [apply Hvalid|].
    by apply Hrun. }
  unfold POST, POST_try, readTopic.
  destruct body as [| |b|n|s|items|fields]; try apply Hthrown.
  all: destruct (getProp _ "topic") as [| |b'|n'|topic|items'|fields'];
    try apply Hthrown; apply Htopic.
Qed.

(** X19: a run that sends the [complete] event sent, in this order:
    the [discovering] phase, [discovery_complete] with the very sources
    the [complete] event carries, the [scraping] phase, the events of
    the sources, the [synthesizing] phase, the guide chunks, the
    [complete] phase and the [complete] event.  The sources are between
    1 and 12 and no two of them have the same URL; every source event
    carries the id of one of them; [sourceCount] is their number,
    [successCount] the number of [source_complete] events, and the
    [source_error] events make up the difference; at least one source
    succeeded. *)
Theorem POST_success_stream (body : JsValue) (env_apiKey : option string)
    (generatedAt : string) (schedule : list nat)
    (guide : string) (sources : list DiscoveredSource) (stats : GenerationStats) :
  let events :=
    POST JSON_parse Date_toLocaleString search URL_withoutHash encodeURIComponent
      network body env_apiKey generatedAt schedule in
  EvComplete guide sources stats ∈ events ->
  exists sourceEvents chunks,
    events
    = discoveringEvent :: EvDiscoveryComplete sources :: scrapingEvent sources
      :: sourceEvents
      ++ synthesizingEvent
         :: map EvGuideChunk chunks
      ++ [completeEvent; EvComplete guide sources stats]
    /\ Forall (fun event =>
                 exists source,
                   source ∈ sources /\ eventSourceId event = Some (src_id source))
         sourceEvents
    /\ (1 <= List.length sources <= 12)%nat
    /\ NoDup (src_url <$> sources)
    /\ sourceCount stats = List.length sources
    /\ successCount stats = List.length (completedIds sourceEvents)
    /\ List.length (failedIds sourceEvents)
       = (sourceCount stats - successCount stats)%nat
    /\ (1 <= successCount stats <= sourceCount stats)%nat.
Proof.
  intros events. unfold events. apply POST_cases.
  - intros message Hin. apply list_elem_of_singleton in Hin. discriminate.
  - intros message Hin.
    apply elem_of_cons in Hin as [Hin|Hin]; [discriminate|].
    apply list_elem_of_singleton in Hin. discriminate.
  - intros topic apiKey _.
    destruct (discoverSources search URL_withoutHash encodeURIComponent topic
                (readMaxPerType body)) as [found|thrown] eqn:Hdiscovered.
    2:{ destruct (discoverAndRun_throws generatedAt schedule topic apiKey _ _
                    Hdiscovered) as (message & -> & _).
        intros Hin.
        apply elem_of_cons in Hin as [Hin|Hin]; [discriminate|].
        apply elem_of_cons in Hin as [Hin|Hin]; [discriminate|].
        apply list_elem_of_singleton in Hin. discriminate. }
    destruct (discoverSources_found topic (readMaxPerType body) found Hdiscovered)
      as [Hlen Hdup].
    assert (Hfound : found <> []) by (intros Hnil; rewrite Hnil in Hlen; simpl in Hlen; lia).
    destruct (scrapeAndSynthesize_trace generatedAt schedule topic apiKey found
                ([] ++ [discoveringEvent]) Hfound)
      as (sourceEvents & values & Hinter & Hsettled & Hrun).
    unfold tryCatch, discoverAndRun, bind, sendEvent, await.
    fold discoveringEvent. rewrite Hdiscovered, Hrun.
    pose proof (interleaving_perm _ _ Hinter) as Hperm.
    assert (Hids : Forall (fun event =>
                             exists source,
                               source ∈ found
                               /\ eventSourceId event = Some (src_id source))
                     sourceEvents).
    { apply Forall_forall. intros event Hin. rewrite Hperm in Hin.
      by eapply Settled_eventSourceId. }
    assert (Hnot : ~ EvComplete guide sources stats ∈ sourceEvents).
    { intros Hin. rewrite Forall_forall in Hids.
      by destruct (Hids _ Hin) as (source & _ & Hid). }
    destruct (List.length (omap successOf values) =? 0)%nat eqn:Hnone.
    + destruct (POST_catch_run
                  (ErrorObject "Scraping finished, but no source returned usable content.")
                  (([] ++ [discoveringEvent])
                   ++ EvDiscoveryComplete found :: scrapingEvent found :: sourceEvents))
        as [message ->].
      simpl. intros Hin.
      apply elem_of_cons in Hin as [Hin|Hin]; [discriminate|].
      apply elem_of_cons in Hin as [Hin|Hin]; [discriminate|].
      apply elem_of_cons in Hin as [Hin|Hin]; [discriminate|].
      apply elem_of_app in Hin as [Hin|Hin]; [done|].
      apply elem_of_cons in Hin as [Hin|Hin]; [discriminate|].
      apply list_elem_of_singleton in Hin. discriminate.
    + simpl. unfold successTail. cbv zeta. intros Hin.
      apply elem_of_cons in Hin as [Hin|Hin]; [discriminate|].
      apply elem_of_cons in Hin as [Hin|Hin]; [discriminate|].
      apply elem_of_cons in Hin as [Hin|Hin]; [discriminate|].
      apply elem_of_app in Hin as [Hin|Hin]; [done|].
      apply elem_of_cons in Hin as [Hin|Hin]; [discriminate|].
      apply elem_of_app in Hin as [Hin|Hin].
      { apply list_elem_of_fmap in Hin as (chunk & Hchunk & _). discriminate. }
      apply elem_of_cons in Hin as [Hin|Hin]; [discriminate|].
      apply list_elem_of_singleton in Hin. injection Hin as -> -> ->.
      eexists sourceEvents, _. split; [reflexivity|].
      destruct (Settled_length _ _ _ Hsettled) as [_ Hcount].
      assert (Hcompleted : List.length (completedIds sourceEvents)
                           = List.length (omap successOf values)).
      { unfold completedIds at 1. rewrite Hperm.
        fold (completedIds
                (List.concat
                   (task_events
                    <$> imap (taskOf JSON_parse network topic apiKey) found))).
        by rewrite (Settled_completedIds _ _ _ Hsettled), length_fmap. }
      assert (Hfailed : List.length (failedIds sourceEvents)
                        = List.length (omap failureOf values)).
      { unfold failedIds at 1. rewrite Hperm.
        fold (failedIds
                (List.concat
                   (task_events
                    <$> imap (taskOf JSON_parse network topic apiKey) found))).
        by rewrite (Settled_failedIds _ _ _ Hsettled), length_fmap. }
      apply Nat.eqb_neq in Hnone. simpl.
      split; [done|]. split; [done|]. split; [done|]. split; [done|].
      split; [done|]. split; lia.
Qed.

End SuccessfulRun.

Lemma POST_success_stream_witness :
  EvComplete guide_sample sources_sample stats_sample ∈ run_sample
  /\ sourceCount stats_sample = List.length sources_sample
  /\ (1 <= successCount stats_sample <= sourceCount stats_sample)%nat.
Proof.
  assert (Hin : EvComplete guide_sample sources_sample stats_sample ∈ run_sample)
    by exact run_sample_complete.
  split; [exact Hin|].
  destruct (POST_success_stream parse_sample locale_as_written search_down
              URL_as_written encode_as_written network_sample body_sample
              (Some "key") "2026-01-01T00:00:00.000Z" schedule_sample
              guide_sample sources_sample stats_sample Hin)
    as (sourceEvents & chunks & _ & _ & _ & _ & Hcount & _ & _ & Hbounds).
  split; [exact Hcount|exact Hbounds].
Defined.

(** ** The outcomes of a run *)

Definition noContentMessage : string :=
  "Scraping finished, but no source returned usable content.".

Lemma readTopic_run body log :
  (exists topic, readTopic body log = (log, Returns topic))
  \/ (exists message, readTopic body log = (log, Throws (ErrorObject message))).
Proof.
  unfold readTopic, ret, throw.
  destruct body; try (right; by eexists);
    destruct (getProp _ "topic"); try (right; by eexists); left; by eexists.
Qed.

Section Outcomes.

Variable JSON_parse : string -> option JsValue.
Variable Date_toLocaleString : string -> string.
Variable search : string -> option (list SearchResult).
Variable URL_withoutHash : string -> option string.
Variable encodeURIComponent : string -> Completion string.
Variable network : nat -> TinyFishTaskRequest -> string -> FetchOutcome.

(** X20: the outcomes of a run, case by case.  A body whose topic
    cannot be read ends the run with the [error] phase and an [error]
    event; a blank topic or a missing API key with a single [error]
    event and no phase.  Otherwise discovery runs.  If it throws, which
    it does only with what [encodeURIComponent(topic)] throws, the run
    ends after the [discovering] phase with the [error] phase and the
    [error] event.  If it returns, it has found sources (the error for
    an empty discovery is never sent), the scraping phase sends the
    sources' events, and then either no source completed, every source
    failed, and the run ends with the [error] phase and the error for
    unusable content; or the run goes on to the chunks and the
    [complete] event. *)
Theorem POST_outcomes (body : JsValue) (env_apiKey : option string)
    (generatedAt : string) (schedule : list nat) :
  let events :=
    POST JSON_parse Date_toLocaleString search URL_withoutHash encodeURIComponent
      network body env_apiKey generatedAt schedule in
  match snd (readTopic body []) with
  | Throws error =>
      exists message,
        error = ErrorObject message
        /\ events = [EvPhase PhaseError message; EvError message]
  | Returns topic =>
      if isEmpty topic then events = [EvError "Topic is required."]
      else if negb (present env_apiKey) then
        events = [EvError "TINYFISH_API_KEY is not configured on the server."]
      else
        match
          discoverSources search URL_withoutHash encodeURIComponent topic
            (readMaxPerType body)
        with
        | Throws thrown =>
            encodeURIComponent topic = Throws thrown
            /\ exists message,
                 events
                 = [discoveringEvent; EvPhase PhaseError message; EvError message]
        | Returns found =>
            found <> []
            /\ exists sourceEvents,
                 (completedIds sourceEvents = []
                  /\ List.length (failedIds sourceEvents) = List.length found
                  /\ events
                     = discoveringEvent :: EvDiscoveryComplete found
                       :: scrapingEvent found :: sourceEvents
                       ++ [EvPhase PhaseError noContentMessage;
                           EvError noContentMessage])
                 \/ (completedIds sourceEvents <> []
                     /\ exists chunks guide stats,
                          events
                          = discoveringEvent :: EvDiscoveryComplete found
                            :: scrapingEvent found :: sourceEvents
                            ++ synthesizingEvent :: map EvGuideChunk chunks
                            ++ [completeEvent; EvComplete guide found stats])
        end
  end.
Proof.
  intros events. unfold events, POST, tryCatch, POST_try, bind.
  destruct (readTopic body []) as [log' outcome] eqn:Hread.
  destruct (readTopic_run body []) as [[topic Hrun]|[message Hrun]];
    rewrite Hrun in Hread; injection Hread as <- <-; simpl snd; cbv beta iota zeta.
  2:{ exists message. split; [done|]. reflexivity. }
  destruct (isEmpty topic) eqn:Hempty; [by cbv beta iota|].
  destruct (negb (present env_apiKey)); [by cbv beta iota|]. cbv beta iota.
  unfold await.
  destruct (discoverSources search URL_withoutHash encodeURIComponent topic
              (readMaxPerType body)) as [found|thrown] eqn:Hdiscovered.
  2:{ split; [by eapply discoverSources_throws|]. eexists. reflexivity. }
  destruct (discoverSources_found search URL_withoutHash encodeURIComponent topic
              (readMaxPerType body) found Hdiscovered) as [Hlen _].
  assert (Hfound : found <> [])
    by (intros Hnil; rewrite Hnil in Hlen; simpl in Hlen; lia).
  split; [done|].
  destruct (scrapeAndSynthesize_trace JSON_parse Date_toLocaleString network
              generatedAt schedule topic (default EmptyString env_apiKey) found
              ([] ++ [discoveringEvent]) Hfound)
    as (sourceEvents & values & Hinter & Hsettled & Hsteps).
  unfold sendEvent. fold discoveringEvent. rewrite Hsteps.
  exists sourceEvents.
  pose proof (interleaving_perm _ _ Hinter) as Hperm.
  destruct (Settled_length _ _ _ Hsettled) as [_ Hcount].
  assert (Hcompleted : completedIds sourceEvents
                       ≡ₚ (fun s => src_id (ok_source s)) <$> omap successOf values).
  { unfold completedIds at 1. rewrite Hperm.
    by rewrite <- (Settled_completedIds _ _ _ Hsettled). }
  assert (Hfailed : List.length (failedIds sourceEvents)
                    = List.length (omap failureOf values)).
  { unfold failedIds at 1. rewrite Hperm.
    fold (failedIds
            (List.concat
               (task_events
                <$> imap (taskOf JSON_parse network topic
                            (default EmptyString env_apiKey)) found))).
    by rewrite (Settled_failedIds _ _ _ Hsettled), length_fmap. }
  destruct (List.length (omap successOf values) =? 0)%nat eqn:Hnone.
  - left. apply Nat.eqb_eq in Hnone.
    split; [|split; [lia|]].
    + destruct (omap successOf values); [|discriminate].
      by apply Permutation_nil_r in Hcompleted.
    + unfold POST_catch, bind, sendEvent. simpl. by rewrite <- app_assoc.
  - right. apply Nat.eqb_neq in Hnone. split.
    + intros Hnil. rewrite Hnil in Hcompleted.
      apply Permutation_nil_l in Hcompleted.
      apply Hnone. apply (f_equal List.length) in Hcompleted.
      by rewrite length_fmap in Hcompleted.
    + unfold successTail. cbv zeta. by eexists _, _, _.
Qed.

End Outcomes.

(** ** The history of the page *)

Lemma filter_sublist {A : Type} (P : A -> Prop) `{!forall x, Decision (P x)}
    (l : list A) :
  filter P l `sublist_of` l.
Proof.
  induction l as [|x l IH]; [done|].
  destruct (decide (P x)).
  - rewrite filter_cons_True by done. by apply sublist_skip.
  - rewrite filter_cons_False by done. by apply sublist_cons.
Qed.

Lemma appendHistory_head (entry : GuideHistoryItem) (prev : list GuideHistoryItem) :
  exists older, appendHistory entry prev = entry :: older.
Proof. by eexists. Qed.

(** X21: after [appendHistory(entry)] the history starts with the new
    entry; it has at most 20 items; no other item has the entry's id;
    the older items stand in the order they had; and when no two items
    shared an id before, no two do after. *)
Theorem appendHistory_keeps (entry : GuideHistoryItem) (prev : list GuideHistoryItem) :
  exists older,
    appendHistory entry prev = entry :: older
    /\ (List.length (appendHistory entry prev) <= 20)%nat
    /\ older `sublist_of` prev
    /\ Forall (fun item => hist_id item <> hist_id entry) older
    /\ (NoDup (hist_id <$> prev) -> NoDup (hist_id <$> appendHistory entry prev)).
Proof.
  unfold appendHistory.
  set (others := filter (fun i => hist_id i <> hist_id entry) prev).
  exists (List.firstn 19 others).
  assert (Hsub : List.firstn 19 others `sublist_of` prev).
  { etrans; [apply sublist_take|apply filter_sublist]. }
  assert (Hother : Forall (fun item => hist_id item <> hist_id entry)
                     (List.firstn 19 others)).
  { apply Forall_forall. intros item Hin. apply elem_of_firstn in Hin.
    by apply list_elem_of_filter in Hin as [Hne _]. }
  split; [done|]. split; [rewrite length_firstn; lia|].
  split; [done|]. split; [done|].
  intros Hdup. change (List.firstn 20 (entry :: others))
    with (entry :: List.firstn 19 others).
  csimpl. constructor.
  - intros (item & Hid & Hin)%list_elem_of_fmap.
    rewrite Forall_forall in Hother. by apply (Hother item Hin).
  - eapply sublist_NoDup; [exact Hdup|]. by apply fmap_sublist.
Qed.

(** ** The page after a run *)

(** What one event does to one source of the page. *)
Definition stepSource (s : SourceProgress) (event : StreamEvent) : SourceProgress :=
  match event with
  | EvSourceUpdate sourceId status step streamingUrl =>
      if String.eqb (src_id (sp_source s)) sourceId
      then applyPatch s (PatchUpdate status step streamingUrl) else s
  | EvSourceComplete sourceId wordCount =>
      if String.eqb (src_id (sp_source s)) sourceId
      then applyPatch s (PatchComplete wordCount) else s
  | EvSourceError sourceId error =>
      if String.eqb (src_id (sp_source s)) sourceId
      then applyPatch s (PatchError error) else s
  | _ => s
  end.

(** The status an event gives the sources it names. *)
Definition eventStatus (event : StreamEvent) : SourceStatus :=
  match event with
  | EvSourceUpdate _ status _ _ => status
  | EvSourceComplete _ _ => StatusDone
  | EvSourceError _ _ => StatusFailed
  | _ => StatusPending
  end.

(** The events of a stream that name a source id. *)
Definition eventsOf (id : string) (events : list StreamEvent) : list StreamEvent :=
  filter (fun event => eventSourceId event = Some id) events.

Definition withSources (st : PageState) (sources : list SourceProgress) : PageState :=
  {| page_phase := page_phase st; page_statusMessage := page_statusMessage st;
     page_sources := sources;
     page_guideMarkdown := page_guideMarkdown st;
     page_stats := page_stats st; page_error := page_error st;
     page_history := page_history st |}.

Lemma handleEvent_source t fresh st event :
  isSourceEvent event ->
  handleEvent t fresh st event
  = withSources st (map (fun s => stepSource s event) (page_sources st)).
Proof. by destruct event. Qed.

Lemma handleEvents_sources t fresh events :
  Forall isSourceEvent events ->
  forall index st,
    handleEvents t fresh index events st
    = withSources st
        (map (fun s => fold_left stepSource events s) (page_sources st)).
Proof.
  induction 1 as [|event rest Hevent _ IH]; intros index st; simpl.
  - destruct st. unfold withSources. simpl. by rewrite map_id.
  - rewrite IH, (handleEvent_source _ _ _ _ Hevent).
    unfold withSources. simpl. by rewrite map_map.
Qed.

Lemma handleEvents_app t fresh events1 events2 :
  forall index st,
    handleEvents t fresh index (events1 ++ events2) st
    = handleEvents t fresh (index + List.length events1) events2
        (handleEvents t fresh index events1 st).
Proof.
  induction events1 as [|event rest IH]; intros index st; simpl.
  - by rewrite Nat.add_0_r.
  - rewrite IH. f_equal. lia.
Qed.

Lemma stepSource_source s event : sp_source (stepSource s event) = sp_source s.
Proof.
  destruct event; simpl; try done;
    by destruct (String.eqb (src_id (sp_source s)) sourceId).
Qed.

Lemma fold_stepSource_source events :
  forall s, sp_source (fold_left stepSource events s) = sp_source s.
Proof.
  induction events as [|event rest IH]; intros s; simpl; [done|].
  by rewrite IH, stepSource_source.
Qed.

(** The status of a source is the status its last event gave it. *)
Lemma fold_stepSource_status events :
  forall s,
    sp_status (fold_left stepSource events s)
    = match list.last (eventsOf (src_id (sp_source s)) events) with
      | Some event => eventStatus event
      | None => sp_status s
      end.
Proof.
  induction events as [|event rest IH] using rev_ind; intros s; [done|].
  rewrite fold_left_app. simpl. unfold eventsOf in *. rewrite filter_app.
  destruct (decide (eventSourceId event = Some (src_id (sp_source s)))) as [Hid|Hid].
  - rewrite (filter_cons_True _ event) by done.
    rewrite filter_nil, last_snoc.
    destruct event; try discriminate; injection Hid as ->; simpl;
      rewrite fold_stepSource_source, String.eqb_refl; done.
  - rewrite (filter_cons_False _ event) by done.
    rewrite filter_nil, app_nil_r, <- IH.
    destruct event; simpl; try done;
      (destruct (String.eqb _ sourceId) eqn:Heq; [|done]);
      apply String.eqb_eq in Heq; rewrite fold_stepSource_source in Heq;
      simpl in Hid; congruence.
Qed.

(** The events that end a source's task. *)
Definition isClosing (event : StreamEvent) : Prop :=
  match event with
  | EvSourceComplete _ _ | EvSourceError _ _ => True
  | _ => False
  end.

(** The events a task has left: all of one source, the last one
    closing. *)
Definition tailOfTask (events : list StreamEvent) : Prop :=
  events = []
  \/ exists id closing,
       Forall (fun event => eventSourceId event = Some id) events
       /\ list.last events = Some closing /\ isClosing closing.

Lemma tailOfTask_tail event rest : tailOfTask (event :: rest) -> tailOfTask rest.
Proof.
  intros [Hnil|(id & closing & Hids & Hlast & Hclosing)]; [discriminate|].
  destruct rest as [|next rest]; [by left|]. right. exists id, closing.
  apply Forall_cons in Hids as [_ Hids]. split; [done|]. split; [|done].
  by rewrite last_cons_cons in Hlast.
Qed.

Lemma elem_of_concat {A : Type} (x : A) (l : list A) (ls : list (list A)) :
  x ∈ l -> l ∈ ls -> x ∈ List.concat ls.
Proof.
  intros Hx. induction 1 as [l ls|l k ls _ IH]; simpl; apply elem_of_app; auto.
Qed.

(** In an interleaving of such tails, the last event of every source
    id is a closing event. *)
Lemma interleaving_last_closing (lists : list (list StreamEvent))
    (merged : list StreamEvent) :
  Interleaving lists merged ->
  Forall tailOfTask lists ->
  forall id event,
    list.last (eventsOf id merged) = Some event -> isClosing event.
Proof.
  induction 1 as [lists Hnil|lists i x rest merged Hi Hinter IH];
    intros Htails id event; [done|].
  assert (Htail : tailOfTask (x :: rest)).
  { rewrite Forall_forall in Htails. apply Htails. by eapply list_elem_of_lookup_2. }
  assert (Htails' : Forall tailOfTask (<[ i := rest ]> lists)).
  { apply Forall_insert; [done|]. by eapply tailOfTask_tail. }
  unfold eventsOf in *.
  destruct (decide (eventSourceId x = Some id)) as [Hid|Hid].
  - rewrite filter_cons_True by done.
    destruct (filter (fun e => eventSourceId e = Some id) merged) as [|y ys] eqn:Hrest.
    + simpl. intros [= <-].
      destruct Htail as [Hnil|(id' & closing & Hids & Hlast & Hclosing)];
        [discriminate|].
      destruct rest as [|next rest]; [simpl in Hlast; by injection Hlast as ->|].
      exfalso.
      assert (Hnext : next ∈ merged).
      { rewrite (interleaving_perm _ _ Hinter).
        apply (elem_of_concat _ (next :: rest)); [left|].
        apply list_elem_of_lookup. exists i.
        apply list_lookup_insert_eq. by eapply lookup_lt_Some. }
      assert (Hnextid : eventSourceId next = Some id).
      { apply Forall_cons in Hids as [Hx Hids].
        apply Forall_cons in Hids as [Hn _]. congruence. }
      assert (Hin : next ∈ filter (fun e => eventSourceId e = Some id) merged)
        by (by apply list_elem_of_filter).
      rewrite Hrest in Hin. by apply elem_of_nil in Hin.
    + rewrite last_cons_cons. rewrite <- Hrest. by apply IH.
  - rewrite filter_cons_False by done. by apply IH.
Qed.

(** With tasks of sources whose ids differ, the events that name a
    source's id are the events of its task, in the task's order. *)
Lemma interleaving_eventsOf (lists : list (list StreamEvent))
    (merged : list StreamEvent) :
  Interleaving lists merged ->
  forall id i own,
    lists !! i = Some own ->
    Forall (fun event => eventSourceId event = Some id) own ->
    (forall j other,
       j <> i -> lists !! j = Some other ->
       Forall (fun event => eventSourceId event <> Some id) other) ->
    eventsOf id merged = own.
Proof.
  induction 1 as [lists Hnil|lists k x rest merged Hk Hinter IH];
    intros id i own Hi Hown Hothers.
  - rewrite Forall_forall in Hnil.
    by rewrite (Hnil own) by (by eapply list_elem_of_lookup_2).
  - unfold eventsOf in *. destruct (decide (k = i)) as [->|Hne].
    + rewrite Hk in Hi. injection Hi as <-.
      apply Forall_cons in Hown as [Hx Hrest].
      rewrite filter_cons_True by done. f_equal.
      apply (IH id i rest).
      * apply list_lookup_insert_eq. by eapply lookup_lt_Some.
      * done.
      * intros j other Hj Hother. rewrite list_lookup_insert_ne in Hother by done.
        by apply (Hothers j).
    + pose proof (Hothers k (x :: rest) Hne Hk) as Hx.
      apply Forall_cons in Hx as [Hx Hrest].
      rewrite filter_cons_False by done.
      apply (IH id i own).
      * by rewrite list_lookup_insert_ne.
      * done.
      * intros j other Hj Hother. destruct (decide (j = k)) as [->|Hjk].
        -- rewrite list_lookup_insert_eq in Hother by (by eapply lookup_lt_Some).
           by injection Hother as <-.
        -- rewrite list_lookup_insert_ne in Hother by done. by apply (Hothers j).
Qed.

Lemma handleEvents_chunks t fresh chunks :
  forall index st,
    let st' := handleEvents t fresh index (map EvGuideChunk chunks) st in
    page_phase st' = page_phase st
    /\ page_statusMessage st' = page_statusMessage st
    /\ page_sources st' = page_sources st
    /\ page_stats st' = page_stats st
    /\ page_error st' = page_error st
    /\ page_history st' = page_history st.
Proof.
  induction chunks as [|chunk rest IH]; intros index st; [done|].
  cbv zeta. cbn [map handleEvents].
  destruct (IH (S index) (handleEvent t (fresh index) st (EvGuideChunk chunk)))
    as (H1 & H2 & H3 & H4 & H5 & H6).
  by rewrite H1, H2, H3, H4, H5, H6.
Qed.

Lemma Settled_tails tasks sources values :
  Settled tasks sources values -> Forall tailOfTask (task_events <$> tasks).
Proof.
  induction 1 as [|task source value tasks sources values Htask _ _ IH];
    [constructor|].
  csimpl. constructor; [|done].
  destruct Htask as (_ & updates & final & -> & Hupdates & Hcloses).
  right. exists (src_id source), final. split; [|split].
  - constructor; [done|]. apply Forall_app. split.
    + eapply Forall_impl; [exact Hupdates|]. by intros event (step & url & -> & _).
    + constructor; [|done].
      destruct value; simpl in Hcloses; by destruct Hcloses as (-> & _).
  - change (launching source :: updates ++ [final])
      with ((launching source :: updates) ++ [final]).
    apply last_snoc.
  - destruct value; simpl in Hcloses; by destruct Hcloses as (-> & _).
Qed.

Lemma Settled_launched tasks sources values source :
  Settled tasks sources values ->
  source ∈ sources ->
  launching source ∈ List.concat (task_events <$> tasks).
Proof.
  induction 1 as [|task first value tasks sources values Htask _ _ IH];
    [by intros ?%elem_of_nil|].
  csimpl. intros [->|Hin]%elem_of_cons; apply elem_of_app.
  - left. destruct Htask as (_ & updates & final & -> & _). left.
  - right. by apply IH.
Qed.

(** The status the page shows for a value a task returned. *)
Definition valueStatus (value : ScrapeResult) : SourceStatus :=
  match value with
  | StatusComplete _ => StatusDone
  | StatusError _ => StatusFailed
  end.

Lemma Settled_lookups tasks sources values :
  Settled tasks sources values ->
  forall i source,
    sources !! i = Some source ->
    exists task value,
      tasks !! i = Some task /\ values !! i = Some value
      /\ settles task source value.
Proof.
  induction 1 as [|task first value tasks sources values Htask _ _ IH];
    intros i source Hi; [done|].
  destruct i as [|i]; simpl in *; [|by apply IH].
  injection Hi as <-. by exists task, value.
Qed.

Lemma Settled_task_sources tasks sources values :
  Settled tasks sources values ->
  forall j task,
    tasks !! j = Some task ->
    exists source value,
      sources !! j = Some source /\ settles task source value.
Proof.
  induction 1 as [|task0 first value tasks sources values Htask _ _ IH];
    intros j task Hj; [done|].
  destruct j as [|j]; simpl in *; [|by apply IH].
  injection Hj as <-. by exists first, value.
Qed.

(** The sources of the page after the scraping phase. *)
Definition scrapedSources (found : list DiscoveredSource)
    (sourceEvents : list StreamEvent) : list SourceProgress :=
  map (fun s => fold_left stepSource sourceEvents s) (map pendingSource found).

Lemma scrapedSources_sources found sourceEvents :
  map sp_source (scrapedSources found sourceEvents) = found.
Proof.
  unfold scrapedSources. rewrite !map_map.
  rewrite <- (map_id found) at 2. apply map_ext. intros source.
  by rewrite fold_stepSource_source.
Qed.

Section PageFacts.

Variable JSON_parse : string -> option JsValue.
Variable network : nat -> TinyFishTaskRequest -> string -> FetchOutcome.

(** After the scraping phase no source is left pending or scraping. *)
Lemma scrapedSources_closed topic apiKey found sourceEvents values :
  Interleaving
    (task_events <$> imap (taskOf JSON_parse network topic apiKey) found) sourceEvents ->
  Settled (imap (taskOf JSON_parse network topic apiKey) found) found values ->
  Forall (fun s => sp_status s = StatusDone \/ sp_status s = StatusFailed)
    (scrapedSources found sourceEvents).
Proof.
  intros Hinter Hsettled. unfold scrapedSources. rewrite map_map.
  apply Forall_forall. intros s (source & -> & Hin)%list_elem_of_fmap.
  rewrite fold_stepSource_status. simpl.
  assert (Hsome : launching source ∈ eventsOf (src_id source) sourceEvents).
  { apply list_elem_of_filter. split; [done|].
    rewrite (interleaving_perm _ _ Hinter). by eapply Settled_launched. }
  destruct (list.last (eventsOf (src_id source) sourceEvents)) as [event|] eqn:Hlast.
  - pose proof (interleaving_last_closing _ _ Hinter (Settled_tails _ _ _ Hsettled)
                  _ _ Hlast) as Hclosing.
    destruct event; simpl in *; tauto.
  - apply last_None in Hlast. rewrite Hlast in Hsome. by apply elem_of_nil in Hsome.
Qed.

(** When no two sources share an id, the page shows for every source
    the outcome of its own task. *)
Lemma scrapedSources_statuses topic apiKey found sourceEvents values :
  Interleaving
    (task_events <$> imap (taskOf JSON_parse network topic apiKey) found) sourceEvents ->
  Settled (imap (taskOf JSON_parse network topic apiKey) found) found values ->
  NoDup (src_id <$> found) ->
  sp_status <$> scrapedSources found sourceEvents = valueStatus <$> values.
Proof.
  intros Hinter Hsettled Hdup.
  set (tasks := imap (taskOf JSON_parse network topic apiKey) found) in *.
  apply list_eq. intros i. unfold scrapedSources.
  rewrite !list_lookup_fmap.
  destruct (found !! i) as [source|] eqn:Hi; simpl.
  2:{ destruct (Settled_length _ _ _ Hsettled) as [Hlen _].
      apply lookup_ge_None in Hi. rewrite <- Hlen in Hi.
      apply lookup_ge_None in Hi. by rewrite Hi. }
  destruct (Settled_lookups _ _ _ Hsettled i source Hi)
    as (task & value & Htask & Hvalue & Hsettles).
  rewrite Hvalue. simpl. f_equal.
  rewrite fold_stepSource_status. simpl.
  assert (Hown : eventsOf (src_id source) sourceEvents = task_events task).
  { apply (interleaving_eventsOf _ _ Hinter (src_id source) i).
    - by rewrite list_lookup_fmap, Htask.
    - apply Forall_forall. intros event Hin.
      by eapply settles_eventSourceId.
    - intros j other Hne Hother.
      rewrite list_lookup_fmap in Hother.
      destruct (tasks !! j) as [task'|] eqn:Htask'; [|discriminate].
      injection Hother as <-.
      destruct (Settled_task_sources _ _ _ Hsettled j task' Htask')
        as (source' & value' & Hj & Hsettles').
      apply Forall_forall. intros event Hin.
      rewrite (settles_eventSourceId _ _ _ _ Hsettles' Hin).
      intros [= Hsame]. apply Hne.
      apply (NoDup_lookup (src_id <$> found) j i (src_id source')); [done| |].
      + by rewrite list_lookup_fmap, Hj.
      + by rewrite list_lookup_fmap, Hi, Hsame. }
  rewrite Hown.
  destruct Hsettles as (_ & updates & final & -> & _ & Hcloses).
  change (launching source :: updates ++ [final])
    with ((launching source :: updates) ++ [final]).
  rewrite last_snoc.
  destruct value; simpl in Hcloses; by destruct Hcloses as (-> & _).
Qed.

End PageFacts.

Lemma countStatus_values status (statuses : list SourceProgress)
    (values : list ScrapeResult) :
  sp_status <$> statuses = valueStatus <$> values ->
  countStatus status statuses
  = List.length (filter (fun value => valueStatus value = status) values).
Proof.
  unfold countStatus. revert values.
  induction statuses as [|s statuses IH]; intros [|value values] Heq;
    try discriminate; [done|].
  injection Heq as Hs Hrest.
  destruct (decide (sp_status s = status)) as [Hyes|Hno].
  - rewrite !filter_cons_True by congruence. simpl. by rewrite (IH values).
  - rewrite !filter_cons_False by congruence. by apply IH.
Qed.

Lemma count_successes values :
  List.length (filter (fun value => valueStatus value = StatusDone) values)
  = List.length (omap successOf values).
Proof.
  induction values as [|value values IH]; [done|].
  destruct value.
  - rewrite filter_cons_True by done. csimpl. by rewrite IH.
  - rewrite filter_cons_False by done. by csimpl.
Qed.

Lemma count_failures values :
  List.length (filter (fun value => valueStatus value = StatusFailed) values)
  = List.length (omap failureOf values).
Proof.
  induction values as [|value values IH]; [done|].
  destruct value.
  - rewrite filter_cons_False by done. by csimpl.
  - rewrite filter_cons_True by done. csimpl. by rewrite IH.
Qed.

(** The page after the stream of a run that completes, and after the
    stream of a run in which every source fails. *)
Lemma page_after_success t fresh st0 found sourceEvents chunks guide stats :
  Forall isSourceEvent sourceEvents ->
  let events :=
    discoveringEvent :: EvDiscoveryComplete found :: scrapingEvent found
    :: sourceEvents
    ++ synthesizingEvent :: map EvGuideChunk chunks
    ++ [completeEvent; EvComplete guide found stats] in
  let st := handleEvents t fresh 0 events (startRun st0) in
  page_phase st = PhaseComplete
  /\ page_error st = None
  /\ page_guideMarkdown st = guide
  /\ page_stats st = Some stats
  /\ page_sources st = scrapedSources found sourceEvents
  /\ exists id createdAt,
       page_history st
       = appendHistory
           {| hist_id := id; hist_topic := t; hist_createdAt := createdAt;
              hist_guide := guide; hist_sources := found; hist_stats := stats |}
           (page_history st0).
Proof.
  intros Hsource events st. unfold st, events.
  unfold discoveringEvent, scrapingEvent, synthesizingEvent, completeEvent.
  cbn [handleEvents]. rewrite handleEvents_app, (handleEvents_sources _ _ _ Hsource).
  cbn [handleEvents]. rewrite handleEvents_app. cbn [handleEvents].
  match goal with
  | |- context [handleEvents t fresh ?i (map EvGuideChunk chunks) ?s] =>
      destruct (handleEvents_chunks t fresh chunks i s)
        as (Hphase & Hmessage & Hsources & Hstats & Herror & Hhistory);
      set (streamed := handleEvents t fresh i (map EvGuideChunk chunks) s) in *
  end.
  cbn [handleEvent page_phase page_error page_guideMarkdown page_stats page_sources
       page_history].
  rewrite Herror, Hsources, Hhistory.
  split; [done|]. split; [done|]. split; [done|]. split; [done|].
  split; [done|]. by eexists _, _.
Qed.

Lemma page_after_failure t fresh st0 found sourceEvents message :
  Forall isSourceEvent sourceEvents ->
  let events :=
    discoveringEvent :: EvDiscoveryComplete found :: scrapingEvent found
    :: sourceEvents ++ [EvPhase PhaseError message; EvError message] in
  let st := handleEvents t fresh 0 events (startRun st0) in
  page_phase st = PhaseError
  /\ page_error st = Some message
  /\ page_guideMarkdown st = EmptyString
  /\ page_stats st = None
  /\ page_sources st = scrapedSources found sourceEvents
  /\ page_history st = page_history st0.
Proof.
  intros Hsource events st. unfold st, events.
  unfold discoveringEvent, scrapingEvent.
  cbn [handleEvents]. rewrite handleEvents_app, (handleEvents_sources _ _ _ Hsource).
  by cbn [handleEvents].
Qed.

Section PageAfterRun.

Variable JSON_parse : string -> option JsValue.
Variable Date_toLocaleString : string -> string.
Variable search : string -> option (list SearchResult).
Variable URL_withoutHash : string -> option string.
Variable encodeURIComponent : string -> Completion string.
Variable network : nat -> TinyFishTaskRequest -> string -> FetchOutcome.

(** The streams of the runs, with the tasks behind the source events. *)
Lemma POST_trace body env_apiKey generatedAt schedule :
  let events :=
    POST JSON_parse Date_toLocaleString search URL_withoutHash encodeURIComponent
      network body env_apiKey generatedAt schedule in
  (exists message, events = [EvError message])
  \/ (exists message, events = [EvPhase PhaseError message; EvError message])
  \/ (exists message,
        events = [discoveringEvent; EvPhase PhaseError message; EvError message])
  \/ exists topic apiKey found sourceEvents values,
       Interleaving
         (task_events <$> imap (taskOf JSON_parse network topic apiKey) found)
         sourceEvents
       /\ Settled (imap (taskOf JSON_parse network topic apiKey) found) found values
       /\ ((omap successOf values = []
            /\ events
               = discoveringEvent :: EvDiscoveryComplete found :: scrapingEvent found
                 :: sourceEvents
                 ++ [EvPhase PhaseError noContentMessage; EvError noContentMessage])
           \/ (omap successOf values <> []
               /\ exists chunks guide,
                    events
                    = discoveringEvent :: EvDiscoveryComplete found
                      :: scrapingEvent found :: sourceEvents
                      ++ synthesizingEvent :: map EvGuideChunk chunks
                      ++ [completeEvent;
                          EvComplete guide found
                            {| sourceCount := List.length found;
                               successCount := List.length (omap successOf values);
                               generatedWords := countWords guide |}])).
Proof.
  intros events. unfold events. apply POST_cases.
  - intros message. left. by exists message.
  - intros message. right. left. by exists message.
  - intros topic apiKey _. right. right.
    destruct (discoverSources search URL_withoutHash encodeURIComponent topic
                (readMaxPerType body)) as [found|thrown] eqn:Hdiscovered.
    2:{ left.
        destruct (discoverAndRun_throws JSON_parse Date_toLocaleString search
                    URL_withoutHash encodeURIComponent network generatedAt schedule
                    topic apiKey _ _ Hdiscovered) as (message & Hevents & _).
        by exists message. }
    right.
    destruct (discoverSources_found search URL_withoutHash encodeURIComponent topic
                (readMaxPerType body) found Hdiscovered) as [Hlen _].
    assert (Hfound : found <> [])
      by (intros Hnil; rewrite Hnil in Hlen; simpl in Hlen; lia).
    destruct (scrapeAndSynthesize_trace JSON_parse Date_toLocaleString network
                generatedAt schedule topic apiKey found
                ([] ++ [discoveringEvent]) Hfound)
      as (sourceEvents & values & Hinter & Hsettled & Hsteps).
    exists topic, apiKey, found, sourceEvents, values.
    split; [done|]. split; [done|].
    unfold tryCatch, discoverAndRun, bind, sendEvent, await.
    fold discoveringEvent. rewrite Hdiscovered, Hsteps.
    destruct (List.length (omap successOf values) =? 0)%nat eqn:Hnone.
    + left. apply Nat.eqb_eq in Hnone. split; [by destruct (omap successOf values)|].
      unfold POST_catch, bind, sendEvent. simpl. by rewrite <- app_assoc.
    + right. apply Nat.eqb_neq in Hnone.
      split; [intros Hnil; by rewrite Hnil in Hnone|].
      unfold successTail. cbv zeta. by eexists _, _.
Qed.

Lemma trace_source_events topic apiKey found sourceEvents values :
  Interleaving
    (task_events <$> imap (taskOf JSON_parse network topic apiKey) found) sourceEvents ->
  Settled (imap (taskOf JSON_parse network topic apiKey) found) found values ->
  Forall isSourceEvent sourceEvents.
Proof.
  intros Hinter Hsettled. apply Forall_forall. intros event Hin.
  rewrite (interleaving_perm _ _ Hinter) in Hin.
  destruct (Settled_eventSourceId _ _ _ _ Hsettled Hin) as (source & _ & Hid).
  by destruct event.
Qed.

(** X22: whatever the run does, when the page has handled its events
    it is not left working: its phase is [complete] or [error], and
    no source it lists is still pending or scraping.  If the stream
    carried the [complete] event, the page shows that event's guide,
    stats and sources (in the order discovered), no error, and the
    history starts with an item for this run; if it did not, the phase
    is [error], an error message is shown, and no guide, no stats and no
    new history item are. *)
Theorem page_after_run (t : string) (fresh : nat -> string * string)
    (st0 : PageState) (body : JsValue) (env_apiKey : option string)
    (generatedAt : string) (schedule : list nat) :
  let events :=
    POST JSON_parse Date_toLocaleString search URL_withoutHash encodeURIComponent
      network body env_apiKey generatedAt schedule in
  let st := handleEvents t fresh 0 events (startRun st0) in
  isWorking (page_phase st) = false
  /\ Forall (fun s => sp_status s = StatusDone \/ sp_status s = StatusFailed)
       (page_sources st)
  /\ (forall guide sources stats,
        EvComplete guide sources stats ∈ events ->
        page_phase st = PhaseComplete
        /\ page_error st = None
        /\ page_guideMarkdown st = guide
        /\ page_stats st = Some stats
        /\ map sp_source (page_sources st) = sources
        /\ exists id createdAt older,
             page_history st
             = {| hist_id := id; hist_topic := t;
                  hist_createdAt := createdAt; hist_guide := guide;
                  hist_sources := sources; hist_stats := stats |} :: older)
  /\ ((forall guide sources stats, EvComplete guide sources stats ∉ events) ->
      page_phase st = PhaseError
      /\ (exists message, page_error st = Some message /\ EvError message ∈ events)
      /\ page_guideMarkdown st = EmptyString
      /\ page_stats st = None
      /\ page_history st = page_history st0).
Proof.
  intros events st. unfold st.
  destruct (POST_trace body env_apiKey generatedAt schedule)
    as [[message Hevents]
       |[[message Hevents]
        |[[message Hevents]
         |(topic' & apiKey & found & sourceEvents & values & Hinter & Hsettled
           & [[Hnone Hevents]|(Hsome & chunks & guide & Hevents)])]]];
    fold events in Hevents; rewrite Hevents.
  - split; [done|]. split; [constructor|]. split.
    + intros g s stats' Hin. apply list_elem_of_singleton in Hin. discriminate.
    + intros _. simpl. split; [done|]. split; [|done].
      exists message. split; [done|]. left.
  - split; [done|]. split; [constructor|]. split.
    + intros g s stats' Hin.
      apply elem_of_cons in Hin as [Hin|Hin]; [discriminate|].
      apply list_elem_of_singleton in Hin. discriminate.
    + intros _. simpl. split; [done|]. split; [|done].
      exists message. split; [done|]. right. left.
  - split; [done|]. split; [constructor|]. split.
    + intros g s stats' Hin.
      apply elem_of_cons in Hin as [Hin|Hin]; [discriminate|].
      apply elem_of_cons in Hin as [Hin|Hin]; [discriminate|].
      apply list_elem_of_singleton in Hin. discriminate.
    + intros _. simpl. split; [done|]. split; [|done].
      exists message. split; [done|]. right. right. left.
  - pose proof (trace_source_events _ _ _ _ _ Hinter Hsettled) as Hsource.
    destruct (page_after_failure (t) fresh st0 found sourceEvents
                noContentMessage Hsource)
      as (Hphase & Herror & Hguide & Hstats & Hsources & Hhistory).
    rewrite Hphase, Herror, Hguide, Hstats, Hsources, Hhistory.
    split; [done|]. split; [by eapply scrapedSources_closed|]. split.
    + intros g s stats' Hin. exfalso.
      apply elem_of_cons in Hin as [Hin|Hin]; [discriminate|].
      apply elem_of_cons in Hin as [Hin|Hin]; [discriminate|].
      apply elem_of_cons in Hin as [Hin|Hin]; [discriminate|].
      apply elem_of_app in Hin as [Hin|Hin].
      * rewrite Forall_forall in Hsource. by apply (Hsource _ Hin).
      * apply elem_of_cons in Hin as [Hin|Hin]; [discriminate|].
        apply list_elem_of_singleton in Hin. discriminate.
    + intros _. split; [done|]. split; [|done].
      exists noContentMessage. split; [done|].
      do 3 right. apply elem_of_app. right. right. left.
  - pose proof (trace_source_events _ _ _ _ _ Hinter Hsettled) as Hsource.
    destruct (page_after_success (t) fresh st0 found sourceEvents chunks
                guide
                {| sourceCount := List.length found;
                   successCount := List.length (omap successOf values);
                   generatedWords := countWords guide |} Hsource)
      as (Hphase & Herror & Hguide & Hstats & Hsources & id & createdAt & Hhistory).
    rewrite Hphase, Herror, Hguide, Hstats, Hsources, Hhistory.
    split; [done|]. split; [by eapply scrapedSources_closed|]. split.
    + intros g s stats' Hin.
      assert (Heq : EvComplete g s stats'
                    = EvComplete guide found
                        {| sourceCount := List.length found;
                           successCount := List.length (omap successOf values);
                           generatedWords := countWords guide |}).
      { apply elem_of_cons in Hin as [Hin|Hin]; [discriminate|].
        apply elem_of_cons in Hin as [Hin|Hin]; [discriminate|].
        apply elem_of_cons in Hin as [Hin|Hin]; [discriminate|].
        apply elem_of_app in Hin as [Hin|Hin].
        { rewrite Forall_forall in Hsource. by destruct (Hsource _ Hin). }
        apply elem_of_cons in Hin as [Hin|Hin]; [discriminate|].
        apply elem_of_app in Hin as [Hin|Hin].
        { apply list_elem_of_fmap in Hin as (chunk & Hchunk & _). discriminate. }
        apply elem_of_cons in Hin as [Hin|Hin]; [discriminate|].
        by apply list_elem_of_singleton in Hin. }
      injection Heq as -> -> ->.
      split; [done|]. split; [done|]. split; [done|]. split; [done|].
      split; [apply scrapedSources_sources|].
      destruct (appendHistory_head
                  {| hist_id := id; hist_topic := t;
                     hist_createdAt := createdAt; hist_guide := guide;
                     hist_sources := found;
                     hist_stats :=
                       {| sourceCount := List.length found;
                          successCount := List.length (omap successOf values);
                          generatedWords := countWords guide |} |}
                  (page_history st0)) as [older ->].
      by exists id, createdAt, older.
    + intros Hnever. exfalso. eapply Hnever.
      do 3 right. apply elem_of_app. right. right.
      apply elem_of_app. right. right. left.
Qed.

(** X23: when a run completes and no two of its sources share an id,
    the counts the page shows agree with the stats of the [complete]
    event: as many sources as [sourceCount], [successCount] of them
    complete, the others in error, none pending or scraping. *)
Theorem page_totals (t : string) (fresh : nat -> string * string)
    (st0 : PageState) (body : JsValue) (env_apiKey : option string)
    (generatedAt : string) (schedule : list nat)
    (guide : string) (sources : list DiscoveredSource) (stats : GenerationStats) :
  let events :=
    POST JSON_parse Date_toLocaleString search URL_withoutHash encodeURIComponent
      network body env_apiKey generatedAt schedule in
  let st := handleEvents t fresh 0 events (startRun st0) in
  EvComplete guide sources stats ∈ events ->
  NoDup (src_id <$> sources) ->
  List.length (page_sources st) = sourceCount stats
  /\ countStatus StatusDone (page_sources st) = successCount stats
  /\ countStatus StatusFailed (page_sources st)
     = (sourceCount stats - successCount stats)%nat
  /\ countStatus StatusPending (page_sources st) = 0%nat
  /\ countStatus StatusScraping (page_sources st) = 0%nat.
Proof.
  intros events st. unfold st.
  destruct (POST_trace body env_apiKey generatedAt schedule)
    as [[message Hevents]
       |[[message Hevents]
        |[[message Hevents]
         |(topic' & apiKey & found & sourceEvents & values & Hinter & Hsettled
           & [[Hnone Hevents]|(Hsome & chunks & guide' & Hevents)])]]];
    fold events in Hevents; rewrite Hevents; intros Hin Hdup.
  - apply list_elem_of_singleton in Hin. discriminate.
  - apply elem_of_cons in Hin as [Hin|Hin]; [discriminate|].
    apply list_elem_of_singleton in Hin. discriminate.
  - apply elem_of_cons in Hin as [Hin|Hin]; [discriminate|].
    apply elem_of_cons in Hin as [Hin|Hin]; [discriminate|].
    apply list_elem_of_singleton in Hin. discriminate.
  - pose proof (trace_source_events _ _ _ _ _ Hinter Hsettled) as Hsource.
    exfalso.
    apply elem_of_cons in Hin as [Hin|Hin]; [discriminate|].
    apply elem_of_cons in Hin as [Hin|Hin]; [discriminate|].
    apply elem_of_cons in Hin as [Hin|Hin]; [discriminate|].
    apply elem_of_app in Hin as [Hin|Hin].
    + rewrite Forall_forall in Hsource. by apply (Hsource _ Hin).
    + apply elem_of_cons in Hin as [Hin|Hin]; [discriminate|].
      apply list_elem_of_singleton in Hin. discriminate.
  - pose proof (trace_source_events _ _ _ _ _ Hinter Hsettled) as Hsource.
    assert (Heq : EvComplete guide sources stats
                  = EvComplete guide' found
                      {| sourceCount := List.length found;
                         successCount := List.length (omap successOf values);
                         generatedWords := countWords guide' |}).
    { apply elem_of_cons in Hin as [Hin|Hin]; [discriminate|].
      apply elem_of_cons in Hin as [Hin|Hin]; [discriminate|].
      apply elem_of_cons in Hin as [Hin|Hin]; [discriminate|].
      apply elem_of_app in Hin as [Hin|Hin].
      { rewrite Forall_forall in Hsource. by destruct (Hsource _ Hin). }
      apply elem_of_cons in Hin as [Hin|Hin]; [discriminate|].
      apply elem_of_app in Hin as [Hin|Hin].
      { apply list_elem_of_fmap in Hin as (chunk & Hchunk & _). discriminate. }
      apply elem_of_cons in Hin as [Hin|Hin]; [discriminate|].
      by apply list_elem_of_singleton in Hin. }
    injection Heq as -> -> ->.
    destruct (page_after_success (t) fresh st0 found sourceEvents chunks
                guide'
                {| sourceCount := List.length found;
                   successCount := List.length (omap successOf values);
                   generatedWords := countWords guide' |} Hsource)
      as (_ & _ & _ & _ & Hsources & _).
    rewrite Hsources. cbn [sourceCount successCount].
    pose proof (scrapedSources_statuses JSON_parse network _ _ _ _ _
                  Hinter Hsettled Hdup) as Hstatuses.
    destruct (Settled_length _ _ _ Hsettled) as [Hlen Hcount].
    split; [|split; [|split; [|split]]].
    + unfold scrapedSources. by rewrite !length_map.
    + by rewrite (countStatus_values _ _ _ Hstatuses), count_successes.
    + rewrite (countStatus_values _ _ _ Hstatuses), count_failures. lia.
    + rewrite (countStatus_values _ _ _ Hstatuses).
      clear. induction values as [|value values IH]; [done|].
      by rewrite filter_cons_False by (by destruct value).
    + rewrite (countStatus_values _ _ _ Hstatuses).
      clear. induction values as [|value values IH]; [done|].
      by rewrite filter_cons_False by (by destruct value).
Qed.

End PageAfterRun.

(** A page that has not run yet, and an id generator and clock that
    number their answers. *)
Definition idle_page : PageState :=
  {| page_phase := PhaseIdle; page_statusMessage := EmptyString;
     page_sources := []; page_guideMarkdown := EmptyString;
     page_stats := None; page_error := None; page_history := [] |}.

Definition fresh_sample (index : nat) : string * string :=
  ("id-" +:+ pretty index, "2026-01-01T00:00:0" +:+ pretty index +:+ ".000Z").

Lemma page_totals_witness :
  EvComplete guide_sample sources_sample stats_sample ∈ run_sample
  /\ NoDup (src_id <$> sources_sample)
  /\ countStatus StatusDone
       (page_sources (handleEvents "Docker" fresh_sample 0 run_sample (startRun idle_page)))
     = successCount stats_sample.
Proof.
  assert (Hdup : NoDup (src_id <$> sources_sample)).
  { apply (bool_decide_unpack (NoDup (src_id <$> sources_sample))).
    vm_compute. exact I. }
  split; [exact run_sample_complete|]. split; [exact Hdup|].
  destruct (page_totals parse_sample locale_as_written search_down URL_as_written
              encode_as_written network_sample "Docker" fresh_sample idle_page
              body_sample (Some "key") "2026-01-01T00:00:00.000Z" schedule_sample
              guide_sample sources_sample stats_sample
              run_sample_complete Hdup) as (_ & Hdone & _).
  exact Hdone.
Defined.

(** ** The stream on the wire *)

(** A text with no line break in it, as [JSON.stringify] gives. *)
Definition noLineBreak (s : string) : bool :=
  allChars (fun c => negb (Ascii.eqb c (ascii_of_nat 10))) s.

Lemma allChars_append test (a b : string) :
  allChars test (a +:+ b) = allChars test a && allChars test b.
Proof.
  induction a as [|c a IH]; [by rewrite append_nil_l|].
  rewrite append_cons. simpl. by rewrite IH, andb_assoc.
Qed.

Lemma splitChar_line (line rest : string) :
  noLineBreak line = true ->
  splitChar (ascii_of_nat 10) (line +:+ LF +:+ rest)
  = line :: splitChar (ascii_of_nat 10) rest.
Proof.
  unfold noLineBreak, LF. induction line as [|c line IH]; intros Hline.
  - by rewrite append_nil_l, append_cons, append_nil_l.
  - simpl in Hline. apply andb_prop in Hline as [Hc Hline].
    rewrite append_cons. simpl splitChar.
    apply negb_true_iff in Hc. rewrite Hc. by rewrite (IH Hline).
Qed.

(** The lines of the text of some events: for each event its [data:]
    line and an empty one, and the unfinished line after the last. *)
Definition wireLines (JSON_stringify_event : StreamEvent -> string)
    (events : list StreamEvent) : list string :=
  flat_map (fun event => ["data: " +:+ JSON_stringify_event event; EmptyString])
    events.

Lemma wireText_append (JSON_stringify_event : StreamEvent -> string)
    (event : StreamEvent) (rest : string) :
  wireText JSON_stringify_event event +:+ rest
  = ("data: " +:+ JSON_stringify_event event) +:+ LF
    +:+ (EmptyString +:+ LF +:+ rest).
Proof. unfold wireText. by rewrite append_nil_l, <- !append_assoc. Qed.

Lemma splitChar_wire (JSON_stringify_event : StreamEvent -> string)
    (events : list StreamEvent) :
  Forall (fun event => noLineBreak (JSON_stringify_event event) = true) events ->
  splitChar (ascii_of_nat 10)
    (concatenation (map (wireText JSON_stringify_event) events))
  = wireLines JSON_stringify_event events ++ [EmptyString].
Proof.
  induction 1 as [|event events Hevent _ IH]; [done|].
  cbn [map concatenation foldr wireLines flat_map].
  fold (concatenation (map (wireText JSON_stringify_event) events)).
  fold (wireLines JSON_stringify_event events).
  rewrite wireText_append.
  rewrite splitChar_line.
  - rewrite splitChar_line by done. by rewrite IH.
  - unfold noLineBreak in *. by rewrite allChars_append, Hevent.
Qed.

Section Wire.

Variable JSON_stringify_event : StreamEvent -> string.
Variable JSON_parse_event : string -> option StreamEvent.

Lemma handleLine_event t fresh state event :
  JSON_parse_event (JSON_stringify_event event) = Some event ->
  handleLine JSON_parse_event t fresh state
    ("data: " +:+ JSON_stringify_event event)
  = (S (fst state), handleEvent t (fresh (fst state)) (snd state) event).
Proof.
  intros Hparse. unfold handleLine, startsWith, sliceFrom.
  rewrite prefix_append. cbn [negb].
  change 6%nat with (String.length "data: ").
  by rewrite drop_append, Hparse.
Qed.

Lemma handleLines_wire t fresh events :
  Forall (fun event =>
            JSON_parse_event (JSON_stringify_event event) = Some event) events ->
  forall index st,
    fold_left (handleLine JSON_parse_event t fresh)
      (wireLines JSON_stringify_event events) (index, st)
    = ((index + List.length events)%nat, handleEvents t fresh index events st).
Proof.
  induction 1 as [|event events Hevent _ IH]; intros index st.
  - simpl. by rewrite Nat.add_0_r.
  - cbn [wireLines flat_map app fold_left].
    fold (wireLines JSON_stringify_event events).
    rewrite (handleLine_event _ _ _ _ Hevent).
    replace (handleLine JSON_parse_event t fresh
               (S (fst (index, st)),
                handleEvent t (fresh (fst (index, st))) (snd (index, st)) event)
               EmptyString)
      with (S index, handleEvent t (fresh index) st event) by reflexivity.
    rewrite IH. cbn [handleEvents List.length]. f_equal. lia.
Qed.

(** Two chunks read one after the other are read as their
    concatenation is. *)
Lemma readStream_merge t fresh value1 value2 rest buffer state :
  readStream JSON_parse_event t fresh (value1 :: value2 :: rest) buffer state
  = readStream JSON_parse_event t fresh ((value1 +:+ value2) :: rest) buffer state.
Proof.
  cbn [readStream]. rewrite <- append_assoc.
  rewrite (splitChar_app (ascii_of_nat 10) (buffer +:+ value1) value2).
  set (lines1 := splitChar (ascii_of_nat 10) (buffer +:+ value1)).
  destruct (splitChar_cons (ascii_of_nat 10)
              (List.last lines1 EmptyString +:+ value2)) as (p & ps & Hsplit).
  by rewrite Hsplit, removelast_app_cons, last_app_cons, fold_left_app.
Qed.

Lemma readStream_first_chunk t fresh rest state :
  forall value,
    readStream JSON_parse_event t fresh (value :: rest) EmptyString state
    = readStream JSON_parse_event t fresh [value +:+ concatenation rest]
        EmptyString state.
Proof.
  induction rest as [|value2 rest IH]; intros value.
  - simpl concatenation. by rewrite append_nil_r.
  - rewrite readStream_merge, IH.
    change (concatenation (value2 :: rest)) with (value2 +:+ concatenation rest).
    by rewrite append_assoc.
Qed.

Lemma readStream_chunks t fresh chunks state :
  readStream JSON_parse_event t fresh chunks EmptyString state
  = readStream JSON_parse_event t fresh [concatenation chunks] EmptyString state.
Proof.
  destruct chunks as [|value rest]; [reflexivity|].
  apply readStream_first_chunk.
Qed.

(** X24: the page reads off the wire exactly the events the endpoint
    wrote, in order, however the network cut the text into chunks.
    When [JSON.stringify] gives no line break and [JSON.parse] gives
    back the event for each event sent, and the chunks of the response
    concatenate to the texts [sendEvent] wrote, [runGeneration] leaves
    the page as handling those events one by one does. *)
Theorem runGeneration_reads_stream (topic : string)
    (fresh : nat -> string * string) (events : list StreamEvent)
    (chunks : list string) (st0 : PageState) :
  isEmpty (trim topic) = false ->
  Forall (fun event =>
            noLineBreak (JSON_stringify_event event) = true
            /\ JSON_parse_event (JSON_stringify_event event) = Some event)
    events ->
  concatenation chunks
  = concatenation (map (wireText JSON_stringify_event) events) ->
  runGeneration JSON_parse_event topic fresh (PageFetchBody chunks) st0
  = handleEvents (trim topic) fresh 0 events (startRun st0).
Proof.
  intros Htopic Hevents Htext. unfold runGeneration. rewrite Htopic.
  rewrite readStream_chunks, Htext. cbn [readStream].
  rewrite append_nil_l, splitChar_wire
    by (eapply Forall_impl; [exact Hevents|]; by intros event [Hline _]).
  rewrite removelast_last, handleLines_wire
    by (eapply Forall_impl; [exact Hevents|]; by intros event [_ Hparse]).
  reflexivity.
Qed.

End Wire.

(** A serialisation of two events, and a stream cut inside its lines. *)
Definition stringify_sample_event (event : StreamEvent) : string :=
  match event with
  | EvPhase _ _ => "P"
  | _ => "E"
  end.

Definition parse_sample_event (text : string) : option StreamEvent :=
  if String.eqb text "P" then Some (EvPhase PhaseError "No sources.")
  else if String.eqb text "E" then Some (EvError "No sources.")
  else None.

Lemma runGeneration_reads_stream_witness :
  runGeneration parse_sample_event " Docker " fresh_sample
    (PageFetchBody ["da"; "ta: P" +:+ LF; LF +:+ "data: "; "E" +:+ LF +:+ LF])
    idle_page
  = handleEvents "Docker" fresh_sample 0
      [EvPhase PhaseError "No sources."; EvError "No sources."]
      (startRun idle_page).
Proof.
  apply (runGeneration_reads_stream stringify_sample_event parse_sample_event
           " Docker " fresh_sample
           [EvPhase PhaseError "No sources."; EvError "No sources."]
           ["da"; "ta: P" +:+ LF; LF +:+ "data: "; "E" +:+ LF +:+ LF] idle_page).
  - reflexivity.
  - repeat constructor.
  - reflexivity.
Defined.
